(** * calcgraph: the evaluation core of [calcgraph.h]

    A shallow embedding of the scheduling core of the calcgraph library
    (Graph, Work, Node, Value, Input, WorkState) as state-passing functions
    over an explicit object store, followed by the properties of the
    evaluation pass.

    The embedding follows one thread of control.  Atomic operations are the
    corresponding reads and writes of the store; a weak compare-exchange may
    still fail spuriously, which is driven by an oracle kept in the state.
    Dereferencing a pointer to a Work or a Value that is not in the store, and
    [std::abort], end the run as [Undefined]; a loop that exhausts its fuel
    ends it as [Timeout]. *)

From stdpp Require Import gmap list sorting.
From Stdlib Require Import ZArith Lia Sorted.

Local Open Scope Z_scope.

(** ** Machine integers *)

(** [uintN_t] arithmetic wraps around. *)
Definition wrap (bits x : Z) : Z := x mod 2 ^ bits.
Definition uint16 : Z → Z := wrap 16.
Definition uint32 : Z → Z := wrap 32.

(** The width of [std::uint_fast16_t], the type of [Work::refcount], is left
    to the platform: at least 16 bits. *)
Class Platform := {
  fast16_bits : Z;
  fast16_bits_ge : 16 ≤ fast16_bits
}.

(** The type [RET]/[INPUTS] of the values that flow through the graph comes
    with its [operator!=]. *)
Class NotEqual (V : Type) := not_equal : V → V → bool.

Module flags.
(** The lock bit in a Work's next pointer. *)
Definition LOCK : Z := 1.
End flags.

(** ** Outcome of a run *)

Inductive Result (A : Type) : Type :=
  | Ok (a : A)
  | Undefined
  | Timeout.
Arguments Ok {A} a.
Arguments Undefined {A}.
Arguments Timeout {A}.

Section Model.
Context {V : Type} {Vne : NotEqual V} {P : Platform}.

(** ** Data model *)

(** [Value<VAL>]: one atomically accessed cell. *)
Record Value := { val : V }.

(** [Value::store] *)
Definition Value_store (v : V) (c : Value) : Value := {| val := v |}.
(** [Value::read] *)
Definition Value_read (c : Value) : V := val c.
(** [Value::exchange]: the previous content and the updated cell. *)
Definition Value_exchange (other : V) (c : Value) : V * Value :=
  (val c, {| val := other |}).

(** A [Value<T> *]: either the [n]-th element of the [inputs] tuple of the
    Node at address [node], or a cell owned by the caller. *)
Inductive ValuePtr :=
  | InputSlot (node : Z) (n : nat)
  | Cell (addr : Z).

#[export] Instance ValuePtr_eq_dec : EqDecision ValuePtr.
Proof. solve_decision. Defined.

(** [Input<INPUT>]: [in] and the (possibly null) [intrusive_ptr<Work> ref]. *)
Record Input := { in_ : ValuePtr; ref : option Z }.

(** [Input::operator==]: identity of the Value pointed to. *)
Definition Input_eq (a b : Input) : bool := bool_decide (in_ a = in_ b).

(** The propagation policies [Always] and [OnChange] with their state. *)
Inductive Propagate :=
  | Always
  | OnChange (last : Value).

(** [PROPAGATE<RET>::operator()]: the answer and the policy's next state. *)
Definition Propagate_call (p : Propagate) (latest : V) : bool * Propagate :=
  match p with
  | Always => (true, Always)
  | OnChange last =>
      let '(previous, last') := Value_exchange latest last in
      (not_equal previous latest, OnChange last')
  end.

Record Node := {
  fn : list V → V;
  inputs : list Value;
  dependents : list Input;
  propagate : Propagate
}.

(** The two classes derived from [Work]. *)
Inductive WorkKind :=
  | Tombstone
  | NodeOf (n : Node).

Record Work := {
  id : Z;          (* const uint32_t *)
  refcount : Z;    (* std::atomic_uint_fast16_t *)
  next : Z;        (* std::atomic<std::uintptr_t>: queue pointer | LOCK *)
  kind : WorkKind
}.

Record Stats := {
  queued : Z;
  worked : Z;
  duplicates : Z;
  pushed_graph : Z;
  pushed_heap : Z
}.

Definition EmptyStats : Stats :=
  {| queued := 0; worked := 0; duplicates := 0;
     pushed_graph := 0; pushed_heap := 0 |}.

(** [Graph]: [tombstone] is the address of the embedded Tombstone. *)
Record Graph := {
  ids : Z;
  work_queue : Z;
  tombstone : Z
}.

(** The store: the Works by address, the caller-owned Value cells by
    address, the Graph, the oracle of spurious compare-exchange failures and
    the log of [eval] invocations (address and id of the Work). *)
Record State := {
  works : gmap Z Work;
  cells : gmap Z Value;
  graph : Graph;
  spurious : list bool;
  evals : list (Z * Z)
}.

(** [WorkState]: the heap [q] holds each [Work *] next to the id the
    comparator [WorkQueueCmp] reads through it, smallest id first. *)
Record WorkState := {
  q : list (Z * Z);
  stats : option Stats;   (* [None] is the null pointer *)
  current_id : Z
}.

(** ** Field updates *)

Definition with_refcount (r : Z) (w : Work) : Work :=
  {| id := id w; refcount := r; next := next w; kind := kind w |}.
Definition with_next (n : Z) (w : Work) : Work :=
  {| id := id w; refcount := refcount w; next := n; kind := kind w |}.
Definition with_kind (k : WorkKind) (w : Work) : Work :=
  {| id := id w; refcount := refcount w; next := next w; kind := k |}.

Definition with_inputs (l : list Value) (n : Node) : Node :=
  {| fn := fn n; inputs := l; dependents := dependents n;
     propagate := propagate n |}.
Definition with_dependents (l : list Input) (n : Node) : Node :=
  {| fn := fn n; inputs := inputs n; dependents := l;
     propagate := propagate n |}.
Definition with_propagate (p : Propagate) (n : Node) : Node :=
  {| fn := fn n; inputs := inputs n; dependents := dependents n;
     propagate := p |}.

Definition with_works (m : gmap Z Work) (s : State) : State :=
  {| works := m; cells := cells s; graph := graph s;
     spurious := spurious s; evals := evals s |}.
Definition with_cells (m : gmap Z Value) (s : State) : State :=
  {| works := works s; cells := m; graph := graph s;
     spurious := spurious s; evals := evals s |}.
Definition with_work_queue (h : Z) (s : State) : State :=
  {| works := works s; cells := cells s;
     graph := {| ids := ids (graph s); work_queue := h;
                 tombstone := tombstone (graph s) |};
     spurious := spurious s; evals := evals s |}.
Definition with_spurious (l : list bool) (s : State) : State :=
  {| works := works s; cells := cells s; graph := graph s;
     spurious := l; evals := evals s |}.
Definition with_evals (l : list (Z * Z)) (s : State) : State :=
  {| works := works s; cells := cells s; graph := graph s;
     spurious := spurious s; evals := l |}.

Definition with_q (l : list (Z * Z)) (ws : WorkState) : WorkState :=
  {| q := l; stats := stats ws; current_id := current_id ws |}.
Definition with_stats (st : option Stats) (ws : WorkState) : WorkState :=
  {| q := q ws; stats := st; current_id := current_id ws |}.
Definition with_current_id (i : Z) (ws : WorkState) : WorkState :=
  {| q := q ws; stats := stats ws; current_id := i |}.

(** [if (stats) stats->field++] for each field. *)
Definition incr_queued (st : option Stats) : option Stats :=
  (λ t, {| queued := uint16 (queued t + 1); worked := worked t;
           duplicates := duplicates t; pushed_graph := pushed_graph t;
           pushed_heap := pushed_heap t |}) <$> st.
Definition incr_worked (st : option Stats) : option Stats :=
  (λ t, {| queued := queued t; worked := uint16 (worked t + 1);
           duplicates := duplicates t; pushed_graph := pushed_graph t;
           pushed_heap := pushed_heap t |}) <$> st.
Definition incr_duplicates (st : option Stats) : option Stats :=
  (λ t, {| queued := queued t; worked := worked t;
           duplicates := uint16 (duplicates t + 1);
           pushed_graph := pushed_graph t;
           pushed_heap := pushed_heap t |}) <$> st.
Definition incr_pushed_graph (st : option Stats) : option Stats :=
  (λ t, {| queued := queued t; worked := worked t;
           duplicates := duplicates t;
           pushed_graph := uint16 (pushed_graph t + 1);
           pushed_heap := pushed_heap t |}) <$> st.
Definition incr_pushed_heap (st : option Stats) : option Stats :=
  (λ t, {| queued := queued t; worked := worked t;
           duplicates := duplicates t; pushed_graph := pushed_graph t;
           pushed_heap := uint16 (pushed_heap t + 1) |}) <$> st.

(** ** The monad of runs *)

Definition M (A : Type) : Type := State → Result (A * State).

#[export] Instance M_ret : MRet M := λ A a s, Ok (a, s).
#[export] Instance M_bind : MBind M := λ A B f m s,
  match m s with
  | Ok (a, s') => f a s'
  | Undefined => Undefined
  | Timeout => Timeout
  end.

Definition undefined {A} : M A := λ _, Undefined.
Definition timeout {A} : M A := λ _, Timeout.
Definition gets {A} (f : State → A) : M A := λ s, Ok (f s, s).
Definition modify (f : State → State) : M unit := λ s, Ok (tt, f s).

(** [*w] for a [Work *w] *)
Definition get_work (a : Z) : M Work := λ s,
  match works s !! a with
  | Some w => Ok (w, s)
  | None => Undefined
  end.
Definition put_work (a : Z) (w : Work) : M unit :=
  modify (λ s, with_works (<[a:=w]> (works s)) s).
Definition delete_work (a : Z) : M unit :=
  modify (λ s, with_works (delete a (works s)) s).

(** The Node behind a [Work *] known to point to one. *)
Definition get_node (a : Z) : M Node :=
  w ← get_work a;
  match kind w with
  | NodeOf n => mret n
  | Tombstone => undefined
  end.
Definition put_node (a : Z) (n : Node) : M unit :=
  w ← get_work a; put_work a (with_kind (NodeOf n) w).

(** ** Value access through a pointer *)

(** [p->store(v)] *)
Definition store_at (p : ValuePtr) (v : V) : M unit :=
  match p with
  | InputSlot a n =>
      nd ← get_node a;
      match inputs nd !! n with
      | Some c => put_node a (with_inputs (<[n:=Value_store v c]> (inputs nd)) nd)
      | None => undefined
      end
  | Cell a => λ s,
      match cells s !! a with
      | Some c => Ok (tt, with_cells (<[a:=Value_store v c]> (cells s)) s)
      | None => Undefined
      end
  end.

(** [p->read()] *)
Definition read_at (p : ValuePtr) : M V :=
  match p with
  | InputSlot a n =>
      nd ← get_node a;
      match inputs nd !! n with
      | Some c => mret (Value_read c)
      | None => undefined
      end
  | Cell a => λ s,
      match cells s !! a with
      | Some c => Ok (Value_read c, s)
      | None => Undefined
      end
  end.

(** ** Work: the lock bit and the queue pointer *)

(** [Work::readnext] *)
Definition readnext (a : Z) : M Z :=
  w ← get_work a;
  mret (Z.land (next w) (Z.lnot flags.LOCK)).

(** [Work::trylock]: [true] when the lock was acquired. *)
Definition trylock (a : Z) : M bool :=
  w ← get_work a;
  put_work a (with_next (Z.lor (next w) flags.LOCK) w);;
  let waslocked := negb (Z.land (next w) flags.LOCK =? 0) in
  mret (negb waslocked).

(** [Work::release] *)
Definition release (a : Z) : M unit :=
  w ← get_work a;
  put_work a (with_next (Z.land (next w) (Z.lnot flags.LOCK)) w).

(** [Work::trylock_and_dequeue] *)
Definition trylock_and_dequeue (a : Z) : M bool :=
  w ← get_work a;
  put_work a (with_next flags.LOCK w);;
  let waslocked := negb (Z.land (next w) flags.LOCK =? 0) in
  mret (negb waslocked).

(** ** Reference counting *)

(** [intrusive_ptr_add_ref] *)
Definition intrusive_ptr_add_ref (a : Z) : M unit :=
  w ← get_work a;
  put_work a (with_refcount (wrap fast16_bits (refcount w + 1)) w).

(** The destructor of a [forward_list<Input>]: each element gives up its
    [ref]. *)
Fixpoint destroy_inputs (rel : Z → M unit) (l : list Input) : M unit :=
  match l with
  | [] => mret tt
  | i :: l' =>
      match ref i with
      | Some r => rel r
      | None => mret tt
      end;;
      destroy_inputs rel l'
  end.

(** [intrusive_ptr_release], with [delete w] spelled out: the Work leaves the
    store and the destructors of its members run.  [n] bounds the nesting of
    destructors. *)
Fixpoint release_rec (n : nat) (a : Z) : M unit :=
  match n with
  | O => timeout
  | S n' =>
      w ← get_work a;
      let r := wrap fast16_bits (refcount w - 1) in
      if r =? 0 then
        delete_work a;;
        match kind w with
        | NodeOf nd => destroy_inputs (release_rec n') (dependents nd)
        | Tombstone => mret tt
        end
      else put_work a (with_refcount r w)
  end.

(** Every nested destructor takes one more Work out of the store. *)
Definition intrusive_ptr_release (a : Z) : M unit := λ s,
  release_rec (S (size (works s))) a s.

(** ** Scheduling *)

(** The next answer of the oracle: does this weak compare-exchange fail
    although the expected value is there? *)
Definition spurious_failure : M bool := λ s,
  match spurious s with
  | [] => Ok (false, s)
  | b :: l => Ok (b, with_spurious l s)
  end.

(** [next.compare_exchange_weak(expected, desired)] on the Work at [a] *)
Definition next_compare_exchange_weak (a expected desired : Z) : M bool :=
  w ← get_work a;
  if next w =? expected then
    fails ← spurious_failure;
    if (fails : bool) then mret false
    else put_work a (with_next desired w);; mret true
  else mret false.

(** [g.work_queue.compare_exchange_weak(expected, desired)] *)
Definition work_queue_compare_exchange_weak (expected desired : Z) : M bool :=
  h ← gets (λ s, work_queue (graph s));
  if h =? expected then
    fails ← spurious_failure;
    if (fails : bool) then mret false
    else modify (with_work_queue desired);; mret true
  else mret false.

(** The [while (true)] loop of [Work::schedule]. *)
Fixpoint schedule_loop (n : nat) (this : Z) (first_time : bool) : M unit :=
  match n with
  | O => timeout
  | S n' =>
      w ← get_work this;
      let current := next w in
      let locked := Z.land current flags.LOCK in
      if first_time && negb (Z.land current (Z.lnot flags.LOCK) =? 0) then
        (* we're already on the work queue *)
        intrusive_ptr_release this
      else
        head ← gets (λ s, work_queue (graph s));
        swapped ← next_compare_exchange_weak this current (Z.lor head locked);
        if negb swapped then schedule_loop n' this first_time
        else
          pushed ← work_queue_compare_exchange_weak head this;
          if (pushed : bool) then mret tt
          else schedule_loop n' this false
  end.

(** [Work::schedule].  Each retry of the loop uses up an answer of the
    oracle, so the loop gets one round more than the oracle has answers. *)
Definition schedule (this : Z) : M unit :=
  intrusive_ptr_add_ref this;;
  oracle ← gets spurious;
  schedule_loop (S (length oracle)) this true.

(** [Input::append] *)
Definition Input_append (i : Input) (v : V) : M unit :=
  store_at (in_ i) v;;
  match ref i with
  | Some r => schedule r
  | None => mret tt
  end.

(** ** The heap of a pass *)

(** [q.push]: after the entries whose id is not greater. *)
Fixpoint pq_push (e : Z * Z) (l : list (Z * Z)) : list (Z * Z) :=
  match l with
  | [] => [e]
  | e' :: l' => if e.1 <? e'.1 then e :: l else e' :: pq_push e l'
  end.

(** [WorkState::add_to_queue] *)
Definition add_to_queue (a : Z) (ws : WorkState) : M WorkState :=
  work ← get_work a;
  if id work <=? current_id ws then
    (* process it next Graph() *)
    schedule a;;
    mret (with_stats (incr_pushed_graph (stats ws)) ws)
  else
    intrusive_ptr_add_ref a;;
    mret (with_stats (incr_pushed_heap (stats ws))
            (with_q (pq_push (id work, a) (q ws)) ws)).

(** ** Node *)

(** The spin loops of [connect] and [disconnect]:
    [while (!trylock()) yield]. *)
Fixpoint spin_trylock (n : nat) (a : Z) : M unit :=
  match n with
  | O => timeout
  | S n' =>
      acquired ← trylock a;
      if (acquired : bool) then mret tt else spin_trylock n' a
  end.

(** [Node::connect]: [dependents.push_front(a)] under the lock.  The copy
    of [a] kept in the list holds a reference of its own. *)
Definition Node_connect (n : nat) (this : Z) (a : Input) : M unit :=
  spin_trylock n this;;
  nd ← get_node this;
  match ref a with
  | Some r => intrusive_ptr_add_ref r
  | None => mret tt
  end;;
  put_node this (with_dependents (a :: dependents nd) nd);;
  release this.

(** [std::forward_list::remove]: every element equal to [a] goes. *)
Definition forward_list_remove (a : Input) (l : list Input) : list Input :=
  filter (λ b, Input_eq b a = false) l.

(** [Node::disconnect]; the removed elements are destroyed. *)
Definition Node_disconnect (n : nat) (this : Z) (a : Input) : M unit :=
  spin_trylock n this;;
  nd ← get_node this;
  put_node this (with_dependents (forward_list_remove a (dependents nd)) nd);;
  destroy_inputs intrusive_ptr_release
    (filter (λ b, Input_eq b a = true) (dependents nd));;
  release this.

(** [Connectable<RET> *]: a Node or a Constant. *)
Inductive Connectable :=
  | ConnectNode (a : Z)
  | ConnectConstant (value : V).

(** [Constant::connect]: the value goes to the Input at once. *)
Definition Constant_connect (value : V) (i : Input) : M unit :=
  store_at (in_ i) value.

(** [Constant::disconnect] has no effect. *)
Definition Constant_disconnect (value : V) (i : Input) : M unit := mret tt.

(** The helper [connect(to, from)] with a possibly null [to]. *)
Definition connect (n : nat) (to : option Connectable) (from : Input) : M unit :=
  match to with
  | Some (ConnectNode a) => Node_connect n a from
  | Some (ConnectConstant value) => Constant_connect value from
  | None => mret tt
  end.

(** [Node::input<N>] *)
Definition Node_input (this : Z) (n : nat) : Input :=
  {| in_ := InputSlot this n; ref := Some this |}.

(** [Graph::connectall] *)
Fixpoint connectall (n : nat) (tos : list (option Connectable))
    (froms : list Input) : M unit :=
  match tos, froms with
  | to :: tos', from :: froms' => connect n to from;; connectall n tos' froms'
  | _, _ => mret tt
  end.

(** [NodeBuilder::connect].  [this] is the address [new] returns, [policy]
    the value-initialised [PROPAGATE<RET>] and [init] the value-initialised
    inputs, one per argument.  The answer is the [intrusive_ptr] to the new
    Node. *)
Definition NodeBuilder_connect (n : nat) (this : Z) (policy : Propagate)
    (f : list V → V) (init : list V) (args : list (option Connectable)) : M Z :=
  fresh ← gets (λ s, works s !! this);
  match fresh with
  | Some _ => undefined
  | None =>
      i ← gets (λ s, ids (graph s));
      modify (λ s, {| works := works s; cells := cells s;
                      graph := {| ids := uint32 (i + 1);
                                  work_queue := work_queue (graph s);
                                  tombstone := tombstone (graph s) |};
                      spurious := spurious s; evals := evals s |});;
      put_work this
        {| id := i; refcount := 0; next := 0;
           kind := NodeOf {| fn := f; inputs := (λ v, {| val := v |}) <$> init;
                             dependents := []; propagate := policy |} |};;
      intrusive_ptr_add_ref this;;
      connectall n args (Node_input this <$> seq 0 (length init));;
      schedule this;;
      mret this
  end.

(** [Node::call_fn] *)
Definition call_fn (nd : Node) : V := fn nd (Value_read <$> inputs nd).

(** The loop of [Node::eval] over the dependents. *)
Fixpoint notify (deps : list Input) (v : V) (ws : WorkState) : M WorkState :=
  match deps with
  | [] => mret ws
  | dependent :: rest =>
      store_at (in_ dependent) v;;
      ws' ← match ref dependent with
            | Some r => add_to_queue r ws
            | None => mret ws
            end;
      notify rest v ws'
  end.

(** [Node::eval] *)
Definition Node_eval (this : Z) (ws : WorkState) : M WorkState :=
  acquired ← trylock_and_dequeue this;
  if negb acquired then
    (* another calculation in progress, so put us on the work queue *)
    add_to_queue this ws
  else
    nd ← get_node this;
    let v := call_fn nd in
    let '(fire, policy) := Propagate_call (propagate nd) v in
    put_node this (with_propagate policy nd);;
    ws' ← (if fire then notify (dependents nd) v ws else mret ws);
    release this;;
    mret ws'.

(** The virtual [Work::eval]; [Tombstone::eval] aborts. *)
Definition Work_eval (a : Z) (ws : WorkState) : M WorkState :=
  w ← get_work a;
  match kind w with
  | NodeOf _ => Node_eval a ws
  | Tombstone => undefined
  end.

(** ** The evaluation pass *)

(** [for (auto w = head; w != &tombstone; w = w->readnext())] *)
Fixpoint drain (n : nat) (w : Z) (ws : WorkState) : M WorkState :=
  match n with
  | O => timeout
  | S n' =>
      t ← gets (λ s, tombstone (graph s));
      if w =? t then mret ws
      else
        work ← get_work w;
        let ws' := with_stats (incr_queued (stats ws))
                     (with_q (pq_push (id work, w) (q ws)) ws) in
        nxt ← readnext w;
        drain n' nxt ws'
  end.

(** [while (!work.q.empty() && work.q.top()->id == w->id)]: the entries are
    released and popped. *)
Fixpoint drop_duplicates (i : Z) (st : option Stats) (l : list (Z * Z))
  : M (option Stats * list (Z * Z)) :=
  match l with
  | (i', a) :: l' =>
      if i' =? i then
        intrusive_ptr_release a;;
        drop_duplicates i (incr_duplicates st) l'
      else mret (st, l)
  | [] => mret (st, l)
  end.

(** The eval log gets the Work about to be evaluated. *)
Definition log_eval (a i : Z) : M unit :=
  modify (λ s, with_evals (evals s ++ [(a, i)]) s).

(** [while (!work.q.empty())] *)
Fixpoint run_heap (n : nat) (ws : WorkState) : M WorkState :=
  match n with
  | O => timeout
  | S n' =>
      match q ws with
      | [] => mret ws
      | (_, w) :: rest =>
          work ← get_work w;
          '(st, rest') ← drop_duplicates (id work) (stats ws) rest;
          let ws1 := {| q := rest'; stats := st; current_id := id work |} in
          log_eval w (id work);;
          ws2 ← Work_eval w ws1;
          let ws3 := with_stats (incr_worked (stats ws2)) ws2 in
          intrusive_ptr_release w;;
          run_heap n' ws3
      end
  end.

(** [Graph::operator()]: the answer and the caller's Stats. *)
Definition evaluate (n : nat) (st : option Stats) : M (bool * option Stats) :=
  let st := (λ _, EmptyStats) <$> st in
  t ← gets (λ s, tombstone (graph s));
  head ← gets (λ s, work_queue (graph s));
  modify (with_work_queue t);;
  if head =? t then mret (false, st)
  else
    let work := {| q := []; stats := st; current_id := 0 |} in
    work ← drain n head work;
    work ← run_heap n work;
    mret (true, stats work).

(** The inner loop of [evaluate_repeatedly]: [while (g()) {}]. *)
Fixpoint evaluate_until_idle (n : nat) : M unit :=
  match n with
  | O => timeout
  | S n' =>
      '(worked, _) ← evaluate n' None;
      if (worked : bool) then evaluate_until_idle n' else mret tt
  end.

(** [evaluate_repeatedly].  The flag [stop] is written by other threads:
    [stop k] is what the [k]-th load of it sees.
    [std::this_thread::yield] has no effect on the store. *)
Fixpoint evaluate_repeatedly (n : nat) (stop : nat → bool) : M unit :=
  match n with
  | O => timeout
  | S n' =>
      if stop O then mret tt
      else
        evaluate_until_idle n';;
        evaluate_repeatedly n' (λ k, stop (S k))
  end.

End Model.

(** ** The graphs of the test suite *)

Module Examples.

(** [uint_fast16_t] of glibc on x86-64. *)
#[export] Instance glibc_x86_64 : Platform.
Proof. refine {| fast16_bits := 64 |}. lia. Defined.

(** [int] values; [bool] results are 0 and 1. *)
#[export] Instance int_ne : NotEqual Z := λ a b, negb (a =? b).

Definition plus (l : list Z) : Z := foldr Z.add 0 l.
Definition identity (l : list Z) : Z := default 0 (head l).
Definition less (l : list Z) : Z :=
  match l with
  | [a; b] => if a <? b then 1 else 0
  | _ => 0
  end.

(** A fresh [Graph] whose Tombstone lives at address 16, next to the
    caller's [Value] cells at the given addresses. *)
Definition new_graph (sinks : list Z) : State (V:=Z) :=
  {| works := {[ 16 := {| id := 0; refcount := 0; next := 0;
                          kind := Tombstone |} ]};
     cells := list_to_map ((λ a, (a, {| val := 0 |})) <$> sinks);
     graph := {| ids := 1; work_queue := 16; tombstone := 16 |};
     spurious := [];
     evals := [] |}.

(** An [Input] to a [Value] of the caller: no Work behind it. *)
Definition sink (c : Z) : Input := {| in_ := Cell c; ref := None |}.

Definition zero : Value (V:=Z) := {| val := 0 |}.

(** The state a run ends in (the initial one when it does not end). *)
Definition exec {A} (m : M (V:=Z) A) (s : State (V:=Z)) : State (V:=Z) :=
  match m s with
  | Ok (_, s') => s'
  | _ => s
  end.

(** [testSingleNode]: one Node [plus] at address 32, its result in the
    cell 8. *)
Definition single_node : State (V:=Z) :=
  exec (NodeBuilder_connect 1 32 Always plus [0; 0] [None; None];;
        Input_append (Node_input 32 0) 1;;
        Input_append (Node_input 32 1) 2;;
        Node_connect 1 32 (sink 8))
       (new_graph [8]).

(** [testCircular]: the result of the Node feeds its second input. *)
Definition circular : State (V:=Z) :=
  exec (NodeBuilder_connect 1 32 Always plus [0; 0] [None; None];;
        Input_append (Node_input 32 0) 1;;
        Node_connect 1 32 (Node_input 32 1);;
        Node_connect 1 32 (sink 8))
       (new_graph [8]).

(** [testChain]: two identity Nodes feed a comparison. *)
Definition chain_graph : State (V:=Z) :=
  exec (NodeBuilder_connect 1 32 Always identity [0] [None];;
        NodeBuilder_connect 1 48 Always identity [0] [None];;
        NodeBuilder_connect 1 64 Always less [0; 0]
          [Some (ConnectNode 32); Some (ConnectNode 48)];;
        Node_connect 1 64 (sink 8);;
        Input_append (Node_input 32 0) 1;;
        Input_append (Node_input 48 0) 2)
       (new_graph [8]).

(** [testUpdatePolicy]: a source at 32 feeds an [Always] chain (48, 64,
    cell 8) and an [OnChange] chain (80, 96, cell 24). *)
Definition update_policy : State (V:=Z) :=
  exec (NodeBuilder_connect 1 32 Always identity [0] [None];;
        NodeBuilder_connect 1 48 Always identity [0] [Some (ConnectNode 32)];;
        NodeBuilder_connect 1 64 Always identity [0] [Some (ConnectNode 48)];;
        Node_connect 1 64 (sink 8);;
        NodeBuilder_connect 1 80 (OnChange zero) identity [0]
          [Some (ConnectNode 32)];;
        NodeBuilder_connect 1 96 Always identity [0] [Some (ConnectNode 80)];;
        Node_connect 1 96 (sink 24);;
        Input_append (Node_input 32 0) 1)
       (new_graph [8; 24]).

(** The Work at an address of a store known to hold one. *)
Definition work_at (s : State (V:=Z)) (a : Z) : Work (V:=Z) :=
  default {| id := 0; refcount := 0; next := 0; kind := Tombstone |}
          (works s !! a).

(** The Node at an address of a store known to hold one. *)
Definition node_at (s : State (V:=Z)) (a : Z) : Node (V:=Z) :=
  match kind (work_at s a) with
  | NodeOf nd => nd
  | Tombstone => {| fn := plus; inputs := []; dependents := [];
                    propagate := Always |}
  end.

(** [update_policy] after its first pass. *)
Definition update_policy_evaluated : State (V:=Z) :=
  exec (evaluate 9 None) update_policy.

(** [single_node] after its first pass. *)
Definition single_node_evaluated : State (V:=Z) :=
  exec (evaluate 9 None) single_node.

(** [single_node] while another thread holds the flag of the Node. *)
Definition single_node_locked : State (V:=Z) :=
  exec (trylock 32) single_node.



(** [chain_graph] after its first pass. *)
Definition chain_graph_evaluated : State (V:=Z) :=
  exec (evaluate 9 None) chain_graph.

(** The first two Nodes of [chain_graph]. *)
Definition two_nodes : State (V:=Z) :=
  exec (NodeBuilder_connect 1 32 Always identity [0] [None];;
        NodeBuilder_connect 1 48 Always identity [0] [None])
       (new_graph [8]).

(** [two_nodes] with the comparison built on top. *)
Definition three_nodes : State (V:=Z) :=
  exec (NodeBuilder_connect 1 64 Always less [0; 0]
          [Some (ConnectNode 32); Some (ConnectNode 48)])
       two_nodes.

(** The flag [stop] set between its second and its third load. *)
Definition stop_after_two (k : nat) : bool := (2 <=? k)%nat.

(** [update_policy] after its first pass, with a [Constant] then connected
    to the input of the [OnChange] Node at 80. *)
Definition update_policy_constant : State (V:=Z) :=
  exec (connect 1 (Some (ConnectConstant 7)) (Node_input 80 0))
       update_policy_evaluated.

End Examples.

(** * Specification

    The predicates the properties are stated with. *)

Section Specification.
Context {V : Type} {Vne : NotEqual V} {P : Platform}.

Implicit Types (s : State (V:=V)) (w : Work (V:=V)) (nd : Node (V:=V)).
Implicit Types (ws : WorkState) (a : Z).

(** Bit 0 of the address of a Work is free. *)
Definition aligned (a : Z) : Prop := Z.land a flags.LOCK = 0.

(** The queue-pointer bits of a [next] word. *)
Definition pointer_bits (n : Z) : Z := Z.land n (Z.lnot flags.LOCK).

(** The lock bit of a [next] word. *)
Definition lock_bit (n : Z) : Z := Z.land n flags.LOCK.

(** Updating a Work in place. *)
Definition set_work a w s : State := with_works (<[a:=w]> (works s)) s.

(** The parts of a Work that no operation of a pass writes: its id, its
    class, and for a Node its function, its dependents and the number of its
    inputs. *)
Definition same_shape (k k' : WorkKind (V:=V)) : Prop :=
  match k, k' with
  | Tombstone, Tombstone => True
  | NodeOf n, NodeOf n' =>
      fn n' = fn n ∧ dependents n' = dependents n ∧
      length (inputs n') = length (inputs n)
  | _, _ => False
  end.

Definition static w w' : Prop := id w' = id w ∧ same_shape (kind w) (kind w').

(** [s'] comes after [s]: Works may have been destroyed, those that
    remain have kept their static parts; the eval log is the same. *)
Record evolves s s' : Prop := {
  evolves_evals : evals s' = evals s;
  evolves_tombstone : tombstone (graph s') = tombstone (graph s);
  evolves_works : ∀ a w',
    works s' !! a = Some w' → ∃ w, works s !! a = Some w ∧ static w w'
}.

(** As [evolves], and nothing was scheduled, locked or unlocked. *)
Record quiet s s' : Prop := {
  quiet_evolves : evolves s s';
  quiet_graph : graph s' = graph s;
  quiet_spurious : spurious s' = spurious s;
  quiet_next : ∀ a w w',
    works s !! a = Some w → works s' !! a = Some w' → next w' = next w
}.

(** The state after the Work [w] at [a] went onto the intake queue whose
    head was [h]; [l] is what is left of the oracle. *)
Definition enqueued a w h (l : list bool) s : State :=
  {| works := <[a:=with_next (Z.lor h (lock_bit (next w))) w]> (works s);
     cells := cells s;
     graph := {| ids := ids (graph s); work_queue := a;
                 tombstone := tombstone (graph s) |};
     spurious := l;
     evals := evals s |}.

Definition total {A} (m : M A) : Prop := ∀ s, m s ≠ Timeout.

Definition key_le (e e' : Z * Z) : Prop := e.1 ≤ e'.1.

(** The heap is ordered by id, every id on it lies strictly between [lo]
    and [hi], it is the id of the Work the entry points to, and no id of
    the store reaches [hi]. *)
Record heap_inv (lo hi : Z) s (l : list (Z * Z)) : Prop := {
  heap_sorted : StronglySorted key_le l;
  heap_keys : Forall (λ e, lo < e.1 < hi ∧
                           ∀ w, works s !! e.2 = Some w → id w = e.1) l;
  heap_ids : ∀ a w, works s !! a = Some w → id w < hi
}.

(** The Works of [s'] are Works of [s] with the same static parts. *)
Definition survivors s s' : Prop :=
  ∀ a w', works s' !! a = Some w' → ∃ w, works s !! a = Some w ∧ static w w'.

(** Releasing every Work of a list in turn. *)
Fixpoint release_all (l : list Z) : M (V:=V) unit :=
  match l with
  | [] => mret tt
  | a :: l' => intrusive_ptr_release a;; release_all l'
  end.

(** The Works linked from [h] up to the Tombstone are those of [l]. *)
Fixpoint chain s (h : Z) (l : list Z) : Prop :=
  match l with
  | [] => h = tombstone (graph s)
  | a :: l' =>
      h = a ∧ a ≠ tombstone (graph s) ∧
      ∃ w, works s !! a = Some w ∧ chain s (pointer_bits (next w)) l'
  end.

(** The WorkState after the Works of [l] went onto the heap. *)
Fixpoint drained s (l : list Z) ws : WorkState :=
  match l with
  | [] => ws
  | a :: l' =>
      match works s !! a with
      | Some w =>
          drained s l'
            (with_stats (incr_queued (stats ws))
               (with_q (pq_push (id w, a) (q ws)) ws))
      | None => ws
      end
  end.

(** Every dependent Work has a greater id than the Node it hangs off. *)
Definition topological s : Prop :=
  ∀ a w nd i r wr,
    works s !! a = Some w → kind w = NodeOf nd →
    i ∈ dependents nd → ref i = Some r →
    works s !! r = Some wr → id w < id wr.

(** No exclusion flag is held. *)
Definition unlocked s : Prop :=
  ∀ a w, works s !! a = Some w → lock_bit (next w) = 0.

(** A test on every Work of the store. *)
Definition check_works (f : Z → Work (V:=V) → bool) s : bool :=
  forallb (λ e, f e.1 e.2) (map_to_list (works s)).

Definition unlocked_b (a : Z) w : bool := lock_bit (next w) =? 0.

Definition topological_b s (a : Z) w : bool :=
  match kind w with
  | NodeOf nd =>
      forallb (λ i, match ref i with
                    | Some r =>
                        match works s !! r with
                        | Some wr => id w <? id wr
                        | None => true
                        end
                    | None => true
                    end) (dependents nd)
  | Tombstone => true
  end.

Definition is_node s a : Prop :=
  ∃ w nd, works s !! a = Some w ∧ kind w = NodeOf nd.

(** The Value a pointer aims at exists. *)
Definition valid_ptr s (p : ValuePtr) : Prop :=
  match p with
  | InputSlot b k =>
      ∃ w nd, works s !! b = Some w ∧ kind w = NodeOf nd ∧
              (k < length (inputs nd))%nat
  | Cell c => is_Some (cells s !! c)
  end.

Definition valid_input s (i : Input) : Prop :=
  valid_ptr s (in_ i) ∧ ∀ r, ref i = Some r → is_node s r.

(** Every dependent of every Node points into the store. *)
Definition closed s : Prop :=
  ∀ a w nd, works s !! a = Some w → kind w = NodeOf nd →
            Forall (valid_input s) (dependents nd).

(** How often [a] occurs in [l]. *)
Definition occ (a : Z) (l : list Z) : Z :=
  Z.of_nat (length (filter (λ b, b = a) l)).

(** [s'] comes after [s] and has lost nothing: the Works and the cells
    are still there. *)
Record holds s s' : Prop := {
  holds_survivors : survivors s s';
  holds_works : ∀ a w,
    works s !! a = Some w → ∃ w', works s' !! a = Some w' ∧ static w w';
  holds_cells : ∀ c, is_Some (cells s !! c) → is_Some (cells s' !! c)
}.

(** As [holds], with the reference counts and the queue head as before. *)
Record keeps s s' : Prop := {
  keeps_holds : holds s s';
  keeps_refcount : ∀ a w w',
    works s !! a = Some w → works s' !! a = Some w' → refcount w' = refcount w;
  keeps_queue : work_queue (graph s') = work_queue (graph s)
}.

(** The invariant of a pass that destroys nothing.  [l] lists the Nodes
    with a reference held by the heap or by the evaluation loop, [B] bounds
    the references still to be taken. *)
Record safe_inv (B : Z) (l : list Z) s : Prop := {
  safe_closed : closed s;
  safe_aligned : ∀ a w, works s !! a = Some w → aligned a;
  safe_queue : aligned (work_queue (graph s));
  safe_counted : ∀ a w,
    works s !! a = Some w → kind w ≠ Tombstone →
    occ a l + 1 ≤ refcount w ∧ refcount w + B < 2 ^ fast16_bits
}.

Definition ndeps w : Z :=
  match kind w with
  | NodeOf nd => Z.of_nat (length (dependents nd))
  | Tombstone => 0
  end.

(** One reference per dependent, and one for a failed lock, for every Work
    of [s0] with an id above [c]. *)
Definition budget s0 (c : Z) : Z :=
  foldr (λ e acc, (if c <? id e.2 then ndeps e.2 + 1 else 0) + acc) 0
        (map_to_list (works s0)).

(** All the references a pass over [s] can take. *)
Definition total_budget s : Z :=
  foldr (λ e acc, ndeps e.2 + 1 + acc) 0 (map_to_list (works s)).

(** The intake queue links the Nodes of [l] up to the Tombstone; the
    dependents point into the store; addresses leave bit 0 free; and every
    Node is held by somebody besides the intake queue, with room in its
    reference count for the references a pass takes. *)
Record well_formed s (l : list Z) : Prop := {
  wf_chain : chain s (work_queue (graph s)) l;
  wf_nodes : Forall (is_node s) l;
  wf_tombstone : aligned (tombstone (graph s));
  wf_closed : closed s;
  wf_aligned : ∀ a w, works s !! a = Some w → aligned a;
  wf_refcount : ∀ a w,
    works s !! a = Some w → kind w ≠ Tombstone →
    occ a l + 1 ≤ refcount w ∧
    refcount w + total_budget s < 2 ^ fast16_bits
}.

Definition is_node_b s (a : Z) : bool :=
  match works s !! a with
  | Some w => match kind w with NodeOf _ => true | Tombstone => false end
  | None => false
  end.

Definition valid_ptr_b s (p : ValuePtr) : bool :=
  match p with
  | InputSlot b k =>
      match works s !! b with
      | Some w =>
          match kind w with
          | NodeOf nd => bool_decide (k < length (inputs nd))%nat
          | Tombstone => false
          end
      | None => false
      end
  | Cell c => match cells s !! c with Some _ => true | None => false end
  end.

Definition valid_input_b s (i : Input) : bool :=
  valid_ptr_b s (in_ i) &&
  match ref i with Some r => is_node_b s r | None => true end.

Definition closed_b s (a : Z) w : bool :=
  match kind w with
  | NodeOf nd => forallb (valid_input_b s) (dependents nd)
  | Tombstone => true
  end.

Definition aligned_b (a : Z) w : bool := Z.land a flags.LOCK =? 0.

Definition refcount_b s (l : list Z) (a : Z) w : bool :=
  match kind w with
  | NodeOf _ =>
      (occ a l + 1 <=? refcount w) &&
      (refcount w + total_budget s <? 2 ^ fast16_bits)
  | Tombstone => true
  end.

Definition well_formed_b s (l : list Z) : bool :=
  forallb (is_node_b s) l &&
  (Z.land (tombstone (graph s)) flags.LOCK =? 0) &&
  check_works (closed_b s) s &&
  check_works aligned_b s &&
  check_works (refcount_b s l) s.

(** The Stats after the given numbers of increments of each counter. *)
Definition tally (nq nw nx ng nh : Z) : Stats :=
  {| queued := uint16 nq; worked := uint16 nw; duplicates := uint16 nx;
     pushed_graph := uint16 ng; pushed_heap := uint16 nh |}.

(** What an operation of a pass does to the heap and to the counters: it
    pushes the entries [extra], counted in [pushed_heap], and schedules
    [kg] times, counted in [pushed_graph]. *)
Definition grows ws ws' (extra : list (Z * Z)) (kg : Z) : Prop :=
  0 ≤ kg ∧ q ws' ≡ₚ extra ++ q ws ∧
  ∀ nq nw nx ng nh,
    stats ws = Some (tally nq nw nx ng nh) →
    stats ws' = Some (tally nq nw nx (ng + kg)
                        (nh + Z.of_nat (length extra))).

(** The result of a run seen through [g]. *)
Definition seen {A B} (g : A → B) (r : Result (A * State (V:=V)))
  : Result (B * State (V:=V)) :=
  match r with
  | Ok (x, s) => Ok (g x, s)
  | Undefined => Undefined
  | Timeout => Timeout
  end.

(** A WorkState without its counters. *)
Definition heap_of (ws : WorkState) : list (Z * Z) * Z := (q ws, current_id ws).

(** Bit 0 is free in the address of every Work and in the head of the
    intake queue. *)
Definition aligned_store s : Prop :=
  aligned (work_queue (graph s)) ∧ ∀ a w, works s !! a = Some w → aligned a.

(** [s'] comes after [s], every Work that remains has its exclusion flag
    as before, and the addresses still leave bit 0 free. *)
Record steady s s' : Prop := {
  steady_evolves : evolves s s';
  steady_flags : ∀ a w w',
    works s !! a = Some w → works s' !! a = Some w' →
    lock_bit (next w') = lock_bit (next w);
  steady_aligned : aligned_store s'
}.

(** The Value [p] aims at holds [v]; for a slot of a Node, as long as the
    Node is there. *)
Definition holds_value s (p : ValuePtr) (v : V) : Prop :=
  match p with
  | InputSlot b k =>
      ∀ w, works s !! b = Some w →
           ∃ nd, kind w = NodeOf nd ∧ inputs nd !! k = Some {| val := v |}
  | Cell c => cells s !! c = Some {| val := v |}
  end.

(** [s'] comes after [s] with the cells and, in every Work that remains,
    the Node as they were: reference counts, [next] words and the queue
    head apart, nothing was written. *)
Record undisturbed s s' : Prop := {
  undisturbed_cells : cells s' = cells s;
  undisturbed_works : ∀ a w',
    works s' !! a = Some w' → ∃ w, works s !! a = Some w ∧ kind w' = kind w
}.

(** Every id of the store is below the next id the Graph hands out. *)
Definition ids_fresh s : Prop :=
  ∀ a w, works s !! a = Some w → id w < ids (graph s).

(** No two Works of the store share an id. *)
Definition unique_ids s : Prop :=
  ∀ a b wa wb,
    works s !! a = Some wa → works s !! b = Some wb → id wa = id wb → a = b.

(** [s'] comes after [s] while the Node at [this] is being built: the
    Graph hands out the same next id, the Works that remain have their
    ids, and the dependents of a Node are those it had or new ones that
    point to the Work at [this], a Node other than itself. *)
Record grown (this : Z) s s' : Prop := {
  grown_ids : ids (graph s') = ids (graph s);
  grown_works : ∀ a w',
    works s' !! a = Some w' →
    ∃ w, works s !! a = Some w ∧ id w' = id w ∧
         ∀ nd', kind w' = NodeOf nd' →
                ∃ nd, kind w = NodeOf nd ∧
                      ∀ d, d ∈ dependents nd' →
                           d ∈ dependents nd ∨ (ref d = Some this ∧ a ≠ this)
}.

(** The arguments of the builder are Connectables that exist already:
    none is the Node under construction. *)
Definition existing (this : Z) (to : option (Connectable (V:=V))) : Prop :=
  match to with
  | Some (ConnectNode a) => a ≠ this
  | _ => True
  end.

(** The inputs of a Node built from the value-initialised [init] once the
    constants of [args] are connected. *)
Definition initial_inputs (init : list V) (args : list (option V))
  : list (Value (V:=V)) :=
  zip_with (λ d c, {| val := default d c |}) init args.

(** The arguments of the builder that are constants ([Some]) or
    unconnected ([None]). *)
Definition constant_args (args : list (option V))
  : list (option (Connectable (V:=V))) :=
  (λ c : option V, ConnectConstant <$> c) <$> args.

(** Two Nodes with the same function, dependents and policy, and as many
    inputs. *)
Definition same_wiring (k k' : WorkKind (V:=V)) : Prop :=
  match k, k' with
  | Tombstone, Tombstone => True
  | NodeOf n, NodeOf n' =>
      fn n' = fn n ∧ dependents n' = dependents n ∧
      propagate n' = propagate n ∧ length (inputs n') = length (inputs n)
  | _, _ => False
  end.

(** [s'] comes after [s] with Values written through the pointers of [W]
    only: the Works that remain have their ids and their wiring, and a
    Value no pointer of [W] aims at holds what it held. *)
Record writes (W : ValuePtr → Prop) s s' : Prop := {
  writes_works : ∀ a w',
    works s' !! a = Some w' →
    ∃ w, works s !! a = Some w ∧ id w' = id w ∧ same_wiring (kind w) (kind w');
  writes_frame : ∀ p (x : V), ¬ W p → holds_value s p x → holds_value s' p x
}.

(** The dependents of the Node at [a], when its policy is [Always], hold
    the result of its function on its inputs. *)
Definition consistent_at s (a : Z) : Prop :=
  ∀ w nd, works s !! a = Some w → kind w = NodeOf nd →
          propagate nd = Always →
          ∀ d, d ∈ dependents nd → holds_value s (in_ d) (call_fn nd).

(** An Input to a slot of a Node holds a reference to that Node, as the
    Inputs [Node::input] makes do. *)
Definition proper s : Prop :=
  ∀ a w nd d b (k : nat),
    works s !! a = Some w → kind w = NodeOf nd → d ∈ dependents nd →
    in_ d = InputSlot b k → ref d = Some b.

(** No Value is fed by two Nodes. *)
Definition single_writer s : Prop :=
  ∀ a b wa wb nda ndb i d,
    works s !! a = Some wa → kind wa = NodeOf nda →
    works s !! b = Some wb → kind wb = NodeOf ndb →
    i ∈ dependents nda → d ∈ dependents ndb → in_ i = in_ d → a = b.

(** Boolean checks of the conditions above. *)
Definition ids_fresh_b s (a : Z) w : bool := id w <? ids (graph s).

Definition unique_ids_b s (a : Z) w : bool :=
  check_works (λ b wb, implb (id w =? id wb) (a =? b)) s.

Definition queued_b (l : list Z) (a : Z) w : bool :=
  (pointer_bits (next w) =? 0) || bool_decide (a ∈ l).

Definition proper_b (a : Z) w : bool :=
  match kind w with
  | NodeOf nd =>
      forallb (λ d, match in_ d with
                    | InputSlot b _ => bool_decide (ref d = Some b)
                    | Cell _ => true
                    end) (dependents nd)
  | Tombstone => true
  end.

Definition single_writer_b s (a : Z) w : bool :=
  check_works
    (λ b wb,
       match kind w, kind wb with
       | NodeOf nda, NodeOf ndb =>
           forallb (λ i, forallb (λ d, implb (bool_decide (in_ i = in_ d))
                                         (a =? b))
                           (dependents ndb))
                   (dependents nda)
       | _, _ => true
       end) s.

(** The references of [s'] beyond those the list [l'] stands for are the
    references of [s] beyond those of [l], Work by Work, in the arithmetic
    of the reference count. *)
Definition settled (l l' : list Z) s s' : Prop :=
  ∀ a w w', works s !! a = Some w → works s' !! a = Some w' →
    wrap fast16_bits (refcount w' - occ a l')
    = wrap fast16_bits (refcount w - occ a l).

(** The Works the Inputs of a list hold a reference to, one entry for each
    reference. *)
Definition held (l : list Input) : list Z := omap ref l.

End Specification.

(** * Properties *)

(** ** The lock bit and the queue pointer *)

Section Bits.

Lemma lock_bit_cases n : lock_bit n = 0 ∨ lock_bit n = 1.
Proof.
  unfold lock_bit, flags.LOCK.
  change (Z.land n 1) with (Z.land n (Z.ones 1)).
  rewrite Z.land_ones by lia. change (2 ^ 1) with 2.
  pose proof (Z.mod_pos_bound n 2). lia.
Qed.

Lemma testbit_0_lock_free n : Z.land n 1 = 0 → Z.testbit n 0 = false.
Proof.
  intros Hn. apply (f_equal (λ x, Z.testbit x 0)) in Hn.
  rewrite Z.land_spec in Hn.
  change (Z.testbit 1 0) with true in Hn.
  change (Z.testbit 0 0) with false in Hn.
  rewrite andb_true_r in Hn. exact Hn.
Qed.

Lemma testbit_LOCK_high i : 0 ≤ i → i ≠ 0 → Z.testbit 1 i = false.
Proof.
  intros Hi Hne. change 1 with (Z.ones 1). apply Z.ones_spec_high. lia.
Qed.

Lemma testbit_small_high l i :
  l = 0 ∨ l = 1 → 0 ≤ i → i ≠ 0 → Z.testbit l i = false.
Proof.
  intros [->| ->] Hi Hne; [apply Z.bits_0 | by apply testbit_LOCK_high].
Qed.

Lemma pointer_bits_lor a l :
  aligned a → l = 0 ∨ l = 1 → pointer_bits (Z.lor a l) = a.
Proof.
  unfold aligned, pointer_bits, flags.LOCK. intros Ha Hl.
  apply Z.bits_inj'. intros i Hi.
  rewrite Z.land_spec, Z.lor_spec, Z.lnot_spec by lia.
  destruct (decide (i = 0)) as [->|Hne].
  - rewrite (testbit_0_lock_free _ Ha).
    change (Z.testbit 1 0) with true. simpl. apply andb_false_r.
  - rewrite (testbit_LOCK_high i), (testbit_small_high l i) by done.
    simpl. by rewrite orb_false_r, andb_true_r.
Qed.

Lemma lock_bit_lor a l :
  aligned a → l = 0 ∨ l = 1 → lock_bit (Z.lor a l) = l.
Proof.
  unfold aligned, lock_bit, flags.LOCK. intros Ha Hl.
  rewrite Z.land_lor_distr_l, Ha.
  destruct Hl as [->| ->]; reflexivity.
Qed.

Lemma lor_lor_idem a l : Z.lor (Z.lor a l) l = Z.lor a l.
Proof. by rewrite <- Z.lor_assoc, Z.lor_diag. Qed.


Lemma pointer_bits_lock_free n : lock_bit n = 0 → pointer_bits n = n.
Proof.
  unfold lock_bit, pointer_bits, flags.LOCK. intros Hn.
  apply Z.bits_inj'. intros i Hi.
  rewrite Z.land_spec, Z.lnot_spec by lia.
  destruct (decide (i = 0)) as [->|Hne].
  - rewrite (testbit_0_lock_free _ Hn). reflexivity.
  - rewrite (testbit_LOCK_high i) by done. simpl. apply andb_true_r.
Qed.

End Bits.

Section Properties.
Context {V : Type} {Vne : NotEqual V} {P : Platform}.

Implicit Types (s : State (V:=V)) (w : Work (V:=V)) (nd : Node (V:=V)).
Implicit Types (ws : WorkState) (a : Z).

(* The values are those of the section throughout. *)
Local Abbreviation total := (@total V _) (only parsing).


(** ** Runs *)

Lemma bind_Ok {A B} (m : M A) (f : A → M B) s r :
  (m ≫= f) s = Ok r ↔ ∃ x s1, m s = Ok (x, s1) ∧ f x s1 = Ok r.
Proof.
  unfold mbind, M_bind. split.
  - destruct (m s) as [[x s1]| |]; [eauto | done | done].
  - intros (x & s1 & -> & Hf). exact Hf.
Qed.

Lemma bind_run {A B} (m : M A) (f : A → M B) s x s1 :
  m s = Ok (x, s1) → (m ≫= f) s = f x s1.
Proof. unfold mbind, M_bind. by intros ->. Qed.

Lemma get_work_Ok a s w s' :
  get_work a s = Ok (w, s') ↔ works s !! a = Some w ∧ s' = s.
Proof.
  unfold get_work. destruct (works s !! a) as [w0|]; split.
  - intros H. by inversion H.
  - intros [H ->]. by inversion H.
  - done.
  - by intros [? _].
Qed.

Lemma get_work_run a s w : works s !! a = Some w → get_work a s = Ok (w, s).
Proof. intros. by apply get_work_Ok. Qed.

Lemma get_node_Ok a s nd s' :
  get_node a s = Ok (nd, s') ↔
  ∃ w, works s !! a = Some w ∧ kind w = NodeOf nd ∧ s' = s.
Proof.
  unfold get_node. rewrite bind_Ok. split.
  - intros (w & s1 & [Hw ->]%get_work_Ok & Hk).
    destruct (kind w) eqn:E; [done|]. inversion Hk; subst. eauto.
  - intros (w & Hw & Hk & ->). exists w, s. rewrite Hk.
    split; [by apply get_work_run | done].
Qed.

Lemma get_node_run a s w nd :
  works s !! a = Some w → kind w = NodeOf nd → get_node a s = Ok (nd, s).
Proof. intros. apply get_node_Ok. eauto. Qed.

Lemma put_work_run a w s : put_work a w s = Ok (tt, set_work a w s).
Proof. reflexivity. Qed.

Lemma put_node_run a w nd s :
  works s !! a = Some w →
  put_node a nd s = Ok (tt, set_work a (with_kind (NodeOf nd) w) s).
Proof. intros Hw. unfold put_node. by rewrite (bind_run _ _ _ _ _ (get_work_run _ _ _ Hw)). Qed.

Lemma set_work_lookup a w s : works (set_work a w s) !! a = Some w.
Proof. apply lookup_insert_eq. Qed.

Lemma set_work_lookup_ne a b w s :
  a ≠ b → works (set_work a w s) !! b = works s !! b.
Proof. intros. by apply lookup_insert_ne. Qed.

Lemma set_work_set_work a w w' s :
  set_work a w' (set_work a w s) = set_work a w' s.
Proof. unfold set_work, with_works. simpl. by rewrite insert_insert_eq. Qed.

Lemma set_work_id a w s : works s !! a = Some w → set_work a w s = s.
Proof.
  intros Hw. unfold set_work, with_works. rewrite (insert_id _ _ _ Hw).
  by destruct s.
Qed.

Lemma with_refcount_id w : with_refcount (refcount w) w = w.
Proof. by destruct w. Qed.
Lemma with_next_id w : with_next (next w) w = w.
Proof. by destruct w. Qed.

(** ** The exclusion flag *)

Lemma trylock_and_dequeue_run a s w :
  works s !! a = Some w →
  trylock_and_dequeue a s =
    Ok (bool_decide (lock_bit (next w) = 0), set_work a (with_next flags.LOCK w) s).
Proof.
  intros Hw. unfold trylock_and_dequeue.
  rewrite (bind_run _ _ _ _ _ (get_work_run _ _ _ Hw)).
  rewrite (bind_run _ _ _ _ _ (put_work_run _ _ _)).
  unfold mret, M_ret, lock_bit. do 2 f_equal.
  destruct (Z.eqb_spec (Z.land (next w) flags.LOCK) 0) as [E|E];
    simpl; [by rewrite bool_decide_eq_true_2 | by rewrite bool_decide_eq_false_2].
Qed.

Lemma trylock_run a s w :
  works s !! a = Some w →
  trylock a s =
    Ok (bool_decide (lock_bit (next w) = 0),
        set_work a (with_next (Z.lor (next w) flags.LOCK) w) s).
Proof.
  intros Hw. unfold trylock.
  rewrite (bind_run _ _ _ _ _ (get_work_run _ _ _ Hw)).
  rewrite (bind_run _ _ _ _ _ (put_work_run _ _ _)).
  unfold mret, M_ret, lock_bit. do 2 f_equal.
  destruct (Z.eqb_spec (Z.land (next w) flags.LOCK) 0) as [E|E];
    simpl; [by rewrite bool_decide_eq_true_2 | by rewrite bool_decide_eq_false_2].
Qed.

Lemma release_run a s w :
  works s !! a = Some w →
  release a s = Ok (tt, set_work a (with_next (pointer_bits (next w)) w) s).
Proof.
  intros Hw. unfold release.
  by rewrite (bind_run _ _ _ _ _ (get_work_run _ _ _ Hw)).
Qed.

Lemma intrusive_ptr_add_ref_run a s w :
  works s !! a = Some w →
  intrusive_ptr_add_ref a s =
    Ok (tt, set_work a (with_refcount (wrap fast16_bits (refcount w + 1)) w) s).
Proof.
  intros Hw. unfold intrusive_ptr_add_ref.
  by rewrite (bind_run _ _ _ _ _ (get_work_run _ _ _ Hw)).
Qed.

(** ** What a pass never changes *)

Lemma same_shape_refl (k : WorkKind (V:=V)) : same_shape k k.
Proof. by destruct k. Qed.

Lemma same_shape_trans (k1 k2 k3 : WorkKind (V:=V)) :
  same_shape k1 k2 → same_shape k2 k3 → same_shape k1 k3.
Proof.
  destruct k1, k2, k3; simpl; try done.
  intros (-> & -> & ->) (-> & -> & ->). done.
Qed.

Lemma static_refl w : static w w.
Proof. split; [done | apply same_shape_refl]. Qed.

Lemma static_trans w1 w2 w3 : static w1 w2 → static w2 w3 → static w1 w3.
Proof.
  intros [E1 S1] [E2 S2]. split; [congruence | by eapply same_shape_trans].
Qed.

Lemma evolves_refl s : evolves s s.
Proof. split; [done | done |]. intros a w' Hw. eauto using static_refl. Qed.

Lemma evolves_trans s1 s2 s3 : evolves s1 s2 → evolves s2 s3 → evolves s1 s3.
Proof.
  intros [E1 T1 W1] [E2 T2 W2]. split; [congruence | congruence |].
  intros a w3 H3. destruct (W2 _ _ H3) as (w2 & H2 & S2).
  destruct (W1 _ _ H2) as (w1 & H1 & S1). eauto using static_trans.
Qed.

Lemma quiet_refl s : quiet s s.
Proof. split; [apply evolves_refl | done | done |]. intros; congruence. Qed.

Lemma quiet_trans s1 s2 s3 : quiet s1 s2 → quiet s2 s3 → quiet s1 s3.
Proof.
  intros [E1 G1 S1 N1] [E2 G2 S2 N2].
  split; [by eapply evolves_trans | congruence | congruence |].
  intros a w1 w3 H1 H3.
  destruct (evolves_works _ _ E2 _ _ H3) as (w2 & H2 & _).
  rewrite (N2 _ _ _ H2 H3). eauto.
Qed.

Lemma evolves_set_work a w w' s :
  works s !! a = Some w → static w w' → evolves s (set_work a w' s).
Proof.
  intros Hw Hs. split; [done | done |]. intros b wb. simpl.
  destruct (decide (a = b)) as [->|Hne].
  - rewrite lookup_insert_eq. intros [= <-]. eauto.
  - rewrite lookup_insert_ne by done. eauto using static_refl.
Qed.

Lemma quiet_set_work a w w' s :
  works s !! a = Some w → static w w' → next w' = next w →
  quiet s (set_work a w' s).
Proof.
  intros Hw Hs Hn. split; [by eapply evolves_set_work | done | done |].
  intros b w1 w2 H1. simpl. destruct (decide (a = b)) as [->|Hne].
  - rewrite lookup_insert_eq. intros [= <-]. congruence.
  - rewrite lookup_insert_ne by done. congruence.
Qed.

Lemma quiet_delete a s : quiet s (with_works (delete a (works s)) s).
Proof.
  split; [split; [done | done |] | done | done |]; simpl.
  - intros b w' [_ Hb]%lookup_delete_Some. eauto using static_refl.
  - intros b w w' Hw [_ Hb]%lookup_delete_Some. congruence.
Qed.

Lemma quiet_with_cells m s : quiet s (with_cells m s).
Proof.
  split; [split; [done | done |] | done | done |]; simpl.
  - eauto using static_refl.
  - intros; congruence.
Qed.

Lemma evolves_with_work_queue h s : evolves s (with_work_queue h s).
Proof. split; [done | done |]. simpl. eauto using static_refl. Qed.

Lemma evolves_with_spurious l s : evolves s (with_spurious l s).
Proof. split; [done | done |]. simpl. eauto using static_refl. Qed.

Lemma static_with_refcount r w : static w (with_refcount r w).
Proof. split; [done | apply same_shape_refl]. Qed.
Lemma static_with_next n w : static w (with_next n w).
Proof. split; [done | apply same_shape_refl]. Qed.

(** The Works of [s'] were already there in [s]. *)
Lemma evolves_size s s' : evolves s s' → (size (works s') ≤ size (works s))%nat.
Proof.
  intros E. rewrite <- !size_dom. apply subseteq_size.
  intros a [w' Hw']%elem_of_dom.
  destruct (evolves_works _ _ E _ _ Hw') as (w & Hw & _).
  apply elem_of_dom. eauto.
Qed.

(** ** Reference counting *)

Lemma destroy_inputs_inv (R : State → State → Prop) (rel : Z → M unit) :
  (∀ s, R s s) → (∀ s1 s2 s3, R s1 s2 → R s2 s3 → R s1 s3) →
  (∀ r s u s', rel r s = Ok (u, s') → R s s') →
  ∀ l s u s', destroy_inputs rel l s = Ok (u, s') → R s s'.
Proof.
  intros Hrefl Htrans Hrel. induction l as [|i l IH]; intros s u s' H.
  - inversion H; subst. apply Hrefl.
  - simpl in H. apply bind_Ok in H as (x & s1 & H1 & H2).
    apply Htrans with s1; [|by eapply IH].
    destruct (ref i); [by eapply Hrel | inversion H1; subst; apply Hrefl].
Qed.

Lemma release_rec_quiet n : ∀ a s u s',
  release_rec n a s = Ok (u, s') → quiet s s'.
Proof.
  induction n as [|n IH]; intros a s u s' H; [done|].
  simpl in H. apply bind_Ok in H as (w & s1 & [Hw ->]%get_work_Ok & H).
  destruct (_ =? 0).
  - apply bind_Ok in H as (x & s1 & H1 & H2). inversion H1; subst.
    apply quiet_trans with (with_works (delete a (works s)) s);
      [apply quiet_delete|].
    destruct (kind w).
    + inversion H2; subst. apply quiet_refl.
    + eapply (destroy_inputs_inv quiet); eauto using quiet_refl, quiet_trans.
  - inversion H; subst.
    eapply quiet_set_work; eauto using static_with_refcount.
Qed.

Lemma intrusive_ptr_release_quiet a s u s' :
  intrusive_ptr_release a s = Ok (u, s') → quiet s s'.
Proof. apply release_rec_quiet. Qed.

Lemma intrusive_ptr_add_ref_quiet a s u s' :
  intrusive_ptr_add_ref a s = Ok (u, s') → quiet s s'.
Proof.
  unfold intrusive_ptr_add_ref. intros H.
  apply bind_Ok in H as (w & s1 & [Hw ->]%get_work_Ok & H).
  inversion H; subst. eapply quiet_set_work; eauto using static_with_refcount.
Qed.

(** Releasing a reference that is not the last one. *)
Lemma intrusive_ptr_release_run a s w :
  works s !! a = Some w →
  wrap fast16_bits (refcount w - 1) ≠ 0 →
  intrusive_ptr_release a s =
    Ok (tt, set_work a (with_refcount (wrap fast16_bits (refcount w - 1)) w) s).
Proof.
  intros Hw Hr. unfold intrusive_ptr_release. simpl.
  rewrite (bind_run _ _ _ _ _ (get_work_run _ _ _ Hw)).
  destruct (Z.eqb_spec (wrap fast16_bits (refcount w - 1)) 0); done.
Qed.

(** The destructors never run out of fuel. *)
Lemma destroy_inputs_no_timeout (rel : Z → M unit) (b : nat) :
  (∀ r s, (size (works s) ≤ b)%nat → rel r s ≠ Timeout) →
  (∀ r s u s', rel r s = Ok (u, s') → quiet s s') →
  ∀ l s, (size (works s) ≤ b)%nat → destroy_inputs rel l s ≠ Timeout.
Proof.
  intros Hrel Hq. induction l as [|i l IH]; intros s Hs; [done|].
  simpl. unfold mbind, M_bind.
  destruct (ref i) as [r|].
  - destruct (rel r s) as [[u s1]| |] eqn:E; [|done|by apply Hrel in E].
    apply IH. apply Hq in E. apply quiet_evolves, evolves_size in E. lia.
  - simpl. by apply IH.
Qed.

Lemma release_rec_no_timeout n : ∀ a s,
  (size (works s) < n)%nat → release_rec n a s ≠ Timeout.
Proof.
  induction n as [|n IH]; intros a s Hn; [lia|].
  simpl. unfold mbind at 1, M_bind at 1.
  destruct (get_work a s) as [[w s1]| |] eqn:E; [|done|].
  2:{ unfold get_work in E. by destruct (works s !! a). }
  apply get_work_Ok in E as [Hw ->].
  destruct (_ =? 0); [|done].
  unfold mbind, M_bind. simpl.
  destruct (kind w); [done|].
  assert (size (delete a (works s)) < size (works s))%nat as Hlt.
  { rewrite <- (insert_delete_id _ _ _ Hw) at 2.
    rewrite map_size_insert_None by apply lookup_delete_eq. lia. }
  apply (destroy_inputs_no_timeout _ (size (delete a (works s)))).
  - intros r s' Hs'. apply IH. lia.
  - apply release_rec_quiet.
  - done.
Qed.

Lemma intrusive_ptr_release_no_timeout a s :
  intrusive_ptr_release a s ≠ Timeout.
Proof. apply release_rec_no_timeout. lia. Qed.

(** ** Scheduling *)

Lemma wrap_range bits x : 0 ≤ bits → 0 ≤ wrap bits x < 2 ^ bits.
Proof. intros. apply Z.mod_pos_bound. by apply Z.pow_pos_nonneg. Qed.

Lemma wrap_small bits x : 0 ≤ x < 2 ^ bits → wrap bits x = x.
Proof. intros. by apply Z.mod_small. Qed.

Lemma fast16_bits_nonneg : 0 ≤ fast16_bits.
Proof. pose proof fast16_bits_ge. lia. Qed.

(** A reference taken and given back leaves the count as it was. *)
Lemma add_ref_release_refcount r :
  0 ≤ r < 2 ^ fast16_bits →
  wrap fast16_bits (wrap fast16_bits (r + 1) - 1) = r.
Proof.
  intros Hr. unfold wrap. rewrite Zminus_mod_idemp_l.
  replace (r + 1 - 1) with r by lia. by apply Z.mod_small.
Qed.

Lemma spurious_failure_run s :
  spurious_failure s =
    match spurious s with
    | [] => Ok (false, s)
    | b :: l => Ok (b, with_spurious l s)
    end.
Proof. reflexivity. Qed.

Lemma next_compare_exchange_weak_run a s w d :
  works s !! a = Some w →
  next_compare_exchange_weak a (next w) d s =
    match spurious s with
    | [] => Ok (true, set_work a (with_next d w) s)
    | true :: l => Ok (false, with_spurious l s)
    | false :: l => Ok (true, set_work a (with_next d w) (with_spurious l s))
    end.
Proof.
  intros Hw. unfold next_compare_exchange_weak.
  rewrite (bind_run _ _ _ _ _ (get_work_run _ _ _ Hw)), Z.eqb_refl.
  unfold mbind, M_bind. rewrite spurious_failure_run.
  by destruct (spurious s) as [|[] l].
Qed.

Lemma work_queue_compare_exchange_weak_run s d :
  work_queue_compare_exchange_weak (work_queue (graph s)) d s =
    match spurious s with
    | [] => Ok (true, with_work_queue d s)
    | true :: l => Ok (false, with_spurious l s)
    | false :: l => Ok (true, with_work_queue d (with_spurious l s))
    end.
Proof.
  unfold work_queue_compare_exchange_weak, mbind, M_bind, gets.
  rewrite Z.eqb_refl, spurious_failure_run.
  by destruct (spurious s) as [|[] l].
Qed.

Lemma schedule_loop_enqueue a n : ∀ first s w w0 h,
  works s !! a = Some w →
  work_queue (graph s) = h → aligned h →
  (* [w0] is the Work as the first round found it *)
  pointer_bits (next w0) = 0 →
  (w = w0 ∨ first = false ∧ w = with_next (Z.lor h (lock_bit (next w0))) w0) →
  (length (spurious s) < n)%nat →
  ∃ l, schedule_loop n a first s = Ok (tt, enqueued a w0 h l s).
Proof.
  induction n as [|n IH]; intros first s w w0 h Hw Hh Hal Hp0 Hcase Hlen; [lia|].
  assert (lock_bit (next w) = lock_bit (next w0)) as Hlock.
  { destruct Hcase as [->|[_ ->]]; [done|]. simpl.
    apply lock_bit_lor; [done | apply lock_bit_cases]. }
  assert (first && negb (pointer_bits (next w) =? 0) = false) as Hfirst.
  { destruct Hcase as [->|[-> _]]; [|done].
    rewrite Hp0. simpl. apply andb_false_r. }
  assert (with_next (Z.lor h (lock_bit (next w0))) w
          = with_next (Z.lor h (lock_bit (next w0))) w0) as Hnext.
  { by destruct Hcase as [->|[_ ->]]. }
  simpl. rewrite (bind_run _ _ _ _ _ (get_work_run _ _ _ Hw)).
  fold (pointer_bits (next w)). fold (lock_bit (next w)).
  rewrite Hfirst, Hlock.
  unfold mbind at 1, M_bind at 1, gets at 1. rewrite Hh.
  unfold mbind at 1, M_bind at 1.
  rewrite (next_compare_exchange_weak_run _ _ _ _ Hw), Hnext.
  destruct s as [wk cl g sp ev]. simpl in *.
  assert (∀ l l', enqueued a w0 h l'
            {| works := <[a:=with_next (Z.lor h (lock_bit (next w0))) w0]> wk;
               cells := cl; graph := g; spurious := l; evals := ev |}
          = enqueued a w0 h l'
            {| works := wk; cells := cl; graph := g; spurious := sp;
               evals := ev |}) as Hsame.
  { intros l l'. unfold enqueued. simpl. by rewrite insert_insert_eq. }
  (* the second compare-exchange, from a state where the first one is done *)
  assert (∀ l, (length l < S n)%nat →
    ∃ l', (pushed ← work_queue_compare_exchange_weak h a;
           if (pushed : bool) then mret tt else schedule_loop n a false)
            {| works := <[a:=with_next (Z.lor h (lock_bit (next w0))) w0]> wk;
               cells := cl; graph := g; spurious := l; evals := ev |}
          = Ok (tt, enqueued a w0 h l'
                  {| works := wk; cells := cl; graph := g; spurious := sp;
                     evals := ev |})) as Hsecond.
  { intros l Hl. unfold mbind, M_bind. subst h.
    rewrite (work_queue_compare_exchange_weak_run
               {| works := _; cells := cl; graph := g; spurious := l;
                  evals := ev |} a).
    simpl. destruct l as [|[] l]; simpl.
    - by exists [].
    - edestruct (IH false
        {| works := <[a:=with_next (Z.lor (work_queue g) (lock_bit (next w0))) w0]> wk;
           cells := cl; graph := g; spurious := l; evals := ev |})
        as [l' Hl']; [apply lookup_insert_eq | reflexivity | done | exact Hp0
                     | by right | simpl in *; lia |].
      exists l'. unfold with_spurious. simpl. rewrite Hl'. by rewrite Hsame.
    - by exists l. }
  destruct sp as [|[] sp]; simpl.
  - apply (Hsecond []). simpl. lia.
  - edestruct (IH first
      {| works := wk; cells := cl; graph := g; spurious := sp; evals := ev |})
      as [l' Hl']; [exact Hw | exact Hh | done | exact Hp0 | exact Hcase
                   | simpl in *; lia |].
    exists l'. exact Hl'.
  - apply (Hsecond sp). simpl in *. lia.
Qed.

(** [schedule] on a Work that is not on the intake queue puts it at the
    head, with one more reference. *)
Lemma schedule_enqueue a s w :
  works s !! a = Some w →
  pointer_bits (next w) = 0 →
  aligned (work_queue (graph s)) →
  ∃ l, schedule a s =
    Ok (tt, enqueued a (with_refcount (wrap fast16_bits (refcount w + 1)) w)
              (work_queue (graph s)) l s).
Proof.
  intros Hw Hp Hal. unfold schedule.
  rewrite (bind_run _ _ _ _ _ (intrusive_ptr_add_ref_run _ _ _ Hw)).
  unfold mbind, M_bind, gets.
  edestruct (schedule_loop_enqueue a (S (length (spurious s))) true
               (set_work a (with_refcount (wrap fast16_bits (refcount w + 1)) w) s)
               (with_refcount (wrap fast16_bits (refcount w + 1)) w)
               (with_refcount (wrap fast16_bits (refcount w + 1)) w))
    as [l Hl]; [apply set_work_lookup | reflexivity | exact Hal | exact Hp
               | by left | simpl; lia |].
  exists l. etrans; [exact Hl|]. do 2 f_equal.
  unfold enqueued. simpl. by rewrite insert_insert_eq.
Qed.

(** [schedule] on a Work that is on the intake queue changes nothing. *)
Lemma schedule_queued a s w :
  works s !! a = Some w →
  pointer_bits (next w) ≠ 0 →
  0 < refcount w < 2 ^ fast16_bits →
  schedule a s = Ok (tt, s).
Proof.
  intros Hw Hp Hr. unfold schedule.
  rewrite (bind_run _ _ _ _ _ (intrusive_ptr_add_ref_run _ _ _ Hw)).
  unfold mbind at 1, M_bind at 1, gets. simpl.
  rewrite (bind_run _ _ _ _ _ (get_work_run _ _ _ (set_work_lookup _ _ _))).
  simpl. fold (pointer_bits (next w)).
  destruct (Z.eqb_spec (pointer_bits (next w)) 0) as [|_]; [done|]. simpl.
  erewrite intrusive_ptr_release_run; [|apply set_work_lookup|];
    simpl; rewrite add_ref_release_refcount by lia; [|lia].
  rewrite set_work_set_work. f_equal. f_equal.
  apply set_work_id. rewrite Hw. f_equal. by destruct w.
Qed.

(** [schedule] writes reference counts, [next] words, the queue head and
    the oracle only. *)
Lemma schedule_loop_evolves a n : ∀ first s u s',
  schedule_loop n a first s = Ok (u, s') → evolves s s'.
Proof.
  induction n as [|n IH]; intros first s u s' H; [done|].
  simpl in H. apply bind_Ok in H as (w & ? & [Hw ->]%get_work_Ok & H).
  destruct (first && _).
  { by apply intrusive_ptr_release_quiet, quiet_evolves in H. }
  apply bind_Ok in H as (h & ? & [= <- <-] & H).
  apply bind_Ok in H as (swapped & s1 & H1 & H).
  rewrite (next_compare_exchange_weak_run _ _ _ _ Hw) in H1.
  assert (evolves s s1 ∧ (swapped = true → ∃ w1, works s1 !! a = Some w1)) as [E1 Hw1].
  { destruct (spurious s) as [|[] l]; inversion H1; subst; split; try done.
    - eapply evolves_set_work; eauto using static_with_next.
    - intros _. rewrite set_work_lookup. eauto.
    - apply evolves_with_spurious.
    - eapply evolves_trans; [apply (evolves_with_spurious l)|].
      eapply evolves_set_work; eauto using static_with_next.
    - intros _. rewrite set_work_lookup. eauto. }
  eapply evolves_trans; [exact E1|].
  destruct swapped; simpl in H; [|by eapply IH].
  apply bind_Ok in H as (pushed & s2 & H2 & H).
  assert (evolves s1 s2) as E2.
  { unfold work_queue_compare_exchange_weak in H2.
    apply bind_Ok in H2 as (h' & ? & [= <- <-] & H2).
    destruct (_ =? _); [|inversion H2; subst; apply evolves_refl].
    apply bind_Ok in H2 as (fails & s3 & H3 & H2).
    assert (evolves s1 s3) as E3.
    { rewrite spurious_failure_run in H3.
      destruct (spurious s1); inversion H3; subst;
        [apply evolves_refl | apply evolves_with_spurious]. }
    eapply evolves_trans; [exact E3|].
    destruct fails; [inversion H2; subst; apply evolves_refl|].
    apply bind_Ok in H2 as (? & ? & [= <- <-] & [= <- <-]).
    apply evolves_with_work_queue. }
  eapply evolves_trans; [exact E2|].
  destruct pushed; [inversion H; subst; apply evolves_refl | by eapply IH].
Qed.

Lemma schedule_evolves a s u s' : schedule a s = Ok (u, s') → evolves s s'.
Proof.
  unfold schedule. intros H.
  apply bind_Ok in H as (? & s1 & H1%intrusive_ptr_add_ref_quiet & H).
  apply bind_Ok in H as (? & ? & [= <- <-] & H%schedule_loop_evolves).
  eapply evolves_trans; [by apply quiet_evolves | done].
Qed.

(** ** Loops that cannot run out of fuel *)

Lemma total_bind {A B} (m : M (V:=V) A) (f : A → M (V:=V) B) :
  total m → (∀ x, total (f x)) → total (m ≫= f).
Proof.
  intros Hm Hf s. unfold mbind, M_bind.
  destruct (m s) as [[x s1]| |] eqn:E; [apply Hf | done | by apply Hm in E].
Qed.

Lemma total_ret {A} (x : A) : total (mret x).
Proof. done. Qed.
Lemma total_gets {A} (f : State (V:=V) → A) : total (gets f).
Proof. done. Qed.
Lemma total_modify (f : State (V:=V) → State) : total (modify f).
Proof. done. Qed.
Lemma total_undefined {A} : total (@undefined V A).
Proof. done. Qed.
Lemma total_get_work a : total (get_work a).
Proof. intros s. unfold get_work. by destruct (works s !! a). Qed.
Lemma total_put_work a w : total (put_work a w).
Proof. done. Qed.

Lemma total_get_node a : total (get_node a).
Proof.
  apply total_bind; [apply total_get_work|]. intros w.
  destruct (kind w); [apply total_undefined | apply total_ret].
Qed.

Lemma total_put_node a nd : total (put_node a nd).
Proof. apply total_bind; [apply total_get_work | intros; apply total_put_work]. Qed.

Lemma total_intrusive_ptr_release a : total (intrusive_ptr_release a).
Proof. intros s. apply intrusive_ptr_release_no_timeout. Qed.

Lemma total_intrusive_ptr_add_ref a : total (intrusive_ptr_add_ref a).
Proof. apply total_bind; [apply total_get_work | intros; apply total_put_work]. Qed.

Lemma total_store_at p v : total (store_at p v).
Proof.
  destruct p as [a n|a]; simpl.
  - apply total_bind; [apply total_get_node|]. intros nd.
    destruct (inputs nd !! n); [apply total_put_node | apply total_undefined].
  - intros s. by destruct (cells s !! a).
Qed.

Lemma total_trylock_and_dequeue a : total (trylock_and_dequeue a).
Proof.
  apply total_bind; [apply total_get_work|]. intros w.
  apply total_bind; [apply total_put_work | intros; apply total_ret].
Qed.

Lemma total_release a : total (release a).
Proof. apply total_bind; [apply total_get_work | intros; apply total_put_work]. Qed.

Lemma total_readnext a : total (readnext a).
Proof. apply total_bind; [apply total_get_work | intros; apply total_ret]. Qed.

Lemma schedule_loop_no_timeout a n : ∀ first s,
  (length (spurious s) < n)%nat → schedule_loop n a first s ≠ Timeout.
Proof.
  induction n as [|n IH]; intros first s Hn; [lia|].
  simpl. unfold mbind at 1, M_bind at 1.
  destruct (get_work a s) as [[w s1]| |] eqn:E;
    [|done|by apply total_get_work in E].
  apply get_work_Ok in E as [Hw ->].
  destruct (first && _); [apply total_intrusive_ptr_release|].
  unfold mbind at 1, M_bind at 1, gets at 1.
  unfold mbind at 1, M_bind at 1.
  rewrite (next_compare_exchange_weak_run _ _ _ _ Hw).
  assert (∀ l, (length l < S n)%nat →
    (pushed ← work_queue_compare_exchange_weak (work_queue (graph s)) a;
     if (pushed : bool) then mret tt else schedule_loop n a false)
      (set_work a (with_next (Z.lor (work_queue (graph s))
                                 (Z.land (next w) flags.LOCK)) w)
         (with_spurious l s))
    ≠ Timeout) as Hsecond.
  { intros l Hl. unfold mbind, M_bind.
    rewrite (work_queue_compare_exchange_weak_run
               (set_work a _ (with_spurious l s)) a). simpl.
    destruct l as [|[] l]; simpl; [done| |done].
    apply IH. simpl in *. lia. }
  destruct (spurious s) as [|[] l] eqn:Hsp; simpl.
  - specialize (Hsecond [] ltac:(simpl; lia)).
    replace (with_spurious [] s) with s in Hsecond; [done|].
    destruct s; simpl in *; by subst.
  - apply IH. simpl in *. lia.
  - apply Hsecond. simpl in *. lia.
Qed.

Lemma total_schedule a : total (schedule a).
Proof.
  apply total_bind; [apply total_intrusive_ptr_add_ref|]. intros _.
  intros s. unfold mbind, M_bind, gets.
  apply schedule_loop_no_timeout. lia.
Qed.

Lemma total_add_to_queue a ws : total (add_to_queue a ws).
Proof.
  apply total_bind; [apply total_get_work|]. intros w.
  destruct (_ <=? _).
  - apply total_bind; [apply total_schedule | intros; apply total_ret].
  - apply total_bind; [apply total_intrusive_ptr_add_ref | intros; apply total_ret].
Qed.

Lemma total_notify deps v : ∀ ws, total (notify deps v ws).
Proof.
  induction deps as [|d deps IH]; intros ws; [apply total_ret|].
  simpl. apply total_bind; [apply total_store_at|]. intros _.
  apply total_bind; [|intros; apply IH].
  destruct (ref d); [apply total_add_to_queue | apply total_ret].
Qed.

Lemma total_Node_eval a ws : total (Node_eval a ws).
Proof.
  apply total_bind; [apply total_trylock_and_dequeue|]. intros acquired.
  destruct (negb acquired); [apply total_add_to_queue|].
  apply total_bind; [apply total_get_node|]. intros nd. cbv zeta.
  destruct (Propagate_call (propagate nd) (call_fn nd)) as [fire policy].
  apply total_bind; [apply total_put_node|]. intros _.
  apply total_bind.
  - destruct fire; [apply total_notify | apply total_ret].
  - intros ws'. apply total_bind; [apply total_release | intros; apply total_ret].
Qed.

Lemma total_Work_eval a ws : total (Work_eval a ws).
Proof.
  apply total_bind; [apply total_get_work|]. intros w.
  destruct (kind w); [apply total_undefined | apply total_Node_eval].
Qed.

Lemma total_drop_duplicates i l : ∀ st, total (drop_duplicates i st l).
Proof.
  induction l as [|[i' a] l IH]; intros st; simpl; [apply total_ret|].
  destruct (_ =? _); [|apply total_ret].
  apply total_bind; [apply total_intrusive_ptr_release | intros; apply IH].
Qed.

(** ** What the operations of a pass leave alone *)

Lemma put_node_quiet a nd nd' w s u s' :
  works s !! a = Some w → kind w = NodeOf nd →
  fn nd' = fn nd → dependents nd' = dependents nd →
  length (inputs nd') = length (inputs nd) →
  put_node a nd' s = Ok (u, s') → quiet s s'.
Proof.
  intros Hw Hk Hf Hd Hl H. rewrite (put_node_run _ _ _ _ Hw) in H.
  inversion H; subst. eapply quiet_set_work; [exact Hw | | done].
  split; [done|]. simpl. by rewrite Hk.
Qed.

Lemma store_at_quiet p v s u s' : store_at p v s = Ok (u, s') → quiet s s'.
Proof.
  destruct p as [a n|a]; simpl; intros H.
  - apply bind_Ok in H as (nd & ? & (w & Hw & Hk & ->)%get_node_Ok & H).
    destruct (inputs nd !! n) as [c|] eqn:E; [|done].
    apply (put_node_quiet a nd _ w) in H;
      [done | done | done | done | done | simpl; apply length_insert].
  - destruct (cells s !! a); [|done]. inversion H; subst. apply quiet_with_cells.
Qed.

Lemma trylock_and_dequeue_evolves a s b s' :
  trylock_and_dequeue a s = Ok (b, s') → evolves s s'.
Proof.
  unfold trylock_and_dequeue. intros H.
  apply bind_Ok in H as (w & ? & [Hw ->]%get_work_Ok & H).
  apply bind_Ok in H as (? & ? & [= <- <-] & [= <- <-]).
  eapply evolves_set_work; eauto using static_with_next.
Qed.

Lemma release_evolves a s u s' : release a s = Ok (u, s') → evolves s s'.
Proof.
  unfold release. intros H.
  apply bind_Ok in H as (w & ? & [Hw ->]%get_work_Ok & [= <- <-]).
  eapply evolves_set_work; eauto using static_with_next.
Qed.

(** ** The heap of a pass *)

Lemma pq_push_Permutation e l : pq_push e l ≡ₚ e :: l.
Proof.
  induction l as [|e' l IH]; simpl; [done|].
  destruct (_ <? _); [done|]. rewrite IH. apply Permutation_swap.
Qed.

Lemma pq_push_sorted e l :
  StronglySorted key_le l → StronglySorted key_le (pq_push e l).
Proof.
  induction 1 as [|e' l Hs IH Hall]; simpl.
  - repeat constructor.
  - destruct (Z.ltb_spec e.1 e'.1) as [Hlt|Hge].
    + constructor; [by constructor|]. constructor; [unfold key_le; lia|].
      eapply Forall_impl; [exact Hall|]. unfold key_le. intros; simpl in *; lia.
    + constructor; [done|]. rewrite pq_push_Permutation.
      constructor; [done | done].
Qed.

Lemma heap_inv_evolves lo hi s s' l :
  evolves s s' → heap_inv lo hi s l → heap_inv lo hi s' l.
Proof.
  intros E [Hs Hk Hi]. split; [done | |].
  - eapply Forall_impl; [exact Hk|]. intros e [Hr He]. split; [done|].
    intros w' Hw'. destruct (evolves_works _ _ E _ _ Hw') as (w & Hw & [Hid _]).
    rewrite Hid. eauto.
  - intros a w' Hw'. destruct (evolves_works _ _ E _ _ Hw') as (w & Hw & [Hid _]).
    rewrite Hid. eauto.
Qed.

Lemma heap_inv_push lo hi s l a w :
  heap_inv lo hi s l → works s !! a = Some w → lo < id w →
  heap_inv lo hi s (pq_push (id w, a) l).
Proof.
  intros [Hs Hk Hi] Hw Hlo. split; [by apply pq_push_sorted | | done].
  rewrite pq_push_Permutation. constructor; [|done]. simpl.
  split; [split; [done | eauto] | congruence].
Qed.

Lemma add_to_queue_inv a ws s ws' s' :
  add_to_queue a ws s = Ok (ws', s') →
  evolves s s' ∧ current_id ws' = current_id ws ∧
  ∀ hi, heap_inv (current_id ws) hi s (q ws) →
        heap_inv (current_id ws) hi s' (q ws').
Proof.
  unfold add_to_queue. intros H.
  apply bind_Ok in H as (w & ? & [Hw ->]%get_work_Ok & H).
  destruct (Z.leb_spec (id w) (current_id ws)) as [Hle|Hgt].
  - apply bind_Ok in H as (? & s1 & E%schedule_evolves & [= <- <-]).
    split; [done|]. split; [done|]. intros hi. by apply heap_inv_evolves.
  - apply bind_Ok in H as (? & s1 & H1 & [= <- <-]).
    rewrite (intrusive_ptr_add_ref_run _ _ _ Hw) in H1. inversion H1; subst.
    assert (evolves s (set_work a (with_refcount (wrap fast16_bits (refcount w + 1)) w) s)) as E.
    { eapply evolves_set_work; eauto using static_with_refcount. }
    split; [done|]. split; [done|]. intros hi Hh. simpl.
    apply (heap_inv_push _ _ _ _ a (with_refcount (wrap fast16_bits (refcount w + 1)) w));
      [by eapply heap_inv_evolves | apply set_work_lookup | done].
Qed.

Lemma notify_inv deps v : ∀ ws s ws' s',
  notify deps v ws s = Ok (ws', s') →
  evolves s s' ∧ current_id ws' = current_id ws ∧
  ∀ hi, heap_inv (current_id ws) hi s (q ws) →
        heap_inv (current_id ws) hi s' (q ws').
Proof.
  induction deps as [|d deps IH]; intros ws s ws' s' H.
  - inversion H; subst. eauto using evolves_refl.
  - simpl in H. apply bind_Ok in H as (? & s1 & E1%store_at_quiet%quiet_evolves & H).
    apply bind_Ok in H as (ws2 & s2 & H2 & H).
    assert (evolves s1 s2 ∧ current_id ws2 = current_id ws ∧
            ∀ hi, heap_inv (current_id ws) hi s1 (q ws) →
                  heap_inv (current_id ws) hi s2 (q ws2)) as (E2 & C2 & I2).
    { destruct (ref d); [exact (add_to_queue_inv _ _ _ _ _ H2)|].
      inversion H2; subst. eauto using evolves_refl. }
    apply IH in H as (E3 & C3 & I3). rewrite C2 in *.
    split; [eauto using evolves_trans|]. split; [done|].
    intros hi Hh. apply I3, I2. by eapply heap_inv_evolves.
Qed.

Lemma Node_eval_inv a ws s ws' s' :
  Node_eval a ws s = Ok (ws', s') →
  evolves s s' ∧ current_id ws' = current_id ws ∧
  ∀ hi, heap_inv (current_id ws) hi s (q ws) →
        heap_inv (current_id ws) hi s' (q ws').
Proof.
  unfold Node_eval. intros H.
  apply bind_Ok in H as (acquired & s1 & H1 & H).
  pose proof (trylock_and_dequeue_evolves _ _ _ _ H1) as E1.
  destruct acquired; simpl in H.
  - apply bind_Ok in H as (nd & ? & (w & Hw & Hk & ->)%get_node_Ok & H).
    destruct (Propagate_call (propagate nd) (call_fn nd)) as [fire policy].
    apply bind_Ok in H as (? & s2 & H2 & H).
    apply (put_node_quiet a nd _ w) in H2; [|done..].
    apply quiet_evolves in H2.
    apply bind_Ok in H as (ws3 & s3 & H3 & H).
    apply bind_Ok in H as (? & s4 & E4%release_evolves & [= <- <-]).
    assert (evolves s2 s3 ∧ current_id ws3 = current_id ws ∧
            ∀ hi, heap_inv (current_id ws) hi s2 (q ws) →
                  heap_inv (current_id ws) hi s3 (q ws3)) as (E3 & C3 & I3).
    { destruct fire; [exact (notify_inv _ _ _ _ _ _ H3)|].
      inversion H3; subst. eauto using evolves_refl. }
    split; [eauto using evolves_trans|]. split; [done|].
    intros hi Hh. eapply heap_inv_evolves; [exact E4|]. apply I3.
    eauto using heap_inv_evolves, evolves_trans.
  - apply add_to_queue_inv in H as (E2 & C2 & I2).
    split; [eauto using evolves_trans|]. split; [done|].
    intros hi Hh. apply I2. by eapply heap_inv_evolves.
Qed.

Lemma Work_eval_inv a ws s ws' s' :
  Work_eval a ws s = Ok (ws', s') →
  evolves s s' ∧ current_id ws' = current_id ws ∧
  ∀ hi, heap_inv (current_id ws) hi s (q ws) →
        heap_inv (current_id ws) hi s' (q ws').
Proof.
  unfold Work_eval. intros H.
  apply bind_Ok in H as (w & ? & [Hw ->]%get_work_Ok & H).
  destruct (kind w); [done | exact (Node_eval_inv _ _ _ _ _ H)].
Qed.

Lemma evolves_survivors s s' : evolves s s' → survivors s s'.
Proof. intros E. exact (evolves_works _ _ E). Qed.

Lemma quiet_survivors s s' : quiet s s' → survivors s s'.
Proof. intros Q. exact (evolves_works _ _ (quiet_evolves _ _ Q)). Qed.

Lemma survivors_trans s1 s2 s3 :
  survivors s1 s2 → survivors s2 s3 → survivors s1 s3.
Proof.
  intros W1 W2 a w3 H3. destruct (W2 _ _ H3) as (w2 & H2 & S2).
  destruct (W1 _ _ H2) as (w1 & H1 & S1). eauto using static_trans.
Qed.

Lemma heap_inv_survivors lo hi s s' l :
  survivors s s' → heap_inv lo hi s l → heap_inv lo hi s' l.
Proof.
  intros E [Hs Hk Hi]. split; [done | |].
  - eapply Forall_impl; [exact Hk|]. intros e [Hr He]. split; [done|].
    intros w' Hw'. destruct (E _ _ Hw') as (w & Hw & [Hid _]).
    rewrite Hid. eauto.
  - intros a w' Hw'. destruct (E _ _ Hw') as (w & Hw & [Hid _]).
    rewrite Hid. eauto.
Qed.

Lemma heap_inv_raise lo lo' hi s l :
  heap_inv lo hi s l → Forall (λ e, lo' < e.1) l → heap_inv lo' hi s l.
Proof.
  intros [Hs Hk Hi] Hlo. split; [done | | done].
  rewrite Forall_forall in Hk, Hlo. apply Forall_forall. intros e He.
  destruct (Hk e He) as [Hr Hid]. specialize (Hlo e He). simpl in Hlo.
  split; [lia | done].
Qed.

(** What the loop over the duplicates does: the entries that follow with
    the id [i] are released one after the other and counted, nothing is
    evaluated, and the entry left on top has another id. *)
Lemma drop_duplicates_spec i : ∀ l st s st' l' s',
  drop_duplicates i st l s = Ok ((st', l'), s') →
  ∃ dups,
    l = dups ++ l' ∧
    Forall (λ e, e.1 = i) dups ∧
    release_all dups.*2 s = Ok (tt, s') ∧
    st' = Nat.iter (length dups) incr_duplicates st ∧
    quiet s s' ∧
    match l' with e :: _ => e.1 ≠ i | [] => True end.
Proof.
  induction l as [|[i' a] l IH]; intros st s st' l' s' H; simpl in H.
  - inversion H; subst. exists [].
    split; [done|]. split; [done|]. split; [done|]. split; [done|].
    split; [apply quiet_refl | done].
  - destruct (Z.eqb_spec i' i) as [->|Hne].
    + apply bind_Ok in H as (? & s1 & H1 & H).
      destruct (IH _ _ _ _ _ H) as (dups & -> & Hall & Hrel & -> & Hq & Hhd).
      exists ((i, a) :: dups). split; [done|]. split; [by constructor|].
      split; [simpl; by rewrite (bind_run _ _ _ _ _ H1)|].
      split; [change (length ((i, a) :: dups)) with (S (length dups));
              by rewrite Nat.iter_succ_r|].
      split; [|done].
      eapply quiet_trans; [by eapply intrusive_ptr_release_quiet | done].
    + inversion H; subst. exists [].
      split; [done|]. split; [done|]. split; [done|]. split; [done|].
      split; [apply quiet_refl | done].
Qed.

Lemma sorted_above k l :
  StronglySorted key_le l → Forall (λ e, k ≤ e.1) l →
  match l with e :: _ => e.1 ≠ k | [] => True end →
  Forall (λ e, k < e.1) l.
Proof.
  intros Hs Hge Hhd. destruct l as [|e l]; [done|].
  apply StronglySorted_inv in Hs as [_ Hall].
  apply Forall_cons in Hge as [He _].
  constructor; [lia|]. eapply Forall_impl; [exact Hall|].
  unfold key_le. intros; lia.
Qed.

(** One pass over the heap: the Works are evaluated in strictly increasing
    order of their ids, all greater than [lo]; and something is evaluated
    when the heap has an entry. *)
Lemma run_heap_evals n : ∀ ws s ws' s' lo hi,
  run_heap n ws s = Ok (ws', s') →
  heap_inv lo hi s (q ws) →
  ∃ evs,
    evals s' = evals s ++ evs ∧
    StronglySorted Z.lt evs.*2 ∧
    Forall (λ e, lo < e.2 ∧ ∃ w, works s !! e.1 = Some w ∧ id w = e.2) evs ∧
    (q ws ≠ [] → evs ≠ []) ∧
    survivors s s' ∧
    tombstone (graph s') = tombstone (graph s).
Proof.
  induction n as [|n IH]; intros ws s ws' s' lo hi H Hh; [done|].
  simpl in H. destruct (q ws) as [|[k0 a] rest] eqn:Hq.
  { inversion H; subst. exists []. rewrite app_nil_r.
    split; [done|]. split; [constructor|]. split; [constructor|].
    split; [done|]. split; [|done]. intros b w' Hw'. eauto using static_refl. }
  apply bind_Ok in H as (work & ? & [Hw ->]%get_work_Ok & H).
  apply bind_Ok in H as ([st rest'] & s1 & H1 & H).
  apply bind_Ok in H as (? & s2 & [= <- <-] & H).
  apply bind_Ok in H as (ws2 & s3 & H3 & H).
  apply bind_Ok in H as (? & s4 & H4 & H).
  destruct Hh as [Hs Hk Hi].
  apply StronglySorted_inv in Hs as [Hs Hall].
  apply Forall_cons in Hk as [[Hk0 Hid] Hk]. simpl in Hk0, Hid.
  specialize (Hid _ Hw). subst k0.
  destruct (drop_duplicates_spec _ _ _ _ _ _ _ H1)
    as (dups & -> & _ & _ & _ & Q1 & Hhd).
  assert (heap_inv (id work) hi s1 rest') as Hh1.
  { apply (heap_inv_survivors _ _ s); [by apply quiet_survivors|].
    apply heap_inv_raise with lo.
    - split; [| |done].
      + by apply StronglySorted_app_1_r in Hs.
      + by apply Forall_app in Hk as [_ Hk].
    - apply sorted_above; [by apply StronglySorted_app_1_r in Hs | | done].
      apply Forall_app in Hall as [_ Hall]. exact Hall. }
  set (s2 := with_evals (evals s1 ++ [(a, id work)]) s1) in *.
  assert (heap_inv (id work) hi s2 rest') as Hh2.
  { apply (heap_inv_survivors _ _ s1); [|done].
    intros b w' Hw'. eauto using static_refl. }
  destruct (Work_eval_inv _ _ _ _ _ H3) as (E3 & C3 & I3). simpl in C3, I3.
  apply I3 in Hh2.
  pose proof (intrusive_ptr_release_quiet _ _ _ _ H4) as Q4.
  apply (heap_inv_evolves _ _ _ _ _ (quiet_evolves _ _ Q4)) in Hh2.
  destruct (IH _ _ _ _ _ _ H Hh2) as (evs & Hev & Hsorted & Hall' & _ & Hsurv & Ht).
  assert (survivors s s4) as Hs4.
  { apply survivors_trans with s1; [by apply quiet_survivors|].
    apply survivors_trans with s3;
      [by apply evolves_survivors in E3 | by apply quiet_survivors]. }
  exists ((a, id work) :: evs). split; [|split; [|split; [|split; [|split]]]].
  - rewrite Hev, (evolves_evals _ _ (quiet_evolves _ _ Q4)), (evolves_evals _ _ E3).
    simpl. rewrite (evolves_evals _ _ (quiet_evolves _ _ Q1)).
    by rewrite <- app_assoc.
  - simpl. constructor; [done|].
    apply Forall_fmap. eapply Forall_impl; [exact Hall'|]. simpl. intros e [? _]. done.
  - constructor; [simpl; split; [lia | eauto]|].
    eapply Forall_impl; [exact Hall'|]. simpl.
    intros e [Hlt (w4 & Hw4 & Hid4)]. split; [lia|].
    destruct (Hs4 _ _ Hw4) as (w0 & Hw0 & [Hid0 _]). exists w0. split; [done|]. congruence.
  - done.
  - by eapply survivors_trans.
  - rewrite Ht, (evolves_tombstone _ _ (quiet_evolves _ _ Q4)), (evolves_tombstone _ _ E3).
    simpl. apply (evolves_tombstone _ _ (quiet_evolves _ _ Q1)).
Qed.

(** The ids of a store are bounded. *)
Lemma ids_bounded (m : gmap Z (Work (V:=V))) :
  ∃ lo hi, ∀ a w, m !! a = Some w → lo < id w < hi.
Proof.
  induction m as [|a0 w0 m Hfresh IH] using map_ind.
  - exists 0, 0. intros a w. by rewrite lookup_empty.
  - destruct IH as (lo & hi & IH).
    exists (Z.min lo (id w0 - 1)), (Z.max hi (id w0 + 1)). intros a w.
    rewrite lookup_insert_Some. intros [[-> ->]|[_ Hw]]; [lia|].
    apply IH in Hw. lia.
Qed.

Lemma pq_push_nonempty e l : pq_push e l ≠ [].
Proof. destruct l; simpl; [done|]. by destruct (_ <? _). Qed.

(** Draining the intake queue reads the store and fills the heap. *)
Lemma drain_inv n : ∀ h ws s ws' s',
  drain n h ws s = Ok (ws', s') →
  s' = s ∧ current_id ws' = current_id ws ∧
  (h ≠ tombstone (graph s) ∨ q ws ≠ [] → q ws' ≠ []) ∧
  ∀ lo hi, (∀ a w, works s !! a = Some w → lo < id w) →
           heap_inv lo hi s (q ws) → heap_inv lo hi s (q ws').
Proof.
  induction n as [|n IH]; intros h ws s ws' s' H; [done|].
  simpl in H. apply bind_Ok in H as (t & ? & [= <- <-] & H).
  destruct (Z.eqb_spec h (tombstone (graph s))) as [->|Hne].
  { inversion H; subst. split; [done|]. split; [done|].
    split; [by intros [?|?] | done]. }
  apply bind_Ok in H as (work & ? & [Hw ->]%get_work_Ok & H).
  apply bind_Ok in H as (nxt & s1 & H1 & H).
  unfold readnext in H1.
  rewrite (bind_run _ _ _ _ _ (get_work_run _ _ _ Hw)) in H1.
  inversion H1; subst.
  apply IH in H as (-> & C & Hq & Hh). simpl in *.
  split; [done|]. split; [done|]. split.
  - intros _. apply Hq. right. apply pq_push_nonempty.
  - intros lo hi Hlo Hinv. apply Hh; [done|].
    apply heap_inv_push; [done | done | eauto].
Qed.

(** A pass logs the Works it evaluates in strictly increasing order of
    their ids, it evaluates something exactly when it answers [true], and
    it answers [false] exactly when it finds the intake queue empty. *)
Lemma evaluate_evals n st s b st' s' :
  evaluate n st s = Ok ((b, st'), s') →
  ∃ evs,
    evals s' = evals s ++ evs ∧
    StronglySorted Z.lt evs.*2 ∧
    Forall (λ e, ∃ w, works s !! e.1 = Some w ∧ id w = e.2) evs ∧
    (b = false ↔ work_queue (graph s) = tombstone (graph s)) ∧
    (b = false ↔ evs = []).
Proof.
  unfold evaluate. intros H.
  apply bind_Ok in H as (t & ? & [= <- <-] & H).
  apply bind_Ok in H as (h & ? & [= <- <-] & H).
  apply bind_Ok in H as (? & s0 & [= <- <-] & H).
  destruct (Z.eqb_spec (work_queue (graph s)) (tombstone (graph s))) as [Heq|Hne].
  { inversion H; subst. exists []. simpl. rewrite app_nil_r.
    split; [done|]. split; [constructor|]. split; [constructor|]. done. }
  apply bind_Ok in H as (work1 & s1 & H1 & H).
  apply bind_Ok in H as (work2 & s2 & H2 & [= <- <- <-]).
  destruct (drain_inv _ _ _ _ _ _ H1) as (-> & _ & Hq & Hh). simpl in *.
  destruct (ids_bounded (works s)) as (lo & hi & Hb).
  assert (heap_inv lo hi (with_work_queue (tombstone (graph s)) s) (q work1))
    as Hinv.
  { apply Hh; [intros a w Hw; apply Hb in Hw; lia|].
    split; [constructor | constructor |]. intros a w Hw. apply Hb in Hw. lia. }
  destruct (run_heap_evals _ _ _ _ _ _ _ H2 Hinv)
    as (evs & Hev & Hsorted & Hall & Hne' & _ & _).
  exists evs. split; [done|]. split; [done|]. split.
  - eapply Forall_impl; [exact Hall|]. simpl. intros e [_ He]. exact He.
  - split; [done|]. split; [done|]. intros ->. exfalso.
    apply Hne'; [|done]. apply Hq. by left.
Qed.

(** ** Termination of a pass *)

(** One round of the loop over the heap re-establishes its invariant above
    the id that was just evaluated. *)
Lemma run_heap_step lo hi s a k0 rest work st0 st rest' s1 ws2 s3 u s4 :
  heap_inv lo hi s ((k0, a) :: rest) →
  works s !! a = Some work →
  drop_duplicates (id work) st0 rest s = Ok ((st, rest'), s1) →
  Work_eval a {| q := rest'; stats := st; current_id := id work |}
    (with_evals (evals s1 ++ [(a, id work)]) s1) = Ok (ws2, s3) →
  intrusive_ptr_release a s3 = Ok (u, s4) →
  lo < id work < hi ∧ heap_inv (id work) hi s4 (q ws2).
Proof.
  intros [Hs Hk Hi] Hw H1 H3 H4.
  apply StronglySorted_inv in Hs as [Hs Hall].
  apply Forall_cons in Hk as [[Hk0 Hid] Hk]. simpl in Hk0, Hid.
  specialize (Hid _ Hw). subst k0. split; [done|].
  destruct (drop_duplicates_spec _ _ _ _ _ _ _ H1)
    as (dups & -> & _ & _ & _ & Q1 & Hhd).
  assert (heap_inv (id work) hi s1 rest') as Hh1.
  { apply (heap_inv_survivors _ _ s); [by apply quiet_survivors|].
    apply heap_inv_raise with lo.
    - split; [| |done].
      + by apply StronglySorted_app_1_r in Hs.
      + by apply Forall_app in Hk as [_ Hk].
    - apply sorted_above; [by apply StronglySorted_app_1_r in Hs | | done].
      apply Forall_app in Hall as [_ Hall]. exact Hall. }
  assert (heap_inv (id work) hi (with_evals (evals s1 ++ [(a, id work)]) s1) rest')
    as Hh2.
  { apply (heap_inv_survivors _ _ s1); [|done].
    intros b w' Hw'. eauto using static_refl. }
  destruct (Work_eval_inv _ _ _ _ _ H3) as (E3 & C3 & I3). simpl in C3, I3.
  apply I3 in Hh2.
  pose proof (intrusive_ptr_release_quiet _ _ _ _ H4) as Q4.
  by apply (heap_inv_evolves _ _ _ _ _ (quiet_evolves _ _ Q4)) in Hh2.
Qed.

(** The loop over the heap ends: every round evaluates a greater id. *)
Lemma run_heap_no_timeout n : ∀ ws s lo hi,
  heap_inv lo hi s (q ws) → (Z.to_nat (hi - lo) < n)%nat →
  run_heap n ws s ≠ Timeout.
Proof.
  induction n as [|n IH]; intros ws s lo hi Hinv Hn; [lia|].
  simpl. destruct (q ws) as [|[k0 a] rest] eqn:Hq; [done|].
  unfold mbind at 1, M_bind at 1.
  destruct (get_work a s) as [[work ?]| |] eqn:E0;
    [|done|by apply total_get_work in E0].
  apply get_work_Ok in E0 as [Hw ->].
  unfold mbind at 1, M_bind at 1.
  destruct (drop_duplicates (id work) (stats ws) rest s) as [[[st rest'] s1]| |] eqn:E1;
    [|done|by apply total_drop_duplicates in E1].
  unfold mbind at 1, M_bind at 1, log_eval at 1, modify at 1.
  unfold mbind at 1, M_bind at 1.
  destruct (Work_eval a _ _) as [[ws2 s3]| |] eqn:E3;
    [|done|by apply total_Work_eval in E3].
  unfold mbind at 1, M_bind at 1.
  destruct (intrusive_ptr_release a s3) as [[u s4]| |] eqn:E4;
    [|done|by apply total_intrusive_ptr_release in E4].
  destruct (run_heap_step _ _ _ _ _ _ _ _ _ _ _ _ _ _ _ Hinv Hw E1 E3 E4)
    as [Hr Hinv'].
  apply (IH _ _ (id work) hi); [exact Hinv' | lia].
Qed.

(** ** The intake queue as a list *)

Lemma drain_chain n : ∀ h l ws s,
  chain s h l → (length l < n)%nat →
  drain n h ws s = Ok (drained s l ws, s).
Proof.
  induction n as [|n IH]; intros h l ws s Hc Hn; [lia|].
  simpl. unfold mbind at 1, M_bind at 1, gets at 1.
  destruct l as [|a l]; simpl in Hc.
  - subst h. by rewrite Z.eqb_refl.
  - destruct Hc as (-> & Hne & w & Hw & Hc).
    destruct (Z.eqb_spec a (tombstone (graph s))) as [|_]; [done|].
    rewrite (bind_run _ _ _ _ _ (get_work_run _ _ _ Hw)).
    unfold readnext.
    unfold mbind at 1, M_bind at 1.
    rewrite (bind_run _ _ _ _ _ (get_work_run _ _ _ Hw)).
    simpl. rewrite Hw. apply IH; [exact Hc | simpl in Hn; lia].
Qed.

Lemma drained_pointers s : ∀ l ws,
  (∀ a, a ∈ l → is_Some (works s !! a)) →
  (q (drained s l ws)).*2 ≡ₚ l ++ (q ws).*2.
Proof.
  induction l as [|a l IH]; intros ws Hl; [done|]. simpl.
  destruct (Hl a) as [w Hw]; [by left|]. rewrite Hw.
  rewrite IH by (intros b Hb; apply Hl; by right). simpl.
  rewrite pq_push_Permutation. simpl.
  by rewrite Permutation_middle.
Qed.

Lemma chain_live s : ∀ l h a,
  chain s h l → a ∈ l → is_Some (works s !! a).
Proof.
  induction l as [|b l IH]; intros h a Hc Ha; [by apply elem_of_nil in Ha|].
  destruct Hc as (-> & _ & w & Hw & Hc).
  apply elem_of_cons in Ha as [->|Ha]; [eauto | by eapply IH].
Qed.

(** A pass over a well-linked intake queue ends. *)
Lemma evaluate_no_timeout st s l :
  chain s (work_queue (graph s)) l →
  ∃ n0, ∀ n, (n0 ≤ n)%nat → evaluate n st s ≠ Timeout.
Proof.
  intros Hc. destruct (ids_bounded (works s)) as (lo & hi & Hb).
  exists (S (length l) + S (Z.to_nat (hi - lo)))%nat. intros n Hn.
  unfold evaluate.
  unfold mbind at 1, M_bind at 1, gets at 1.
  unfold mbind at 1, M_bind at 1, gets at 1.
  unfold mbind at 1, M_bind at 1, modify at 1.
  destruct (_ =? _); [done|].
  set (s0 := with_work_queue (tombstone (graph s)) s).
  assert (chain s0 (work_queue (graph s)) l) as Hc0.
  { clear -Hc. revert Hc. generalize (work_queue (graph s)).
    induction l as [|a l IH]; intros h Hc; [done|].
    destruct Hc as (-> & Hne & w & Hw & Hc). split; [done|]. split; [done|].
    exists w. split; [done|]. by apply IH. }
  assert (drain n (work_queue (graph s))
            {| q := []; stats := (λ _, EmptyStats) <$> st; current_id := 0 |} s0
          = Ok (drained s0 l
                  {| q := []; stats := (λ _, EmptyStats) <$> st; current_id := 0 |},
                s0)) as Hd.
  { apply drain_chain; [exact Hc0 | lia]. }
  unfold mbind at 1, M_bind at 1. rewrite Hd.
  destruct (drain_inv _ _ _ _ _ _ Hd) as (_ & _ & _ & Hh).
  assert (heap_inv lo hi s0 (q (drained s0 l
            {| q := []; stats := (λ _, EmptyStats) <$> st; current_id := 0 |})))
    as Hinv.
  { apply Hh; [intros a w Hw; apply Hb in Hw; lia|].
    split; [constructor | constructor |]. intros a w Hw. apply Hb in Hw. lia. }
  unfold mbind, M_bind.
  destruct (run_heap n _ s0) as [[ws' s']| |] eqn:E; [done | done |].
  exfalso. revert E. eapply run_heap_no_timeout; [exact Hinv | lia].
Qed.

Lemma sorted_lt_lookup (l : list Z) :
  StronglySorted Z.lt l →
  ∀ i j x y, (i < j)%nat → l !! i = Some x → l !! j = Some y → x < y.
Proof.
  induction 1 as [|z l Hs IH Hall]; intros i j x y Hij Hi Hj; [done|].
  destruct j as [|j]; [lia|]. simpl in Hj.
  destruct i as [|i]; simpl in Hi.
  - inversion Hi; subst. rewrite Forall_forall in Hall.
    apply Hall. by eapply list_elem_of_lookup_2.
  - eapply IH; [|done..]. lia.
Qed.

Lemma sorted_lt_NoDup (l : list Z) : StronglySorted Z.lt l → NoDup l.
Proof.
  induction 1 as [|z l Hs IH Hall]; constructor; [|done].
  rewrite Forall_forall in Hall. intros Hz%Hall. lia.
Qed.

(** ** Order of evaluation within a pass *)

(** C2: within one call of [Graph::operator()], the Works are evaluated in
    strictly increasing order of their ids: the eval log of the pass lists
    Works of the store with their ids, and an entry logged later carries a
    greater id than one logged earlier. *)
Theorem evaluate_ids_strictly_increase n st s b st' s' :
  evaluate n st s = Ok ((b, st'), s') →
  ∃ evs,
    evals s' = evals s ++ evs ∧
    Forall (λ e, ∃ w, works s !! e.1 = Some w ∧ id w = e.2) evs ∧
    ∀ i j e e', (i < j)%nat → evs !! i = Some e → evs !! j = Some e' →
                e.2 < e'.2.
Proof.
  intros H. destruct (evaluate_evals _ _ _ _ _ _ H)
    as (evs & Hev & Hsorted & Hall & _ & _).
  exists evs. split; [done|]. split; [done|].
  intros i j e e' Hij Hi Hj.
  apply (sorted_lt_lookup _ Hsorted i j); [done | |];
    rewrite list_lookup_fmap; [by rewrite Hi | by rewrite Hj].
Qed.

Lemma with_work_queue_id s :
  with_work_queue (work_queue (graph s)) s = s.
Proof. by destruct s as [? ? [] ? ?]. Qed.

(** ** The propagation policies *)

(** C6: called on [v] with [p] as the last propagated value, [OnChange]
    answers [p != v], and [v] is the last propagated value afterwards. *)
Theorem OnChange_answers_changed (p v : V) :
  (Propagate_call (OnChange {| val := p |}) v).1 = not_equal p v ∧
  (Propagate_call (OnChange {| val := p |}) v).2 = OnChange {| val := v |}.
Proof. split; reflexivity. Qed.

(** ** The exclusion flag on the failure path *)

(** C10: [trylock_and_dequeue] on a Work whose exclusion flag is held
    fails, yet the exchange has cleared the queue-pointer bits and left the
    flag set.  [Node::eval] then does nothing but [add_to_queue] on itself;
    with [current_id] at the id of the Node this puts the Node back on the
    intake queue, flag still set, and counts it in [pushed_graph]. *)
Theorem trylock_and_dequeue_failure a ws s w :
  works s !! a = Some w →
  lock_bit (next w) = 1 →
  id w ≤ current_id ws →
  aligned (work_queue (graph s)) →
  let s1 := set_work a (with_next flags.LOCK w) s in
  trylock_and_dequeue a s = Ok (false, s1) ∧
  (∃ w1, works s1 !! a = Some w1 ∧
         pointer_bits (next w1) = 0 ∧ lock_bit (next w1) = 1) ∧
  Node_eval a ws s = add_to_queue a ws s1 ∧
  ∃ s2 w2,
    Node_eval a ws s = Ok (with_stats (incr_pushed_graph (stats ws)) ws, s2) ∧
    work_queue (graph s2) = a ∧
    works s2 !! a = Some w2 ∧
    pointer_bits (next w2) = work_queue (graph s) ∧
    lock_bit (next w2) = 1.
Proof.
  intros Hw Hlock Hid Hal s1.
  assert (trylock_and_dequeue a s = Ok (false, s1)) as Htry.
  { rewrite (trylock_and_dequeue_run _ _ _ Hw).
    rewrite bool_decide_eq_false_2; [done | lia]. }
  assert (Node_eval a ws s = add_to_queue a ws s1) as Heval.
  { unfold Node_eval. by rewrite (bind_run _ _ _ _ _ Htry). }
  split; [done|]. split; [|split; [done|]].
  { eexists. split; [apply set_work_lookup | done]. }
  rewrite Heval. unfold add_to_queue. subst s1.
  rewrite (bind_run _ _ _ _ _ (get_work_run _ _ _ (set_work_lookup _ _ _))).
  simpl. destruct (Z.leb_spec (id w) (current_id ws)) as [_|]; [|lia].
  edestruct (schedule_enqueue a (set_work a (with_next flags.LOCK w) s)
               (with_next flags.LOCK w)) as [l Hl];
    [apply set_work_lookup | done | done |].
  rewrite (bind_run _ _ _ _ _ Hl).
  eexists _, _. split; [done|]. split; [done|].
  split; [apply lookup_insert_eq|]. simpl.
  split; [apply pointer_bits_lor | apply lock_bit_lor]; auto.
Qed.

(** ** Scheduling twice *)

Lemma chain_frame s s' : ∀ l h,
  (∀ b, b ∈ l → works s' !! b = works s !! b) →
  tombstone (graph s') = tombstone (graph s) →
  chain s h l → chain s' h l.
Proof.
  induction l as [|b l IH]; intros h Hl Ht Hc; simpl in *; [congruence|].
  destruct Hc as (-> & Hne & w & Hw & Hc).
  split; [done|]. split; [congruence|]. exists w.
  split; [rewrite Hl; [done | by left]|].
  apply IH; [|done|done]. intros c Hc'. apply Hl. by right.
Qed.

Lemma chain_head_nonzero s h l :
  tombstone (graph s) ≠ 0 → works s !! 0 = None → chain s h l → h ≠ 0.
Proof.
  intros Ht H0 Hc. destruct l as [|b l]; simpl in Hc; [congruence|].
  destruct Hc as (-> & _ & w & Hw & _). intros ->. congruence.
Qed.

(** A Work whose queue-pointer bits are null is not linked. *)
Lemma chain_not_queued s a w :
  tombstone (graph s) ≠ 0 → works s !! 0 = None →
  works s !! a = Some w → pointer_bits (next w) = 0 →
  ∀ l h, chain s h l → a ∉ l.
Proof.
  intros Ht H0 Hw Hp. induction l as [|b l IH]; intros h Hc.
  - apply not_elem_of_nil.
  - destruct Hc as (-> & _ & w' & Hw' & Hc).
    apply not_elem_of_cons. split; [|by eapply IH].
    intros ->. assert (w' = w) as -> by congruence.
    rewrite Hp in Hc. by apply (chain_head_nonzero _ _ _ Ht H0) in Hc.
Qed.

(** C5: [Work::schedule] is idempotent.  On a Work that is on the intake
    queue (queue-pointer bits non-null when first inspected) it returns with
    the store, and so the queue and the reference count, as they were.
    Consequently, scheduling a Work twice leaves the state that scheduling it
    once leaves, in which the Work is linked once, and the next pass drains
    it once. *)
Theorem schedule_idempotent a s w l :
  works s !! a = Some w →
  0 ≤ refcount w < 2 ^ fast16_bits →
  aligned (work_queue (graph s)) →
  tombstone (graph s) ≠ 0 → works s !! 0 = None →
  a ≠ tombstone (graph s) →
  chain s (work_queue (graph s)) l →
  (pointer_bits (next w) ≠ 0 → refcount w ≠ 0 → schedule a s = Ok (tt, s)) ∧
  (pointer_bits (next w) = 0 → refcount w + 1 < 2 ^ fast16_bits →
   ∃ s1,
     schedule a s = Ok (tt, s1) ∧
     (schedule a;; schedule a) s = Ok (tt, s1) ∧
     chain s1 (work_queue (graph s1)) (a :: l) ∧
     (a ∉ l) ∧
     (∀ ws, ∃ ws',
        drain (S (S (length l))) (work_queue (graph s1)) ws s1 = Ok (ws', s1) ∧
        (q ws').*2 ≡ₚ a :: (l ++ (q ws).*2))).
Proof.
  intros Hw Hr Hal Ht H0 Hne Hc. split.
  { intros Hp Hr0. apply (schedule_queued _ _ w); [done | done | lia]. }
  intros Hp Hr1.
  pose proof (chain_head_nonzero _ _ _ Ht H0 Hc) as Hh.
  pose proof (chain_not_queued _ _ _ Ht H0 Hw Hp _ _ Hc) as Hnotin.
  destruct (schedule_enqueue _ _ _ Hw Hp Hal) as [o Hs1].
  set (w1 := with_next (Z.lor (work_queue (graph s)) (lock_bit (next w)))
               (with_refcount (wrap fast16_bits (refcount w + 1)) w)).
  set (s1 := enqueued a (with_refcount (wrap fast16_bits (refcount w + 1)) w)
               (work_queue (graph s)) o s) in *.
  assert (works s1 !! a = Some w1) as Hw1 by apply lookup_insert_eq.
  assert (pointer_bits (next w1) = work_queue (graph s)) as Hp1.
  { simpl. apply pointer_bits_lor; [done | apply lock_bit_cases]. }
  assert (chain s1 (work_queue (graph s1)) (a :: l)) as Hc1.
  { simpl. split; [done|]. split; [done|]. exists w1. split; [done|].
    rewrite Hp1. apply (chain_frame s); [|done|done].
    intros b Hb. simpl. apply lookup_insert_ne. intros ->. done. }
  exists s1. split; [done|]. split; [|split; [done|split; [done|]]].
  - rewrite (bind_run _ _ _ _ _ Hs1).
    apply (schedule_queued _ _ w1); [done | by rewrite Hp1 |].
    simpl. rewrite wrap_small; lia.
  - intros ws. exists (drained s1 (a :: l) ws). split.
    + apply drain_chain; [done | simpl; lia].
    + apply drained_pointers. intros b Hb. by eapply chain_live.
Qed.

(** ** Disconnecting *)

Lemma forward_list_remove_filter (a : Input) l :
  forward_list_remove a l = filter (λ b, in_ b ≠ in_ a) l.
Proof.
  unfold forward_list_remove. apply list_filter_iff. intros b.
  unfold Input_eq. by rewrite bool_decide_eq_false.
Qed.

Lemma filter_all {A} (Q : A → Prop) `{!∀ x, Decision (Q x)} (l : list A) :
  Forall Q l → filter Q l = l.
Proof.
  induction 1 as [|x l Hx Hl IH]; [done|].
  rewrite filter_cons_True by done. by rewrite IH.
Qed.


Lemma spin_trylock_run n a s w :
  works s !! a = Some w → lock_bit (next w) = 0 → (0 < n)%nat →
  spin_trylock n a s
    = Ok (tt, set_work a (with_next (Z.lor (next w) flags.LOCK) w) s).
Proof.
  intros Hw Hl Hn. destruct n as [|n]; [lia|]. simpl.
  rewrite (bind_run _ _ _ _ _ (trylock_run _ _ _ Hw)).
  by rewrite bool_decide_eq_true_2.
Qed.


(** ** Suppressed propagation *)

(** An evaluation whose policy answers [false]: the Node takes and gives
    back its exclusion flag and only the policy's state is new. *)
Lemma Node_eval_suppressed a ws s w nd policy :
  works s !! a = Some w → kind w = NodeOf nd →
  lock_bit (next w) = 0 →
  Propagate_call (propagate nd) (call_fn nd) = (false, policy) →
  Node_eval a ws s
    = Ok (ws, set_work a (with_kind (NodeOf (with_propagate policy nd))
                            (with_next 0 w)) s).
Proof.
  intros Hw Hk Hl Hp. unfold Node_eval.
  rewrite (bind_run _ _ _ _ _ (trylock_and_dequeue_run _ _ _ Hw)).
  rewrite bool_decide_eq_true_2 by done. simpl.
  rewrite (bind_run _ _ _ _ _
             (get_node_run a _ (with_next flags.LOCK w) nd
                (set_work_lookup _ _ _) Hk)).
  rewrite Hp.
  rewrite (bind_run _ _ _ _ _
             (put_node_run a (with_next flags.LOCK w) _ _ (set_work_lookup _ _ _))).
  unfold mbind at 1, M_bind at 1, mret at 1, M_ret at 1.
  rewrite (bind_run _ _ _ _ _ (release_run a _ _ (set_work_lookup _ _ _))).
  by rewrite !set_work_set_work.
Qed.

(** Writing to an input the value it holds changes nothing. *)
Lemma store_at_same a k v s w nd c :
  works s !! a = Some w → kind w = NodeOf nd →
  inputs nd !! k = Some c → val c = v →
  store_at (InputSlot a k) v s = Ok (tt, s).
Proof.
  intros Hw Hk Hc Hv. simpl.
  rewrite (bind_run _ _ _ _ _ (get_node_run _ _ _ _ Hw Hk)), Hc.
  rewrite (put_node_run _ _ _ _ Hw). do 2 f_equal.
  apply set_work_id. rewrite Hw. f_equal.
  assert (Value_store v c = c) as -> by (destruct c; simpl in *; by subst).
  rewrite list_insert_id by done.
  destruct w as [i r nx kd]. simpl in *. subst kd.
  unfold with_kind, with_inputs. simpl. by destruct nd.
Qed.

(** The same value written to an input of an idle [OnChange] Node whose
    last propagated value is the result for its inputs: the pass that
    follows evaluates this Node and nothing else, and leaves the store as it
    was before the write. *)
Lemma evaluate_same_value n st a k v s w nd c last :
  work_queue (graph s) = tombstone (graph s) →
  aligned (tombstone (graph s)) → a ≠ tombstone (graph s) →
  works s !! a = Some w → kind w = NodeOf nd → next w = 0 →
  0 < refcount w → refcount w + 1 < 2 ^ fast16_bits →
  propagate nd = OnChange last →
  inputs nd !! k = Some c → val c = v →
  val last = call_fn nd →
  not_equal (call_fn nd) (call_fn nd) = false →
  (2 ≤ n)%nat →
  ∃ o,
    (Input_append (Node_input a k) v;; evaluate n st) s
      = Ok ((true, incr_worked (incr_queued ((λ _, EmptyStats) <$> st))),
            with_spurious o (with_evals (evals s ++ [(a, id w)]) s)).
Proof.
  intros Hq Hal Hne Hw Hk Hnx Hr0 Hr1 Hpol Hc Hv Hlast Hirr Hn.
  assert (pointer_bits (next w) = 0) as Hp by (by rewrite Hnx).
  assert (aligned (work_queue (graph s))) as Hal' by (by rewrite Hq).
  destruct (schedule_enqueue _ _ _ Hw Hp Hal') as [o Hs].
  exists o.
  assert (Input_append (Node_input a k) v s
          = Ok (tt, enqueued a (with_refcount (wrap fast16_bits (refcount w + 1)) w)
                      (work_queue (graph s)) o s)) as Happ.
  { unfold Input_append. simpl ref. simpl in_.
    by rewrite (bind_run _ _ _ _ _ (store_at_same _ _ _ _ _ _ _ Hw Hk Hc Hv)). }
  rewrite (bind_run _ _ _ _ _ Happ). clear Happ Hs.
  destruct n as [|[|n]]; [lia | lia |].
  destruct s as [wk cl [i h t] sp ev]. simpl in *. subst h.
  set (w1 := with_next t (with_refcount (refcount w + 1) w)).
  assert (enqueued a (with_refcount (wrap fast16_bits (refcount w + 1)) w) t o
            {| works := wk; cells := cl;
               graph := {| ids := i; work_queue := t; tombstone := t |};
               spurious := sp; evals := ev |}
          = {| works := <[a:=w1]> wk; cells := cl;
               graph := {| ids := i; work_queue := a; tombstone := t |};
               spurious := o; evals := ev |}) as ->.
  { unfold enqueued. simpl. rewrite wrap_small by lia. rewrite Hnx.
    change (lock_bit 0) with 0. by rewrite Z.lor_0_r. }
  set (s2 := {| works := <[a:=w1]> wk; cells := cl;
                graph := {| ids := i; work_queue := t; tombstone := t |};
                spurious := o; evals := ev |}).
  assert (works s2 !! a = Some w1) as Hw1 by apply lookup_insert_eq.
  assert (chain s2 a [a]) as Hchain.
  { simpl. split; [done|]. split; [done|]. exists w1. split; [done|].
    simpl. by apply pointer_bits_lock_free. }
  unfold evaluate.
  unfold mbind at 1, M_bind at 1, gets at 1.
  unfold mbind at 1, M_bind at 1, gets at 1.
  unfold mbind at 1, M_bind at 1, modify at 1.
  cbn [tombstone work_queue graph].
  destruct (Z.eqb_spec a t) as [|_]; [done|].
  change (with_work_queue t _) with s2.
  unfold mbind at 1, M_bind at 1.
  rewrite (drain_chain (S (S n)) a [a] _ s2 Hchain) by (simpl; lia).
  cbn [drained]. rewrite Hw1.
  set (st1 := incr_queued ((λ _, EmptyStats) <$> st)).
  change (with_stats _ _)
    with {| q := [(id w, a)]; stats := st1; current_id := 0 |}.
  assert (run_heap (S (S n)) {| q := [(id w, a)]; stats := st1; current_id := 0 |} s2
          = Ok ({| q := []; stats := incr_worked st1; current_id := id w |},
                {| works := wk; cells := cl;
                   graph := {| ids := i; work_queue := t; tombstone := t |};
                   spurious := o; evals := ev ++ [(a, id w)] |})) as Hrun.
  { cbn [run_heap q].
    rewrite (bind_run _ _ _ _ _ (get_work_run _ _ _ Hw1)).
    cbn [drop_duplicates].
    unfold mbind at 1, M_bind at 1, mret at 1, M_ret at 1.
    unfold mbind at 1, M_bind at 1, log_eval at 1, modify at 1.
    set (s3 := with_evals _ s2).
    assert (works s3 !! a = Some w1) as Hw3 by apply lookup_insert_eq.
    assert (Work_eval a {| q := []; stats := st1; current_id := id w1 |} s3
            = Ok ({| q := []; stats := st1; current_id := id w1 |},
                  set_work a (with_next 0 w1) s3)) as Heval.
    { unfold Work_eval.
      rewrite (bind_run _ _ _ _ _ (get_work_run _ _ _ Hw3)).
      cbn [kind w1 with_next with_refcount]. rewrite Hk.
      rewrite (Node_eval_suppressed a _ s3 w1 nd (OnChange last) Hw3);
        [|exact Hk | exact Hal | ].
      - do 3 f_equal. destruct w as [wi wr wn wkd]. simpl in *. subst wkd.
        unfold with_kind, with_next, w1. simpl. f_equal. f_equal.
        destruct nd. simpl in *. by subst.
      - rewrite Hpol. simpl. rewrite Hlast, Hirr.
        do 2 f_equal. destruct last. simpl in *. by subst. }
    rewrite (bind_run _ _ _ _ _ Heval).
    assert (wrap fast16_bits (refcount (with_next 0 w1) - 1) = refcount w) as Hrc.
    { simpl. replace (refcount w + 1 - 1) with (refcount w) by lia.
      apply wrap_small. lia. }
    rewrite (bind_run _ _ _ _ _
               (intrusive_ptr_release_run a _ (with_next 0 w1)
                  (set_work_lookup _ _ _) ltac:(rewrite Hrc; lia))).
    rewrite Hrc. cbn [run_heap q with_stats]. unfold mret, M_ret.
    do 2 f_equal. unfold set_work, with_works, s3, s2, with_evals. simpl.
    rewrite !insert_insert_eq. f_equal.
    apply insert_id. rewrite Hw. f_equal.
    destruct w. simpl in *. by subst. }
  unfold mbind, M_bind.
  change (run_heap (S (S n)) _ s2)
    with (run_heap (S (S n))
            {| q := [(id w, a)]; stats := st1; current_id := 0 |} s2).
  rewrite Hrun. reflexivity.
Qed.

(** C8, as the code has it: when the policy answers [false] for the new
    result, [Node::eval] writes no Value slot and adds no Work to the
    WorkState: the WorkState, the caller's cells, the Graph, every other
    Work, and the inputs, dependents and reference count of the Node itself
    are as before.  In particular, when an idle [OnChange] Node of an idle
    Graph is given the value one of its inputs already holds, its last
    propagated value is the result for its inputs, and [!=] answers [false]
    on that result against itself, the pass evaluates this Node alone and
    leaves the store as it was before the write.  Without the condition on
    the last propagated value the Nodes downstream are evaluated. *)
Theorem suppressed_propagation_changes_nothing :
  (∀ a ws s w nd policy,
     works s !! a = Some w → kind w = NodeOf nd →
     lock_bit (next w) = 0 →
     Propagate_call (propagate nd) (call_fn nd) = (false, policy) →
     ∃ s', Node_eval a ws s = Ok (ws, s') ∧
           cells s' = cells s ∧ graph s' = graph s ∧
           (∀ b, b ≠ a → works s' !! b = works s !! b) ∧
           ∃ w' nd', works s' !! a = Some w' ∧ kind w' = NodeOf nd' ∧
                     inputs nd' = inputs nd ∧
                     dependents nd' = dependents nd ∧
                     refcount w' = refcount w) ∧
  (∀ n st a k v s w nd c last,
     work_queue (graph s) = tombstone (graph s) →
     aligned (tombstone (graph s)) → a ≠ tombstone (graph s) →
     works s !! a = Some w → kind w = NodeOf nd → next w = 0 →
     0 < refcount w → refcount w + 1 < 2 ^ fast16_bits →
     propagate nd = OnChange last →
     inputs nd !! k = Some c → val c = v →
     val last = call_fn nd →
     not_equal (call_fn nd) (call_fn nd) = false →
     (2 ≤ n)%nat →
     ∃ o,
       (Input_append (Node_input a k) v;; evaluate n st) s
         = Ok ((true, incr_worked (incr_queued ((λ _, EmptyStats) <$> st))),
               with_spurious o (with_evals (evals s ++ [(a, id w)]) s))).
Proof.
  split.
  - intros a ws s w nd policy Hw Hk Hl Hp.
    eexists. split; [by apply (Node_eval_suppressed a ws s w nd policy)|].
    split; [done|]. split; [done|]. split.
    + intros b Hb. by apply set_work_lookup_ne.
    + eexists _, _. split; [apply set_work_lookup|]. done.
  - intros. by eapply evaluate_same_value.
Qed.

(** ** A pass over a graph built upstream first *)

Lemma topological_survivors s s' :
  survivors s s' → topological s → topological s'.
Proof.
  intros Hs Ht a w' nd' i r wr' Hw' Hk' Hi Hr Hwr'.
  destruct (Hs _ _ Hw') as (w & Hw & [Hid Hshape]).
  destruct (Hs _ _ Hwr') as (wr & Hwr & [Hidr _]).
  rewrite Hk' in Hshape. destruct (kind w) as [|nd] eqn:Hk; [done|].
  destruct Hshape as (_ & Hdeps & _). rewrite Hid, Hidr.
  eapply (Ht a w nd i r wr); eauto. by rewrite <- Hdeps.
Qed.

Lemma unlocked_quiet s s' : quiet s s' → unlocked s → unlocked s'.
Proof.
  intros Q Hu a w' Hw'.
  destruct (quiet_survivors _ _ Q _ _ Hw') as (w & Hw & _).
  rewrite (quiet_next _ _ Q _ _ _ Hw Hw'). eauto.
Qed.

Lemma lock_bit_pointer_bits n : lock_bit (pointer_bits n) = 0.
Proof.
  unfold lock_bit, pointer_bits, flags.LOCK.
  rewrite <- Z.land_assoc. change (Z.land (Z.lnot 1) 1) with 0.
  apply Z.land_0_r.
Qed.

(** Dependents with greater ids all go onto the heap: nothing is scheduled
    and no flag is touched. *)
Lemma notify_quiet deps v : ∀ ws s ws' s',
  (∀ i r wr, i ∈ deps → ref i = Some r → works s !! r = Some wr →
             current_id ws < id wr) →
  notify deps v ws s = Ok (ws', s') → quiet s s'.
Proof.
  induction deps as [|d deps IH]; intros ws s ws' s' Hgt H.
  - inversion H; subst. apply quiet_refl.
  - simpl in H. apply bind_Ok in H as (? & s1 & Q1%store_at_quiet & H).
    apply bind_Ok in H as (ws2 & s2 & H2 & H).
    assert (quiet s1 s2 ∧ current_id ws2 = current_id ws) as [Q2 C2].
    { destruct (ref d) as [r|] eqn:Hr;
        [|inversion H2; subst; split; [apply quiet_refl | done]].
      unfold add_to_queue in H2.
      apply bind_Ok in H2 as (wr1 & ? & [Hwr1 ->]%get_work_Ok & H2).
      destruct (quiet_survivors _ _ Q1 _ _ Hwr1) as (wr & Hwr & [Hid _]).
      assert (current_id ws < id wr1) as Hlt.
      { rewrite Hid. eapply (Hgt d r wr); [by left | done | done]. }
      destruct (Z.leb_spec (id wr1) (current_id ws)) as [|_]; [lia|].
      apply bind_Ok in H2 as (? & s2' & Q%intrusive_ptr_add_ref_quiet & [= <- <-]).
      done. }
    assert (quiet s s2) as Q12 by (by eapply quiet_trans).
    eapply quiet_trans; [exact Q12|].
    eapply (IH ws2 s2); [|exact H]. rewrite C2.
    intros i r wr2 Hi Hr Hwr2.
    destruct (quiet_survivors _ _ Q12 _ _ Hwr2) as (wr & Hwr & [Hid _]).
    rewrite Hid. eapply (Hgt i r wr); [by right | done | done].
Qed.

Lemma Work_eval_calm a ws s ws' s' w :
  works s !! a = Some w → current_id ws = id w →
  topological s → unlocked s →
  Work_eval a ws s = Ok (ws', s') →
  graph s' = graph s ∧ unlocked s'.
Proof.
  intros Hw Hcur Htopo Hun H. unfold Work_eval in H.
  rewrite (bind_run _ _ _ _ _ (get_work_run _ _ _ Hw)) in H.
  destruct (kind w) as [|nd] eqn:Hk; [done|]. unfold Node_eval in H.
  rewrite (bind_run _ _ _ _ _ (trylock_and_dequeue_run _ _ _ Hw)) in H.
  rewrite bool_decide_eq_true_2 in H by eauto. simpl in H.
  set (w1 := with_next flags.LOCK w) in *.
  set (s1 := set_work a w1 s) in *.
  rewrite (bind_run _ _ _ _ _
             (get_node_run a s1 w1 nd (set_work_lookup _ _ _) Hk)) in H.
  destruct (Propagate_call (propagate nd) (call_fn nd)) as [fire policy].
  rewrite (bind_run _ _ _ _ _
             (put_node_run a w1 _ s1 (set_work_lookup _ _ _))) in H.
  set (w2 := with_kind (NodeOf (with_propagate policy nd)) w1) in *.
  set (s2 := set_work a w2 s1) in *.
  assert (∀ b, b ≠ a → works s2 !! b = works s !! b) as Hother.
  { intros b Hb. unfold s2, s1.
    rewrite !set_work_lookup_ne by done. done. }
  assert (works s2 !! a = Some w2) as Hw2 by apply set_work_lookup.
  apply bind_Ok in H as (ws3 & s3 & H3 & H).
  apply bind_Ok in H as (? & s4 & H4 & [= <- <-]).
  assert (quiet s2 s3) as Q.
  { destruct fire; [|inversion H3; subst; apply quiet_refl].
    eapply notify_quiet; [|exact H3]. rewrite Hcur.
    intros i r wr2 Hi Hr Hwr2.
    destruct (decide (r = a)) as [->|Hra].
    - exfalso. assert (id w < id w); [|lia].
      by eapply (Htopo a w nd i a w).
    - rewrite Hother in Hwr2 by done. by eapply (Htopo a w nd i r wr2). }
  unfold release in H4.
  apply bind_Ok in H4 as (w3 & ? & [Hw3 ->]%get_work_Ok & [= <- <-]).
  split; [simpl; apply (quiet_graph _ _ Q)|].
  intros b wb. simpl. destruct (decide (a = b)) as [<-|Hab].
  - rewrite lookup_insert_eq. intros [= <-]. simpl. apply lock_bit_pointer_bits.
  - rewrite lookup_insert_ne by done. intros Hwb.
    destruct (quiet_survivors _ _ Q _ _ Hwb) as (wb2 & Hwb2 & _).
    rewrite (quiet_next _ _ Q _ _ _ Hwb2 Hwb).
    rewrite Hother in Hwb2 by done. eauto.
Qed.

Lemma run_heap_calm n : ∀ ws s ws' s',
  run_heap n ws s = Ok (ws', s') →
  topological s → unlocked s →
  graph s' = graph s.
Proof.
  induction n as [|n IH]; intros ws s ws' s' H Htopo Hun; [done|].
  simpl in H. destruct (q ws) as [|[k0 a] rest] eqn:Hq.
  { by inversion H; subst. }
  apply bind_Ok in H as (work & ? & [Hw ->]%get_work_Ok & H).
  apply bind_Ok in H as ([st rest'] & s1 & H1 & H).
  apply bind_Ok in H as (? & s2 & [= <- <-] & H).
  apply bind_Ok in H as (ws2 & s3 & H3 & H).
  apply bind_Ok in H as (? & s4 & H4 & H).
  destruct (drop_duplicates_spec _ _ _ _ _ _ _ H1)
    as (dups & _ & _ & _ & _ & Q1 & _).
  set (s2 := with_evals (evals s1 ++ [(a, id work)]) s1) in *.
  assert (topological s2) as Htopo2.
  { apply (topological_survivors s1);
      [intros b wb Hwb; eauto using static_refl|].
    by apply (topological_survivors s); [apply quiet_survivors|]. }
  assert (unlocked s2) as Hun2.
  { intros b wb Hwb. by apply (unlocked_quiet _ _ Q1 Hun b wb). }
  assert (∃ w2, works s2 !! a = Some w2 ∧ id w2 = id work) as (w2 & Hw2 & Hid2).
  { unfold Work_eval in H3.
    apply bind_Ok in H3 as (w2 & ? & [Hw2 ->]%get_work_Ok & _).
    exists w2. split; [done|].
    destruct (quiet_survivors _ _ Q1 _ _ Hw2) as (w0 & Hw0 & [Hid _]).
    congruence. }
  destruct (Work_eval_calm a
              {| q := rest'; stats := st; current_id := id work |} s2 ws2 s3
              w2 Hw2 (eq_sym Hid2) Htopo2 Hun2 H3)
    as [Hg3 Hun3].
  destruct (Work_eval_inv _ _ _ _ _ H3) as (E3 & _ & _).
  pose proof (intrusive_ptr_release_quiet _ _ _ _ H4) as Q4.
  rewrite (IH _ _ _ _ H).
  - rewrite (quiet_graph _ _ Q4), Hg3. simpl. by rewrite (quiet_graph _ _ Q1).
  - apply (topological_survivors s3); [by apply quiet_survivors|].
    by apply (topological_survivors s2); [apply evolves_survivors|].
  - by apply (unlocked_quiet _ _ Q4).
Qed.

(** C9, as the code has it: in a graph where every dependent Work has a
    greater id than the Node it hangs off, and with no exclusion flag held,
    a pass leaves the intake queue empty; a pass that follows at once
    answers [false], reports [queued = 0] and [worked = 0], and changes
    nothing. *)
Theorem second_pass_empty n n' st st' s b st1 s1 :
  topological s → unlocked s →
  evaluate n st s = Ok ((b, st1), s1) →
  ∃ st2,
    evaluate n' (Some st') s1 = Ok ((false, Some st2), s1) ∧
    queued st2 = 0 ∧ worked st2 = 0.
Proof.
  intros Htopo Hun H.
  assert (work_queue (graph s1) = tombstone (graph s1)) as Hempty.
  { unfold evaluate in H.
    apply bind_Ok in H as (t & ? & [= <- <-] & H).
    apply bind_Ok in H as (h & ? & [= <- <-] & H).
    apply bind_Ok in H as (? & s0 & [= <- <-] & H).
    destruct (_ =? _); [by inversion H; subst|].
    apply bind_Ok in H as (work1 & s0' & H1 & H).
    apply bind_Ok in H as (work2 & s2 & H2 & [= <- <- <-]).
    destruct (drain_inv _ _ _ _ _ _ H1) as (-> & _).
    assert (survivors s (with_work_queue (tombstone (graph s)) s)) as Hs.
    { intros a w Hw. eauto using static_refl. }
    rewrite (run_heap_calm _ _ _ _ _ H2); [done | |].
    - by apply (topological_survivors s).
    - intros a w Hw. by apply (Hun a w). }
  exists EmptyStats. split; [|done].
  unfold evaluate, mbind, M_bind, gets, modify.
  rewrite Hempty, Z.eqb_refl. simpl. rewrite <- Hempty at 1.
  by rewrite with_work_queue_id.
Qed.

(** ** Checking a store *)

Lemma check_works_sound f s :
  check_works f s = true → ∀ a w, works s !! a = Some w → f a w = true.
Proof.
  unfold check_works. rewrite forallb_forall. intros Hall a w Hw.
  apply (Hall (a, w)). apply list_elem_of_In. by apply elem_of_map_to_list.
Qed.

Lemma unlocked_check s : check_works unlocked_b s = true → unlocked s.
Proof.
  intros Hc a w Hw. apply (check_works_sound _ _ Hc) in Hw.
  by apply Z.eqb_eq in Hw.
Qed.

Lemma topological_check s :
  check_works (topological_b s) s = true → topological s.
Proof.
  intros Hc a w nd i r wr Hw Hk Hi Hr Hwr.
  apply (check_works_sound _ _ Hc) in Hw. unfold topological_b in Hw.
  rewrite Hk, forallb_forall in Hw.
  specialize (Hw i (proj1 (list_elem_of_In _ _) Hi)).
  rewrite Hr, Hwr in Hw. by apply Z.ltb_lt in Hw.
Qed.

(** ** Stores on which a pass meets no dangling pointer *)

Lemma occ_nil a : occ a [] = 0.
Proof. reflexivity. Qed.

Lemma occ_cons a b l :
  occ a (b :: l) = (if decide (b = a) then 1 else 0) + occ a l.
Proof.
  unfold occ. destruct (decide (b = a)) as [Hb|Hb].
  - rewrite filter_cons_True by done. simpl length. lia.
  - rewrite filter_cons_False by done. lia.
Qed.

Lemma occ_app a l1 l2 : occ a (l1 ++ l2) = occ a l1 + occ a l2.
Proof. unfold occ. rewrite filter_app, length_app. lia. Qed.

Lemma occ_Permutation a l1 l2 : l1 ≡ₚ l2 → occ a l1 = occ a l2.
Proof. intros Hp. unfold occ. by rewrite Hp. Qed.

Lemma occ_nonneg a l : 0 ≤ occ a l.
Proof. unfold occ. lia. Qed.

Lemma holds_refl s : holds s s.
Proof. split; [|eauto using static_refl|done]. intros a w Hw. eauto using static_refl. Qed.

Lemma holds_trans s1 s2 s3 : holds s1 s2 → holds s2 s3 → holds s1 s3.
Proof.
  intros [S1 W1 C1] [S2 W2 C2].
  split; [by eapply survivors_trans | | by auto].
  intros a w1 H1. destruct (W1 _ _ H1) as (w2 & H2 & St1).
  destruct (W2 _ _ H2) as (w3 & H3 & St2). eauto using static_trans.
Qed.

(** One Work rewritten in place, whatever else of the state is new. *)
Lemma holds_update a w w' s s' :
  works s !! a = Some w → static w w' →
  works s' = <[a:=w']> (works s) → cells s' = cells s → holds s s'.
Proof.
  intros Hw Hs Hworks Hcells. split.
  - intros b wb. rewrite Hworks. destruct (decide (a = b)) as [->|Hne].
    + rewrite lookup_insert_eq. intros [= <-]. eauto.
    + rewrite lookup_insert_ne by done. eauto using static_refl.
  - intros b wb Hb. rewrite Hworks. destruct (decide (a = b)) as [->|Hne].
    + rewrite lookup_insert_eq. exists w'. by simplify_eq.
    + rewrite lookup_insert_ne by done. eauto using static_refl.
  - intros c. by rewrite Hcells.
Qed.

Lemma keeps_refl s : keeps s s.
Proof. split; [apply holds_refl | | done]. intros; congruence. Qed.

Lemma keeps_trans s1 s2 s3 : keeps s1 s2 → keeps s2 s3 → keeps s1 s3.
Proof.
  intros [H1 R1 Q1] [H2 R2 Q2].
  split; [by eapply holds_trans | | congruence].
  intros a w1 w3 Hw1 Hw3.
  destruct (holds_works _ _ H1 _ _ Hw1) as (w2 & Hw2 & _).
  rewrite (R2 _ _ _ Hw2 Hw3). eauto.
Qed.

Lemma keeps_set_work a w w' s :
  works s !! a = Some w → static w w' → refcount w' = refcount w →
  keeps s (set_work a w' s).
Proof.
  intros Hw Hs Hr. split; [by eapply holds_update | | done].
  intros b wb wb' Hb. simpl. destruct (decide (a = b)) as [->|Hne].
  - rewrite lookup_insert_eq. intros [= <-]. congruence.
  - rewrite lookup_insert_ne by done. congruence.
Qed.

Lemma keeps_with_cells c x s :
  is_Some (cells s !! c) → keeps s (with_cells (<[c:=x]> (cells s)) s).
Proof.
  intros Hc. split; [split | | done]; simpl.
  - intros a w Hw. eauto using static_refl.
  - eauto using static_refl.
  - intros c' Hc'. destruct (decide (c = c')) as [->|Hne].
    + rewrite lookup_insert_eq. eauto.
    + by rewrite lookup_insert_ne.
  - intros; congruence.
Qed.

Lemma keeps_with_evals l s : keeps s (with_evals l s).
Proof.
  split; [split | | done]; simpl; eauto using static_refl.
  - intros a w Hw. eauto using static_refl.
  - intros; congruence.
Qed.

Lemma is_node_holds s s' a : holds s s' → is_node s a → is_node s' a.
Proof.
  intros K (w & nd & Hw & Hk).
  destruct (holds_works _ _ K _ _ Hw) as (w' & Hw' & [_ Hshape]).
  rewrite Hk in Hshape. destruct (kind w') as [|nd'] eqn:Hk'; [done|].
  by exists w', nd'.
Qed.

Lemma valid_input_holds s s' i : holds s s' → valid_input s i → valid_input s' i.
Proof.
  intros K [Hp Hr]. split; [|intros r Hi; eapply is_node_holds; eauto].
  destruct (in_ i) as [b k|c]; simpl in *; [|by apply (holds_cells _ _ K)].
  destruct Hp as (w & nd & Hw & Hk & Hlen).
  destruct (holds_works _ _ K _ _ Hw) as (w' & Hw' & [_ Hshape]).
  rewrite Hk in Hshape. destruct (kind w') as [|nd'] eqn:Hk'; [done|].
  destruct Hshape as (_ & _ & Hl). exists w', nd'. split; [done|].
  split; [done | lia].
Qed.

Lemma closed_holds s s' : holds s s' → closed s → closed s'.
Proof.
  intros K Hc a w' nd' Hw' Hk'.
  destruct (holds_survivors _ _ K _ _ Hw') as (w & Hw & [_ Hshape]).
  rewrite Hk' in Hshape. destruct (kind w) as [|nd] eqn:Hk; [done|].
  destruct Hshape as (_ & -> & _).
  eapply Forall_impl; [by eapply Hc|]. intros i. by apply valid_input_holds.
Qed.

Lemma safe_inv_keeps B l s s' : keeps s s' → safe_inv B l s → safe_inv B l s'.
Proof.
  intros [K R Q] [Hc Ha Hq Hn]. split.
  - by eapply closed_holds.
  - intros a w' Hw'.
    destruct (holds_survivors _ _ K _ _ Hw') as (w & Hw & _). eauto.
  - by rewrite Q.
  - intros a w' Hw' Hk'.
    destruct (holds_survivors _ _ K _ _ Hw') as (w & Hw & [_ Hshape]).
    rewrite (R _ _ _ Hw Hw'). apply Hn; [done|].
    intros Hk. rewrite Hk in Hshape. by destruct (kind w').
Qed.

Lemma safe_inv_weaken B B' l l' s :
  B' ≤ B → (∀ a, occ a l' ≤ occ a l) → safe_inv B l s → safe_inv B' l' s.
Proof.
  intros HB Hl [Hc Ha Hq Hn]. split; [done..|].
  intros a w Hw Hk. destruct (Hn _ _ Hw Hk). specialize (Hl a). lia.
Qed.

(** The invariant after the reference count of one Work was written. *)
Lemma safe_inv_update B B' l l' a w w' s s' :
  safe_inv B l s →
  works s !! a = Some w → static w w' →
  works s' = <[a:=w']> (works s) → cells s' = cells s →
  aligned (work_queue (graph s')) →
  (∀ b, b ≠ a → occ b l' ≤ occ b l) → B' ≤ B →
  occ a l' + 1 ≤ refcount w' → refcount w' + B' < 2 ^ fast16_bits →
  safe_inv B' l' s'.
Proof.
  intros [Hc Ha Hq Hn] Hw Hs Hworks Hcells Hal Hocc HB Hlo Hhi.
  assert (holds s s') as K by (by eapply holds_update).
  split.
  - by eapply closed_holds.
  - intros b wb' Hb.
    destruct (holds_survivors _ _ K _ _ Hb) as (wb & Hwb & _). eauto.
  - done.
  - intros b wb'. rewrite Hworks. destruct (decide (a = b)) as [->|Hne].
    + rewrite lookup_insert_eq. intros [= <-]. done.
    + rewrite lookup_insert_ne by done. intros Hb Hk.
      destruct (Hn _ _ Hb Hk). specialize (Hocc b ltac:(done)). lia.
Qed.

Lemma safe_refcount_range B l a w s :
  safe_inv B l s → works s !! a = Some w → kind w ≠ Tombstone → 0 ≤ B →
  0 < refcount w < 2 ^ fast16_bits.
Proof.
  intros Hinv Hw Hk HB. destruct (safe_counted _ _ _ Hinv _ _ Hw Hk).
  pose proof (occ_nonneg a l). lia.
Qed.

Lemma schedule_safe B l a w s :
  safe_inv B l s → works s !! a = Some w → kind w ≠ Tombstone → 1 ≤ B →
  ∃ s', schedule a s = Ok (tt, s') ∧ holds s s' ∧ safe_inv (B - 1) l s'.
Proof.
  intros Hinv Hw Hnt HB.
  pose proof (safe_refcount_range _ _ _ _ _ Hinv Hw Hnt ltac:(lia)) as Hr.
  destruct (safe_counted _ _ _ Hinv _ _ Hw Hnt) as [Hlo Hhi].
  destruct (decide (pointer_bits (next w) = 0)) as [Hp|Hp].
  - destruct (schedule_enqueue _ _ _ Hw Hp (safe_queue _ _ _ Hinv)) as [o Ho].
    eexists. split; [exact Ho|].
    assert (static w (with_next (Z.lor (work_queue (graph s)) (lock_bit (next w)))
                        (with_refcount (wrap fast16_bits (refcount w + 1)) w)))
      as Hs by (split; [done | apply same_shape_refl]).
    split; [by eapply holds_update|].
    apply (safe_inv_update B (B - 1) l l a w
             (with_next (Z.lor (work_queue (graph s)) (lock_bit (next w)))
                (with_refcount (wrap fast16_bits (refcount w + 1)) w)) s);
      [done | done | done | done | done | | done | lia | | ].
    + simpl. by eapply safe_aligned.
    + simpl. rewrite wrap_small; lia.
    + simpl. rewrite wrap_small; lia.
  - exists s. split; [by apply (schedule_queued _ _ w)|].
    split; [apply holds_refl|]. eapply safe_inv_weaken; [| |exact Hinv]; [lia|done].
Qed.

Lemma add_to_queue_safe B l a ws s :
  safe_inv B l s → is_node s a → 1 ≤ B →
  ∃ ws' s' extra,
    add_to_queue a ws s = Ok (ws', s') ∧ holds s s' ∧
    (q ws').*2 ≡ₚ extra ++ (q ws).*2 ∧
    Forall (is_node s') extra ∧
    safe_inv (B - 1) (extra ++ l) s'.
Proof.
  intros Hinv (w & nd & Hw & Hk) HB. unfold add_to_queue.
  assert (kind w ≠ Tombstone) as Hnt by (by rewrite Hk).
  rewrite (bind_run _ _ _ _ _ (get_work_run _ _ _ Hw)).
  destruct (id w <=? current_id ws).
  - destruct (schedule_safe _ _ _ _ _ Hinv Hw Hnt HB) as (s' & Hs & K & Hinv').
    exists (with_stats (incr_pushed_graph (stats ws)) ws), s', [].
    rewrite (bind_run _ _ _ _ _ Hs). done.
  - rewrite (bind_run _ _ _ _ _ (intrusive_ptr_add_ref_run _ _ _ Hw)).
    pose proof (safe_refcount_range _ _ _ _ _ Hinv Hw Hnt ltac:(lia)) as Hr.
    destruct (safe_counted _ _ _ Hinv _ _ Hw Hnt) as [Hlo Hhi].
    assert (holds s (set_work a (with_refcount (wrap fast16_bits (refcount w + 1)) w) s))
      as K by (eapply holds_update; eauto using static_with_refcount).
    eexists _, _, [a]. split; [done|]. split; [done|]. split; [|split].
    + simpl. by rewrite pq_push_Permutation.
    + constructor; [|done]. eapply is_node_holds; [done|]. by exists w, nd.
    + apply (safe_inv_update B (B - 1) l ([a] ++ l) a w
               (with_refcount (wrap fast16_bits (refcount w + 1)) w) s);
        [done | done | apply static_with_refcount | done | done | | | lia | | ].
      * simpl. by eapply safe_queue.
      * intros b Hb. simpl. rewrite occ_cons. rewrite decide_False by done. lia.
      * simpl. rewrite occ_cons, decide_True by done. rewrite wrap_small; lia.
      * simpl. rewrite wrap_small; lia.
Qed.

Lemma store_at_safe p v s :
  valid_ptr s p → ∃ s', store_at p v s = Ok (tt, s') ∧ keeps s s'.
Proof.
  destruct p as [b k|c]; simpl.
  - intros (w & nd & Hw & Hk & Hlen).
    rewrite (bind_run _ _ _ _ _ (get_node_run _ _ _ _ Hw Hk)).
    destruct (lookup_lt_is_Some_2 (inputs nd) k Hlen) as [x Hx]. rewrite Hx.
    rewrite (put_node_run _ _ _ _ Hw). eexists. split; [done|].
    eapply keeps_set_work; [done | | done].
    split; [done|]. simpl. rewrite Hk. simpl. by rewrite length_insert.
  - intros [x Hx]. rewrite Hx. eexists. split; [done|].
    apply keeps_with_cells. eauto.
Qed.

Lemma notify_safe deps v : ∀ B l ws s,
  safe_inv B l s → Forall (valid_input s) deps →
  Z.of_nat (length deps) ≤ B →
  ∃ ws' s' extra,
    notify deps v ws s = Ok (ws', s') ∧ holds s s' ∧
    (q ws').*2 ≡ₚ extra ++ (q ws).*2 ∧
    Forall (is_node s') extra ∧
    safe_inv (B - Z.of_nat (length deps)) (extra ++ l) s'.
Proof.
  induction deps as [|d deps IH]; intros B l ws s Hinv Hvalid HB.
  - exists ws, s, []. split; [done|]. split; [apply holds_refl|].
    split; [done|]. split; [done|]. simpl.
    eapply safe_inv_weaken; [| |exact Hinv]; [lia | done].
  - apply Forall_cons in Hvalid as [[Hptr Href] Hvalid].
    rewrite length_cons, Nat2Z.inj_succ in *.
    destruct (store_at_safe _ v _ Hptr) as (s1 & Hs1 & K1).
    simpl. rewrite (bind_run _ _ _ _ _ Hs1).
    pose proof (safe_inv_keeps _ _ _ _ K1 Hinv) as Hinv1.
    assert (∃ ws2 s2 extra,
      match ref d with
      | Some r => add_to_queue r ws
      | None => mret ws
      end s1 = Ok (ws2, s2) ∧ holds s1 s2 ∧
      (q ws2).*2 ≡ₚ extra ++ (q ws).*2 ∧ Forall (is_node s2) extra ∧
      safe_inv (B - 1) (extra ++ l) s2) as (ws2 & s2 & extra1 & H2 & K2 & P2 & N2 & Hinv2).
    { destruct (ref d) as [r|] eqn:Hr.
      - apply add_to_queue_safe; [done | | lia].
        eapply is_node_holds; [apply K1 | by apply Href].
      - exists ws, s1, []. split; [done|]. split; [apply holds_refl|].
        split; [done|]. split; [done|].
        eapply safe_inv_weaken; [| |exact Hinv1]; [lia | done]. }
    rewrite (bind_run _ _ _ _ _ H2).
    assert (holds s s2) as K12 by (eapply holds_trans; [apply K1 | done]).
    destruct (IH (B - 1) (extra1 ++ l) ws2 s2 Hinv2) as (ws' & s' & extra2 & H3 & K3 & P3 & N3 & Hinv3).
    { eapply Forall_impl; [exact Hvalid|]. intros i. by apply valid_input_holds. }
    { lia. }
    exists ws', s', (extra2 ++ extra1). split; [done|].
    split; [by eapply holds_trans|]. split; [|split].
    + rewrite P3, P2. by rewrite app_assoc.
    + apply Forall_app. split; [done|].
      eapply Forall_impl; [exact N2|]. intros r. by apply is_node_holds.
    + rewrite <- app_assoc.
      replace (B - Z.succ (Z.of_nat (length deps)))
        with (B - 1 - Z.of_nat (length deps)) by lia. done.
Qed.

Lemma Node_eval_safe B l a ws s w nd :
  safe_inv B l s → works s !! a = Some w → kind w = NodeOf nd →
  Z.of_nat (length (dependents nd)) + 1 ≤ B →
  ∃ ws' s' extra,
    Node_eval a ws s = Ok (ws', s') ∧ holds s s' ∧
    (q ws').*2 ≡ₚ extra ++ (q ws).*2 ∧
    Forall (is_node s') extra ∧
    safe_inv (B - (Z.of_nat (length (dependents nd)) + 1)) (extra ++ l) s'.
Proof.
  intros Hinv Hw Hk HB. unfold Node_eval.
  rewrite (bind_run _ _ _ _ _ (trylock_and_dequeue_run _ _ _ Hw)).
  set (w1 := with_next flags.LOCK w).
  set (s1 := set_work a w1 s).
  assert (keeps s s1) as K1.
  { eapply keeps_set_work; eauto using static_with_next. }
  pose proof (safe_inv_keeps _ _ _ _ K1 Hinv) as Hinv1.
  assert (works s1 !! a = Some w1) as Hw1 by apply set_work_lookup.
  destruct (bool_decide (lock_bit (next w) = 0)); simpl.
  - rewrite (bind_run _ _ _ _ _ (get_node_run a s1 w1 nd Hw1 Hk)).
    destruct (Propagate_call (propagate nd) (call_fn nd)) as [fire policy].
    rewrite (bind_run _ _ _ _ _ (put_node_run a w1 _ s1 Hw1)).
    set (w2 := with_kind (NodeOf (with_propagate policy nd)) w1).
    set (s2 := set_work a w2 s1).
    assert (keeps s1 s2) as K2.
    { eapply keeps_set_work; [done | | done].
      split; [done|]. simpl. by rewrite Hk. }
    pose proof (safe_inv_keeps _ _ _ _ K2 Hinv1) as Hinv2.
    assert (holds s s2) as K12.
    { eapply holds_trans; [apply K1 | apply K2]. }
    assert (∃ ws3 s3 extra,
      (if fire then notify (dependents nd) (call_fn nd) ws else mret ws) s2
        = Ok (ws3, s3) ∧ holds s2 s3 ∧
      (q ws3).*2 ≡ₚ extra ++ (q ws).*2 ∧ Forall (is_node s3) extra ∧
      safe_inv (B - Z.of_nat (length (dependents nd))) (extra ++ l) s3)
      as (ws3 & s3 & extra & H3 & K3 & P3 & N3 & Hinv3).
    { destruct fire.
      - apply notify_safe; [done | | lia].
        eapply Forall_impl; [by eapply (safe_closed _ _ _ Hinv a w nd)|].
        intros i. by apply valid_input_holds.
      - exists ws, s2, []. split; [done|]. split; [apply holds_refl|].
        split; [done|]. split; [done|].
        eapply safe_inv_weaken; [| |exact Hinv2]; [lia | done]. }
    rewrite (bind_run _ _ _ _ _ H3).
    destruct (holds_works _ _ K3 a w2 (set_work_lookup _ _ _)) as (w3 & Hw3 & _).
    rewrite (bind_run _ _ _ _ _ (release_run _ _ _ Hw3)).
    assert (keeps s3 (set_work a (with_next (pointer_bits (next w3)) w3) s3)) as K4.
    { eapply keeps_set_work; eauto using static_with_next. }
    eexists _, _, extra. split; [done|]. split; [|split; [done|split]].
    + eapply holds_trans; [exact K12|]. eapply holds_trans; [exact K3 | apply K4].
    + eapply Forall_impl; [exact N3|]. intros r. apply is_node_holds, K4.
    + apply (safe_inv_keeps _ _ _ _ K4).
      eapply safe_inv_weaken; [| |exact Hinv3]; [lia | done].
  - destruct (add_to_queue_safe B l a ws s1 Hinv1) as (ws' & s' & extra & H2 & K2 & P2 & N2 & Hinv2).
    { exists w1, nd. done. }
    { lia. }
    exists ws', s', extra. split; [done|]. split; [|split; [done|split; [done|]]].
    + eapply holds_trans; [apply K1 | done].
    + eapply safe_inv_weaken; [| |exact Hinv2]; [lia | done].
Qed.

(** Giving back a reference that is not the last one. *)
Lemma release_safe B l l' a s :
  safe_inv B l s → is_node s a → 0 ≤ B →
  (∀ b, b ≠ a → occ b l' ≤ occ b l) → occ a l' + 1 ≤ occ a l →
  ∃ s', intrusive_ptr_release a s = Ok (tt, s') ∧ holds s s' ∧
        safe_inv B l' s'.
Proof.
  intros Hinv (w & nd & Hw & Hk) HB Hother Ha.
  assert (kind w ≠ Tombstone) as Hnt by (by rewrite Hk).
  destruct (safe_counted _ _ _ Hinv _ _ Hw Hnt) as [Hlo Hhi].
  pose proof (occ_nonneg a l').
  assert (wrap fast16_bits (refcount w - 1) = refcount w - 1) as Hwrap
    by (apply wrap_small; lia).
  eexists. split; [apply (intrusive_ptr_release_run _ _ w); [done | lia]|].
  rewrite Hwrap.
  split; [eapply holds_update; eauto using static_with_refcount|].
  apply (safe_inv_update B B l l' a w (with_refcount (refcount w - 1) w) s);
    [done | done | apply static_with_refcount | done | done | | done | lia | | ].
  - simpl. by eapply safe_queue.
  - simpl. lia.
  - simpl. lia.
Qed.

Lemma drop_duplicates_safe B a0 i : ∀ l st s,
  safe_inv B (a0 :: l.*2) s → 0 ≤ B →
  Forall (is_node s) l.*2 →
  ∃ st' l' s',
    drop_duplicates i st l s = Ok ((st', l'), s') ∧ holds s s' ∧
    safe_inv B (a0 :: l'.*2) s' ∧ Forall (is_node s') l'.*2.
Proof.
  induction l as [|[i' b] l IH]; intros st s Hinv HB Hnodes; simpl.
  - exists st, [], s. split; [done|]. split; [apply holds_refl | done].
  - destruct (i' =? i).
    + apply Forall_cons in Hnodes as [Hb Hnodes].
      destruct (release_safe B (a0 :: b :: l.*2) (a0 :: l.*2) b s)
        as (s1 & H1 & K1 & Hinv1); [done | done | done | | |].
      { intros c Hc. rewrite !occ_cons. rewrite (decide_False (P:=b = c)) by done. lia. }
      { rewrite !occ_cons. rewrite (decide_True (P:=b = b)) by done. lia. }
      rewrite (bind_run _ _ _ _ _ H1).
      destruct (IH (incr_duplicates st) s1 Hinv1 HB) as (st' & l' & s' & H2 & K2 & Hinv2 & Hn2).
      { eapply Forall_impl; [exact Hnodes|]. intros e. by apply is_node_holds. }
      exists st', l', s'. split; [done|]. split; [by eapply holds_trans | done].
    + exists st, ((i', b) :: l), s. split; [done|]. split; [apply holds_refl | done].
Qed.

(** ** The references a pass can still take *)

Lemma ndeps_nonneg w : 0 ≤ ndeps w.
Proof. unfold ndeps. destruct (kind w); lia. Qed.

Lemma budget_list_nonneg (L : list (Z * Work (V:=V))) c :
  0 ≤ foldr (λ e acc, (if c <? id e.2 then ndeps e.2 + 1 else 0) + acc) 0 L.
Proof.
  induction L as [|e L IH]; simpl; [lia|].
  pose proof (ndeps_nonneg e.2). destruct (c <? id e.2); lia.
Qed.

Lemma budget_list_mono (L : list (Z * Work (V:=V))) c c' :
  c ≤ c' →
  foldr (λ e acc, (if c' <? id e.2 then ndeps e.2 + 1 else 0) + acc) 0 L
  ≤ foldr (λ e acc, (if c <? id e.2 then ndeps e.2 + 1 else 0) + acc) 0 L.
Proof.
  intros Hc. induction L as [|e L IH]; simpl; [lia|].
  pose proof (ndeps_nonneg e.2).
  destruct (Z.ltb_spec c' (id e.2)), (Z.ltb_spec c (id e.2)); lia.
Qed.

Lemma budget_list_step (L : list (Z * Work (V:=V))) e0 c :
  e0 ∈ L → c < id e0.2 →
  foldr (λ e acc, (if id e0.2 <? id e.2 then ndeps e.2 + 1 else 0) + acc) 0 L
    + ndeps e0.2 + 1
  ≤ foldr (λ e acc, (if c <? id e.2 then ndeps e.2 + 1 else 0) + acc) 0 L.
Proof.
  intros Hin Hc. induction L as [|e L IH]; [by apply elem_of_nil in Hin|].
  simpl. pose proof (ndeps_nonneg e.2).
  apply elem_of_cons in Hin as [<-|Hin].
  - rewrite Z.ltb_irrefl.
    destruct (Z.ltb_spec c (id e0.2)); [|lia].
    pose proof (budget_list_mono L c (id e0.2) ltac:(lia)). lia.
  - specialize (IH Hin).
    destruct (Z.ltb_spec (id e0.2) (id e.2)), (Z.ltb_spec c (id e.2)); lia.
Qed.

Lemma budget_nonneg s0 c : 0 ≤ budget s0 c.
Proof. apply budget_list_nonneg. Qed.

Lemma budget_step s0 a w0 c :
  works s0 !! a = Some w0 → c < id w0 →
  budget s0 (id w0) + ndeps w0 + 1 ≤ budget s0 c.
Proof.
  intros Hw Hc. apply (budget_list_step _ (a, w0)); [|done].
  by apply elem_of_map_to_list.
Qed.

Lemma ndeps_static w w' : static w w' → ndeps w' = ndeps w.
Proof.
  intros [_ Hshape]. unfold ndeps.
  destruct (kind w), (kind w'); simpl in Hshape; try done.
  destruct Hshape as (_ & -> & _). done.
Qed.

(** On a store where the heap holds references that are not the last
    ones, the loop over the heap runs to its end and destroys nothing:
    every Work and every cell is still there, and every Node is still
    held. *)
Lemma run_heap_sound s0 hi n : ∀ ws s lo,
  heap_inv lo hi s (q ws) →
  safe_inv (budget s0 lo) (q ws).*2 s →
  Forall (is_node s) (q ws).*2 →
  survivors s0 s →
  (Z.to_nat (hi - lo) < n)%nat →
  ∃ ws' s', run_heap n ws s = Ok (ws', s') ∧ holds s s' ∧ safe_inv 0 [] s'.
Proof.
  induction n as [|n IH]; intros ws s lo Hheap Hinv Hnodes Hsurv Hn; [lia|].
  simpl. destruct (q ws) as [|[k0 a] rest] eqn:Hq.
  { exists ws, s. split; [done|]. split; [apply holds_refl|].
    eapply safe_inv_weaken; [apply budget_nonneg | done | exact Hinv]. }
  rewrite fmap_cons in Hinv, Hnodes. simpl in Hinv, Hnodes.
  apply Forall_cons in Hnodes as [(work & nd & Hw & Hk) Hnodes].
  rewrite (bind_run _ _ _ _ _ (get_work_run _ _ _ Hw)).
  assert (id work = k0 ∧ lo < k0 < hi) as [Hid Hk0].
  { destruct Hheap as [_ Hkeys _].
    apply Forall_cons in Hkeys as [[Hr He] _]. simpl in *. split; [eauto | done]. }
  destruct (Hsurv _ _ Hw) as (w0 & Hw0 & Hst0).
  pose proof (budget_step s0 a w0 lo Hw0) as Hbud.
  rewrite <- (ndeps_static _ _ Hst0) in Hbud at 1.
  destruct Hst0 as [Hid0 _]. rewrite <- Hid0 in Hbud.
  specialize (Hbud ltac:(lia)).
  pose proof (budget_nonneg s0 (id work)) as Hb0.
  pose proof (ndeps_nonneg work) as Hnd0.
  destruct (drop_duplicates_safe (budget s0 lo) a (id work) rest (stats ws) s
              Hinv ltac:(lia) Hnodes)
    as (st & rest' & s1 & H1 & K1 & Hinv1 & Hnodes1).
  rewrite (bind_run _ _ _ _ _ H1).
  unfold mbind at 1, M_bind at 1, log_eval at 1, modify at 1.
  set (s2 := with_evals (evals s1 ++ [(a, id work)]) s1).
  pose proof (keeps_with_evals (evals s1 ++ [(a, id work)]) s1) as K2.
  pose proof (safe_inv_keeps _ _ _ _ K2 Hinv1) as Hinv2.
  assert (holds s s2) as K12 by (eapply holds_trans; [exact K1 | apply K2]).
  destruct (holds_works _ _ K12 _ _ Hw) as (w2 & Hw2 & Hst2).
  assert (∃ nd2, kind w2 = NodeOf nd2 ∧
                 Z.of_nat (length (dependents nd2)) = ndeps work) as (nd2 & Hk2 & Hlen2).
  { rewrite <- (ndeps_static _ _ Hst2). unfold ndeps.
    destruct Hst2 as [_ Hshape]. rewrite Hk in Hshape.
    destruct (kind w2) as [|nd2]; [done|]. by exists nd2. }
  set (ws1 := {| q := rest'; stats := st; current_id := id work |}).
  destruct (Node_eval_safe (budget s0 lo) (a :: rest'.*2) a ws1 s2 w2 nd2
              Hinv2 Hw2 Hk2 ltac:(lia))
    as (ws2 & s3 & extra & H3 & K3 & P3 & N3 & Hinv3).
  assert (Work_eval a ws1 s2 = Ok (ws2, s3)) as H3'.
  { unfold Work_eval. rewrite (bind_run _ _ _ _ _ (get_work_run _ _ _ Hw2)).
    by rewrite Hk2. }
  rewrite (bind_run _ _ _ _ _ H3').
  rewrite Hlen2 in Hinv3. simpl in P3.
  assert (is_node s3 a) as Hn3.
  { apply (is_node_holds s2); [done|]. by exists w2, nd2. }
  destruct (release_safe (budget s0 lo - (ndeps work + 1))
              (extra ++ a :: rest'.*2) (q ws2).*2 a s3 Hinv3)
    as (s4 & H4 & K4 & Hinv4); [done | lia | | |].
  { intros b Hb. rewrite (occ_Permutation _ _ _ P3), !occ_app, occ_cons.
    rewrite decide_False by done. lia. }
  { rewrite (occ_Permutation _ _ _ P3), !occ_app, occ_cons.
    rewrite decide_True by done. lia. }
  rewrite (bind_run _ _ _ _ _ H4).
  destruct (run_heap_step _ _ _ _ _ _ _ _ _ _ _ _ _ _ _ Hheap Hw H1 H3' H4)
    as [_ Hheap4].
  assert (holds s s4) as K14.
  { eapply holds_trans; [exact K12|]. eapply holds_trans; [exact K3 | exact K4]. }
  destruct (IH (with_stats (incr_worked (stats ws2)) ws2) s4 (id work))
    as (ws' & s' & Hrun & K5 & Hinv5).
  - exact Hheap4.
  - simpl. eapply safe_inv_weaken; [| |exact Hinv4]; [lia | done].
  - simpl. rewrite P3. apply Forall_app. split.
    + eapply Forall_impl; [exact N3|]. intros r. by apply is_node_holds.
    + eapply Forall_impl; [exact Hnodes1|]. intros r Hr.
      apply (is_node_holds s3); [done|].
      apply (is_node_holds s2); [done|].
      apply (is_node_holds s1); [apply K2 | done].
  - apply survivors_trans with s; [done|]. apply (holds_survivors s s4 K14).
  - lia.
  - exists ws', s'. split; [done|]. split; [by eapply holds_trans | done].
Qed.

Lemma run_heap_safe s0 hi n : ∀ ws s lo,
  heap_inv lo hi s (q ws) →
  safe_inv (budget s0 lo) (q ws).*2 s →
  Forall (is_node s) (q ws).*2 →
  survivors s0 s →
  (Z.to_nat (hi - lo) < n)%nat →
  ∃ ws' s', run_heap n ws s = Ok (ws', s').
Proof.
  intros ws s lo Hheap Hinv Hnodes Hsurv Hn.
  destruct (run_heap_sound s0 hi n ws s lo Hheap Hinv Hnodes Hsurv Hn)
    as (ws' & s' & Hrun & _).
  by exists ws', s'.
Qed.

(** ** Well-formed stores *)

Lemma budget_le_total s c : budget s c ≤ total_budget s.
Proof.
  unfold budget, total_budget.
  induction (map_to_list (works s)) as [|e L IH]; simpl; [lia|].
  pose proof (ndeps_nonneg e.2). destruct (c <? id e.2); lia.
Qed.

Lemma total_budget_nonneg s : 0 ≤ total_budget s.
Proof.
  pose proof (budget_nonneg s 0). pose proof (budget_le_total s 0). lia.
Qed.

(** A pass over a well-formed store returns and destroys nothing. *)
Lemma evaluate_sound st s l :
  well_formed s l →
  ∃ n0, ∀ n, (n0 ≤ n)%nat →
    ∃ b st' s', evaluate n st s = Ok ((b, st'), s') ∧
                holds s s' ∧ safe_inv 0 [] s'.
Proof.
  intros [Hc Hnodes Ht Hclosed Hal Hrc].
  destruct (ids_bounded (works s)) as (lo & hi & Hb).
  exists (S (length l) + S (Z.to_nat (hi - lo)))%nat. intros n Hn.
  unfold evaluate.
  unfold mbind at 1, M_bind at 1, gets at 1.
  unfold mbind at 1, M_bind at 1, gets at 1.
  unfold mbind at 1, M_bind at 1, modify at 1.
  set (s0 := with_work_queue (tombstone (graph s)) s).
  set (ws0 := {| q := []; stats := (λ _, EmptyStats) <$> st; current_id := 0 |}).
  assert (holds s s0) as K.
  { split; [|eauto using static_refl|done]. intros a w Hw. eauto using static_refl. }
  pose proof (total_budget_nonneg s) as Htot.
  destruct (_ =? _).
  { eexists _, _, _. split; [done|]. split; [exact K|]. split.
    - by apply (closed_holds s).
    - done.
    - done.
    - intros a w Hw Hk. destruct (Hrc a w Hw Hk) as [Hlo Hhi].
      pose proof (occ_nonneg a l). rewrite occ_nil. lia. }
  assert (chain s0 (work_queue (graph s)) l) as Hc0.
  { apply (chain_frame s); done. }
  assert (drain n (work_queue (graph s)) ws0 s0 = Ok (drained s0 l ws0, s0)) as Hd.
  { apply drain_chain; [exact Hc0 | lia]. }
  rewrite (bind_run _ _ _ _ _ Hd).
  destruct (drain_inv _ _ _ _ _ _ Hd) as (_ & _ & _ & Hh).
  assert ((q (drained s0 l ws0)).*2 ≡ₚ l) as Hperm.
  { rewrite drained_pointers; [by rewrite app_nil_r|].
    intros a Ha. by eapply chain_live. }
  destruct (run_heap_sound s0 hi n (drained s0 l ws0) s0 lo)
    as (ws' & s' & Hrun & K' & Hinv').
  - apply Hh; [intros a w Hw; apply Hb in Hw; lia|].
    split; [constructor | constructor |]. intros a w Hw. apply Hb in Hw. lia.
  - split.
    + by apply (closed_holds s).
    + done.
    + done.
    + intros a w Hw Hk. destruct (Hrc a w Hw Hk) as [Hlo Hhi].
      rewrite (occ_Permutation _ _ _ Hperm).
      pose proof (budget_le_total s0 lo).
      change (total_budget s0) with (total_budget s) in *. lia.
  - rewrite Hperm. eapply Forall_impl; [exact Hnodes|].
    intros a. by apply is_node_holds.
  - intros a w Hw. eauto using static_refl.
  - lia.
  - rewrite (bind_run _ _ _ _ _ Hrun). eexists _, _, _.
    split; [done|]. split; [by eapply holds_trans | done].
Qed.

(** A pass over a well-formed store returns. *)
Lemma evaluate_safe st s l :
  well_formed s l →
  ∃ n0, ∀ n, (n0 ≤ n)%nat →
    ∃ b st' s', evaluate n st s = Ok ((b, st'), s').
Proof.
  intros Hwf. destruct (evaluate_sound st s l Hwf) as [n0 Hn0].
  exists n0. intros n Hn. destruct (Hn0 n Hn) as (b & st' & s' & H & _).
  by exists b, st', s'.
Qed.

(** ** Checking that a store is well formed *)

Lemma is_node_b_sound s a : is_node_b s a = true → is_node s a.
Proof.
  unfold is_node_b, is_node. destruct (works s !! a) as [w|]; [|done].
  destruct (kind w) as [|nd] eqn:Hk; [done|]. eauto.
Qed.

Lemma valid_input_b_sound s i : valid_input_b s i = true → valid_input s i.
Proof.
  unfold valid_input_b, valid_input. intros [Hp Hr]%andb_true_iff. split.
  - destruct (in_ i) as [b k|c]; simpl in *.
    + destruct (works s !! b) as [w|]; [|done].
      destruct (kind w) as [|nd] eqn:Hk; [done|].
      apply bool_decide_eq_true in Hp. eauto.
    + by destruct (cells s !! c).
  - intros r Hi. rewrite Hi in Hr. by apply is_node_b_sound.
Qed.

Lemma well_formed_check s l :
  chain s (work_queue (graph s)) l → well_formed_b s l = true →
  well_formed s l.
Proof.
  unfold well_formed_b.
  intros Hc [[[[Hn Ht]%andb_true_iff Hcl]%andb_true_iff Hal]%andb_true_iff Hrc]%andb_true_iff.
  split.
  - done.
  - apply Forall_forall. intros a Ha. apply is_node_b_sound.
    rewrite forallb_forall in Hn. apply Hn. by apply list_elem_of_In.
  - by apply Z.eqb_eq in Ht.
  - intros a w nd Hw Hk. apply (check_works_sound _ _ Hcl) in Hw.
    unfold closed_b in Hw. rewrite Hk, forallb_forall in Hw.
    apply Forall_forall. intros i Hi. apply valid_input_b_sound, Hw.
    by apply list_elem_of_In.
  - intros a w Hw. apply (check_works_sound _ _ Hal) in Hw.
    by apply Z.eqb_eq in Hw.
  - intros a w Hw Hk. apply (check_works_sound _ _ Hrc) in Hw.
    unfold refcount_b in Hw. destruct (kind w); [done|].
    apply andb_true_iff in Hw as [H1 H2].
    apply Z.leb_le in H1. apply Z.ltb_lt in H2. done.
Qed.

(** ** The answer of a pass *)

(** C3: [Graph::operator()] answers [true] iff it did any work.  A pass
    over a well-formed store, given fuel enough, returns; it answers
    [false] exactly when the exchange finds the Tombstone at the head of
    the intake queue, and has then evaluated nothing and left the store as
    it was; otherwise it answers [true] and has evaluated at least one
    Work. *)
Theorem evaluate_true_iff_work st s l :
  well_formed s l →
  ∃ n0, ∀ n, (n0 ≤ n)%nat →
    ∃ b st' s' evs,
      evaluate n st s = Ok ((b, st'), s') ∧
      evals s' = evals s ++ evs ∧
      (b = false ↔ work_queue (graph s) = tombstone (graph s)) ∧
      (b = false → evs = [] ∧ s' = s) ∧
      (b = true → evs ≠ []).
Proof.
  intros Hwf. destruct (evaluate_safe st s l Hwf) as [n0 Hn0].
  exists n0. intros n Hn. destruct (Hn0 n Hn) as (b & st' & s' & H).
  destruct (evaluate_evals _ _ _ _ _ _ H) as (evs & Hev & _ & _ & Hb & He).
  exists b, st', s', evs. split; [done|]. split; [done|]. split; [done|].
  split.
  - intros ->. split; [by apply He|].
    destruct Hb as [Hb _]. specialize (Hb eq_refl).
    unfold evaluate, mbind, M_bind, gets, modify in H.
    rewrite Hb, Z.eqb_refl in H. simpl in H. inversion H as [[Hst Hs']].
    rewrite <- Hb. apply with_work_queue_id.
  - intros -> ->. destruct He as [_ He']. by specialize (He' eq_refl).
Qed.

End Properties.

(** * The library around the pass

    Locks, reference counts, connections, the builder, the counters and
    the repeated evaluation. *)

Section Library.
Context {V : Type} {Vne : NotEqual V} {P : Platform}.

Implicit Types (s : State (V:=V)) (w : Work (V:=V)) (nd : Node (V:=V)).
Implicit Types (ws : WorkState) (a : Z).

(** ** The exclusion flag, taken and given back *)

Lemma pointer_bits_lor_LOCK n :
  pointer_bits (Z.lor n flags.LOCK) = pointer_bits n.
Proof.
  unfold pointer_bits, flags.LOCK. apply Z.bits_inj'. intros i Hi.
  rewrite !Z.land_spec, Z.lor_spec, Z.lnot_spec by lia.
  destruct (decide (i = 0)) as [->|Hne].
  - change (Z.testbit 1 0) with true. simpl. by rewrite !andb_false_r.
  - rewrite (testbit_LOCK_high i) by done. by rewrite orb_false_r.
Qed.

Lemma lock_bit_lor_LOCK n : lock_bit (Z.lor n flags.LOCK) = 1.
Proof.
  unfold lock_bit, flags.LOCK.
  rewrite Z.land_lor_distr_l. change (Z.land 1 1) with 1.
  destruct (lock_bit_cases n) as [H|H]; unfold lock_bit, flags.LOCK in H;
    by rewrite H.
Qed.

Lemma lor_LOCK_held n : lock_bit n = 1 → Z.lor n flags.LOCK = n.
Proof.
  unfold lock_bit, flags.LOCK. intros Hn.
  apply Z.bits_inj'. intros i Hi. rewrite Z.lor_spec.
  destruct (decide (i = 0)) as [->|Hne].
  - apply (f_equal (λ x, Z.testbit x 0)) in Hn.
    rewrite Z.land_spec in Hn. change (Z.testbit 1 0) with true in Hn.
    rewrite andb_true_r in Hn. by rewrite Hn.
  - rewrite (testbit_LOCK_high i) by done. apply orb_false_r.
Qed.

(** X1: [Work::trylock] on a free flag acquires it and leaves the queue pointer
    alone; while the flag is held a second [trylock] fails and changes
    nothing; [Work::release] then gives back the Work as it was. *)
Theorem trylock_release_round_trip a s w :
  works s !! a = Some w → lock_bit (next w) = 0 →
  ∃ s1,
    trylock a s = Ok (true, s1) ∧
    readnext a s = Ok (pointer_bits (next w), s) ∧
    readnext a s1 = Ok (pointer_bits (next w), s1) ∧
    trylock a s1 = Ok (false, s1) ∧
    release a s1 = Ok (tt, s).
Proof.
  intros Hw Hl.
  set (w1 := with_next (Z.lor (next w) flags.LOCK) w).
  assert (works (set_work a w1 s) !! a = Some w1) as Hw1
    by apply set_work_lookup.
  exists (set_work a w1 s). repeat split.
  - rewrite (trylock_run _ _ _ Hw). by rewrite bool_decide_eq_true_2.
  - unfold readnext. by rewrite (bind_run _ _ _ _ _ (get_work_run _ _ _ Hw)).
  - unfold readnext. rewrite (bind_run _ _ _ _ _ (get_work_run _ _ _ Hw1)).
    unfold mret, M_ret. do 2 f_equal. apply pointer_bits_lor_LOCK.
  - rewrite (trylock_run _ _ _ Hw1). simpl.
    rewrite bool_decide_eq_false_2 by (rewrite lock_bit_lor_LOCK; lia).
    rewrite set_work_set_work. do 3 f_equal.
    unfold w1, with_next. simpl. by rewrite lor_lor_idem.
  - rewrite (release_run _ _ _ Hw1). rewrite set_work_set_work. simpl.
    rewrite pointer_bits_lor_LOCK, pointer_bits_lock_free by done.
    do 2 f_equal.
    transitivity (set_work a w s); [|by apply set_work_id].
    f_equal. by destruct w.
Qed.

Lemma trylock_held a s w :
  works s !! a = Some w → lock_bit (next w) = 1 → trylock a s = Ok (false, s).
Proof.
  intros Hw Hl. rewrite (trylock_run _ _ _ Hw).
  rewrite bool_decide_eq_false_2 by lia. do 2 f_equal.
  rewrite lor_LOCK_held by done. rewrite with_next_id. by apply set_work_id.
Qed.

Lemma spin_trylock_held n a s w :
  works s !! a = Some w → lock_bit (next w) = 1 → spin_trylock n a s = Timeout.
Proof.
  intros Hw Hl. induction n as [|n IH]; [done|]. simpl.
  by rewrite (bind_run _ _ _ _ _ (trylock_held _ _ _ Hw Hl)).
Qed.

(** X2: The spin loops of [Node::connect] and [Node::disconnect] never leave
    while the flag of the Node is held: called on a Node whose flag is
    taken, with nobody else to release it, they do not return, whatever
    the number of rounds. *)
Theorem connect_spins_on_held_flag n (this : Z) (i : Input) s w :
  works s !! this = Some w → lock_bit (next w) = 1 →
  Node_connect n this i s = Timeout ∧ Node_disconnect n this i s = Timeout.
Proof.
  intros Hw Hl. unfold Node_connect, Node_disconnect, mbind, M_bind.
  by rewrite (spin_trylock_held _ _ _ _ Hw Hl).
Qed.

(** ** Reference counts *)

(** X3: Taking a reference to a Work that somebody holds and dropping it again
    leaves the store as it was, also when the counter wraps in between. *)
Theorem add_ref_release_round_trip a s w :
  works s !! a = Some w → 0 < refcount w < 2 ^ fast16_bits →
  (intrusive_ptr_add_ref a;; intrusive_ptr_release a) s = Ok (tt, s).
Proof.
  intros Hw Hr.
  rewrite (bind_run _ _ _ _ _ (intrusive_ptr_add_ref_run _ _ _ Hw)).
  rewrite (intrusive_ptr_release_run _ _ _ (set_work_lookup _ _ _)); simpl.
  - rewrite add_ref_release_refcount by lia.
    rewrite set_work_set_work. do 2 f_equal.
    transitivity (set_work a w s); [|by apply set_work_id].
    f_equal. by destruct w.
  - rewrite add_ref_release_refcount by lia. lia.
Qed.


(** ** The last reference *)

Lemma with_refcount_with_refcount r r' w :
  with_refcount r (with_refcount r' w) = with_refcount r w.
Proof. reflexivity. Qed.

(** The destructor of a dependents list whose Works are all held by
    somebody else as well takes the references of the list back and
    destroys nothing. *)
Lemma destroy_inputs_held n deps : ∀ s,
  (∀ r, r ∈ held deps →
        ∃ wr, works s !! r = Some wr ∧
              occ r (held deps) < refcount wr < 2 ^ fast16_bits) →
  ∃ s',
    destroy_inputs (release_rec (S n)) deps s = Ok (tt, s') ∧
    cells s' = cells s ∧ graph s' = graph s ∧
    spurious s' = spurious s ∧ evals s' = evals s ∧
    ∀ b, works s' !! b
         = (λ wb, with_refcount (refcount wb - occ b (held deps)) wb)
             <$> works s !! b.
Proof.
  induction deps as [|i deps IH]; intros s Hheld.
  - exists s. split; [done|]. do 4 (split; [done|]). intros b.
    rewrite occ_nil. destruct (works s !! b) as [wb|]; [|done]. simpl.
    rewrite Z.sub_0_r. by destruct wb.
  - cbn [destroy_inputs]. unfold held in *. cbn [omap list_omap] in *.
    destruct (ref i) as [r|] eqn:Hr.
    + destruct (Hheld r) as (wr & Hwr & Hocc & Hmax); [by left|].
      rewrite occ_cons, decide_True in Hocc by done.
      pose proof (occ_nonneg r (omap ref deps)).
      assert (wrap fast16_bits (refcount wr - 1) = refcount wr - 1) as Hwrap
        by (apply wrap_small; lia).
      assert (release_rec (S n) r s
              = Ok (tt, set_work r (with_refcount (refcount wr - 1) wr) s))
        as Hrel.
      { simpl. rewrite (bind_run _ _ _ _ _ (get_work_run _ _ _ Hwr)).
        rewrite Hwrap.
        destruct (Z.eqb_spec (refcount wr - 1) 0) as [|_]; [lia | done]. }
      rewrite (bind_run _ _ _ _ _ Hrel).
      set (s1 := set_work r (with_refcount (refcount wr - 1) wr) s).
      destruct (IH s1) as (s' & Hs' & Hc & Hg & Hsp & He & Hworks).
      { intros r' Hr'. destruct (decide (r' = r)) as [->|Hne].
        - exists (with_refcount (refcount wr - 1) wr).
          split; [apply set_work_lookup|]. simpl. lia.
        - destruct (Hheld r') as (wr' & Hwr' & Hocc' & Hmax'); [by right|].
          exists wr'. split; [unfold s1; by rewrite set_work_lookup_ne|].
          rewrite occ_cons, decide_False in Hocc' by done. lia. }
      exists s'. split; [done|]. do 4 (split; [done|]). intros b.
      rewrite Hworks, occ_cons. destruct (decide (r = b)) as [<-|Hne].
      * unfold s1. rewrite set_work_lookup, Hwr. simpl.
        rewrite with_refcount_with_refcount. do 2 f_equal; lia.
      * unfold s1. rewrite set_work_lookup_ne by done.
        destruct (works s !! b) as [wb|]; [|done]. simpl. do 2 f_equal; lia.
    + destruct (IH s) as (s' & Hs' & Hrest);
        [intros r' Hr'; by apply Hheld|].
      exists s'. split; [exact Hs' | exact Hrest].
Qed.

(** X4: dropping the last reference to a Node whose dependents point to
    Works that somebody else holds as well destroys that Node and nothing
    else: the Node has left the store, every other Work is there with what
    it had, its reference count less one for each Input of the dependents
    list that held it, and the cells, the Graph and the eval log are as
    they were. *)
Theorem release_last_reference a s w nd :
  works s !! a = Some w → kind w = NodeOf nd →
  wrap fast16_bits (refcount w - 1) = 0 →
  (∀ r, r ∈ held (dependents nd) →
        r ≠ a ∧
        ∃ wr, works s !! r = Some wr ∧
              occ r (held (dependents nd)) < refcount wr < 2 ^ fast16_bits) →
  ∃ s',
    intrusive_ptr_release a s = Ok (tt, s') ∧
    works s' !! a = None ∧
    (∀ b, b ≠ a →
          works s' !! b
          = (λ wb, {| id := id wb;
                      refcount := refcount wb - occ b (held (dependents nd));
                      next := next wb; kind := kind wb |}) <$> works s !! b) ∧
    cells s' = cells s ∧ graph s' = graph s ∧
    spurious s' = spurious s ∧ evals s' = evals s.
Proof.
  intros Hw Hk Hz Hheld. unfold intrusive_ptr_release.
  destruct (size (works s)) as [|n] eqn:Hsize.
  { apply map_size_empty_inv in Hsize. rewrite Hsize in Hw.
    by rewrite lookup_empty in Hw. }
  cbn [release_rec].
  rewrite (bind_run _ _ _ _ _ (get_work_run _ _ _ Hw)), Hz, Hk. simpl.
  unfold mbind at 1, M_bind at 1, delete_work, modify.
  set (s0 := with_works (delete a (works s)) s).
  destruct (destroy_inputs_held n (dependents nd) s0)
    as (s' & Hs' & Hc & Hg & Hsp & He & Hworks).
  { intros r Hr. destruct (Hheld r Hr) as (Hne & wr & Hwr & Hocc).
    exists wr. split; [|done]. unfold s0. simpl.
    by rewrite lookup_delete_ne. }
  exists s'. split; [done|]. split.
  { rewrite Hworks. unfold s0. simpl. by rewrite lookup_delete_eq. }
  split; [|done]. intros b Hb. rewrite Hworks. unfold s0. simpl.
  by rewrite lookup_delete_ne.
Qed.

Lemma set_work_comm a b w w' s :
  a ≠ b → set_work a w (set_work b w' s) = set_work b w' (set_work a w s).
Proof.
  intros Hne. unfold set_work, with_works. simpl.
  by rewrite insert_insert_ne.
Qed.

(** [Node::connect] and [Node::disconnect] as one update each, the flag
    being free. *)
Lemma locked_update_run (this : Z) s w (m : M (V:=V) unit) s2 w2 :
  works s !! this = Some w → lock_bit (next w) = 0 →
  let wl := with_next (Z.lor (next w) flags.LOCK) w in
  m (set_work this wl s) = Ok (tt, s2) →
  works s2 !! this = Some w2 → next w2 = next wl →
  (m;; release this) (set_work this wl s)
    = Ok (tt, set_work this (with_next (next w) w2) s2).
Proof.
  intros Hw Hl wl Hm Hw2 Hn.
  rewrite (bind_run _ _ _ _ _ Hm), (release_run _ _ _ Hw2).
  rewrite Hn. unfold wl. simpl.
  by rewrite pointer_bits_lor_LOCK, pointer_bits_lock_free.
Qed.

Lemma Node_connect_run n (this : Z) (i : Input) s w nd :
  works s !! this = Some w → kind w = NodeOf nd →
  lock_bit (next w) = 0 → (0 < n)%nat →
  Node_connect n this i s =
    (match ref i with
     | Some r => intrusive_ptr_add_ref r
     | None => mret tt
     end;;
     put_node this (with_dependents (i :: dependents nd) nd)) s.
Proof.
  intros Hw Hk Hl Hn. unfold Node_connect.
  rewrite (bind_run _ _ _ _ _ (spin_trylock_run _ _ _ _ Hw Hl Hn)).
  set (wl := with_next (Z.lor (next w) flags.LOCK) w).
  rewrite (bind_run _ _ _ _ _
             (get_node_run this _ wl nd (set_work_lookup _ _ _) Hk)).
  destruct (ref i) as [r|].
  - destruct (decide (r = this)) as [->|Hne].
    + rewrite (bind_run _ _ _ _ _
                 (intrusive_ptr_add_ref_run _ _ _ (set_work_lookup _ _ _))).
      rewrite set_work_set_work.
      rewrite (bind_run _ _ _ _ _ (put_node_run _ _ _ _ (set_work_lookup _ _ _))).
      rewrite set_work_set_work.
      rewrite (release_run _ _ _ (set_work_lookup _ _ _)).
      rewrite set_work_set_work.
      rewrite (bind_run _ _ _ _ _ (intrusive_ptr_add_ref_run _ _ _ Hw)).
      rewrite (put_node_run _ _ _ _ (set_work_lookup _ _ _)).
      rewrite set_work_set_work. simpl.
      rewrite pointer_bits_lor_LOCK, pointer_bits_lock_free by done.
      reflexivity.
    + destruct (works s !! r) as [wr|] eqn:Hwr.
      * assert (works (set_work this wl s) !! r = Some wr) as Hwr1
          by (by rewrite set_work_lookup_ne).
        rewrite (bind_run _ _ _ _ _ (intrusive_ptr_add_ref_run _ _ _ Hwr1)).
        rewrite set_work_comm by done.
        rewrite (bind_run _ _ _ _ _ (put_node_run _ _ _ _ (set_work_lookup _ _ _))).
        rewrite set_work_set_work.
        rewrite (release_run _ _ _ (set_work_lookup _ _ _)).
        rewrite set_work_set_work.
        rewrite (bind_run _ _ _ _ _ (intrusive_ptr_add_ref_run _ _ _ Hwr)).
        assert (works (set_work r (with_refcount
                         (wrap fast16_bits (refcount wr + 1)) wr) s) !! this
                = Some w) as Hw1 by (by rewrite set_work_lookup_ne).
        rewrite (put_node_run _ _ _ _ Hw1). simpl.
        rewrite pointer_bits_lor_LOCK, pointer_bits_lock_free by done.
        reflexivity.
      * assert (∀ s0 : State (V:=V), works s0 !! r = None →
                  intrusive_ptr_add_ref r s0 = Undefined) as Hdangling.
        { intros s0 H0.
          unfold intrusive_ptr_add_ref, mbind, M_bind, get_work.
          by rewrite H0. }
        unfold mbind, M_bind.
        rewrite !Hdangling; [done..|by rewrite set_work_lookup_ne].
  - unfold mbind, M_bind, mret, M_ret.
    rewrite (put_node_run _ _ _ _ (set_work_lookup _ _ _)).
    rewrite set_work_set_work.
    rewrite (release_run _ _ _ (set_work_lookup _ _ _)).
    rewrite set_work_set_work.
    rewrite (put_node_run _ _ _ _ Hw). simpl.
    rewrite pointer_bits_lor_LOCK, pointer_bits_lock_free by done.
    reflexivity.
Qed.

Lemma filter_none {A} (Q : A → Prop) `{!∀ x, Decision (Q x)} (l : list A) :
  Forall (λ x, ¬ Q x) l → filter Q l = [].
Proof.
  induction 1 as [|x l Hx Hl IH]; [done|].
  by rewrite filter_cons_False.
Qed.

Lemma Node_disconnect_run n (this : Z) (i : Input) s w nd :
  works s !! this = Some w → kind w = NodeOf nd →
  lock_bit (next w) = 0 → (0 < n)%nat →
  filter (λ b, Input_eq b i = true) (dependents nd) = [i] →
  (∀ r, ref i = Some r →
        ∃ wr, works s !! r = Some wr ∧
              wrap fast16_bits (refcount wr - 1) ≠ 0) →
  Node_disconnect n this i s =
    (put_node this
       (with_dependents (forward_list_remove i (dependents nd)) nd);;
     match ref i with
     | Some r => intrusive_ptr_release r
     | None => mret tt
     end) s.
Proof.
  intros Hw Hk Hl Hn Hm Hr. unfold Node_disconnect.
  rewrite (bind_run _ _ _ _ _ (spin_trylock_run _ _ _ _ Hw Hl Hn)).
  set (wl := with_next (Z.lor (next w) flags.LOCK) w).
  rewrite (bind_run _ _ _ _ _
             (get_node_run this _ wl nd (set_work_lookup _ _ _) Hk)).
  rewrite (bind_run _ _ _ _ _ (put_node_run _ _ _ _ (set_work_lookup _ _ _))).
  rewrite set_work_set_work.
  rewrite (bind_run _ _ _ _ _ (put_node_run _ _ _ _ Hw)).
  rewrite Hm. simpl. destruct (ref i) as [r|].
  - destruct (Hr r eq_refl) as (wr & Hwr & Hne0).
    destruct (decide (r = this)) as [->|Hne].
    + assert (wr = w) as -> by congruence.
      set (nd' := with_dependents (forward_list_remove i (dependents nd)) nd).
      set (w2 := with_kind (NodeOf nd') wl).
      set (w3 := with_kind (NodeOf nd') w).
      assert (wrap fast16_bits (refcount w2 - 1) ≠ 0) as Hne2 by exact Hne0.
      assert (wrap fast16_bits (refcount w3 - 1) ≠ 0) as Hne3 by exact Hne0.
      rewrite (bind_run _ _ _ _ _
                 (bind_run _ _ _ _ _
                    (intrusive_ptr_release_run this _ w2
                       (set_work_lookup _ _ _) Hne2))).
      rewrite set_work_set_work.
      rewrite (release_run _ _ _ (set_work_lookup _ _ _)).
      rewrite set_work_set_work.
      rewrite (intrusive_ptr_release_run this _ w3 (set_work_lookup _ _ _) Hne3).
      rewrite set_work_set_work. simpl.
      rewrite pointer_bits_lor_LOCK, pointer_bits_lock_free by done.
      reflexivity.
    + set (nd' := with_dependents (forward_list_remove i (dependents nd)) nd).
      set (w2 := with_kind (NodeOf nd') wl).
      set (w3 := with_kind (NodeOf nd') w).
      assert (works (set_work this w2 s) !! r = Some wr) as Hwr2
        by (by rewrite set_work_lookup_ne).
      assert (works (set_work this w3 s) !! r = Some wr) as Hwr3
        by (by rewrite set_work_lookup_ne).
      rewrite (bind_run _ _ _ _ _
                 (bind_run _ _ _ _ _
                    (intrusive_ptr_release_run r _ wr Hwr2 Hne0))).
      rewrite (set_work_comm r this) by done.
      rewrite (release_run _ _ _ (set_work_lookup _ _ _)).
      rewrite set_work_set_work.
      rewrite (intrusive_ptr_release_run r _ wr Hwr3 Hne0).
      rewrite (set_work_comm r this) by done. simpl.
      rewrite pointer_bits_lor_LOCK, pointer_bits_lock_free by done.
      reflexivity.
  - unfold mbind, M_bind, mret, M_ret.
    rewrite (release_run _ _ _ (set_work_lookup _ _ _)).
    rewrite set_work_set_work. simpl.
    rewrite pointer_bits_lor_LOCK, pointer_bits_lock_free by done.
    reflexivity.
Qed.

(** X5: An Input connected to a Node that did not hold it, and disconnected
    again, leaves the store as it was: the dependents list, the reference
    count of the Input's Work and the flag of the Node. *)
Theorem connect_disconnect_round_trip n (this : Z) (i : Input) s w nd :
  works s !! this = Some w → kind w = NodeOf nd →
  lock_bit (next w) = 0 → (0 < n)%nat →
  Forall (λ b, in_ b ≠ in_ i) (dependents nd) →
  (∀ r, ref i = Some r →
        ∃ wr, works s !! r = Some wr ∧ 0 < refcount wr < 2 ^ fast16_bits) →
  (Node_connect n this i;; Node_disconnect n this i) s = Ok (tt, s).
Proof.
  intros Hw Hk Hl Hn Hno Hr.
  set (nd1 := with_dependents (i :: dependents nd) nd).
  assert (filter (λ b, Input_eq b i = true) (dependents nd1) = [i]) as Hm.
  { simpl. rewrite filter_cons_True
      by (unfold Input_eq; by rewrite bool_decide_eq_true_2).
    f_equal. apply filter_none.
    eapply Forall_impl; [exact Hno|]. intros b Hb. unfold Input_eq.
    by rewrite bool_decide_eq_false_2. }
  assert (with_dependents (forward_list_remove i (dependents nd1)) nd1 = nd)
    as Hback.
  { rewrite forward_list_remove_filter. simpl.
    rewrite filter_cons_False by (intros H; by apply H).
    rewrite filter_all by done. by destruct nd. }
  assert (with_kind (NodeOf nd) w = w) as Hwk by (destruct w; simpl in *; by subst).
  unfold mbind at 1, M_bind at 1.
  rewrite (Node_connect_run _ _ _ _ _ _ Hw Hk Hl Hn). fold nd1.
  destruct (ref i) as [r|] eqn:Hri.
  - destruct (Hr r eq_refl) as (wr & Hwr & Hrc).
    destruct (decide (r = this)) as [->|Hne].
    + assert (wr = w) as Hww by congruence. subst wr.
      pose proof (add_ref_release_refcount _ (conj (Z.lt_le_incl _ _ (proj1 Hrc))
                                                 (proj2 Hrc))) as Hround.
      rewrite (bind_run _ _ _ _ _ (intrusive_ptr_add_ref_run _ _ _ Hwr)).
      set (c := wrap fast16_bits (refcount w + 1)) in *.
      rewrite (put_node_run _ _ _ _ (set_work_lookup _ _ _)).
      rewrite set_work_set_work.
      set (wc := with_kind (NodeOf nd1) (with_refcount c w)).
      rewrite (Node_disconnect_run n this i _ wc nd1);
        [|apply set_work_lookup|done|done|done|done|].
      * rewrite Hri, Hback.
        rewrite (bind_run _ _ _ _ _ (put_node_run _ _ _ _ (set_work_lookup _ _ _))).
        rewrite set_work_set_work.
        rewrite (intrusive_ptr_release_run _ _ _ (set_work_lookup _ _ _));
          simpl; rewrite Hround; [|lia].
        rewrite set_work_set_work. do 2 f_equal.
        transitivity (set_work this w s); [|by apply set_work_id].
        f_equal. etrans; [|exact Hwk]. reflexivity.
      * intros r' Hr'. rewrite Hri in Hr'. inversion Hr'; subst r'.
        exists wc. split; [apply set_work_lookup|]. simpl. rewrite Hround. lia.
    + pose proof (add_ref_release_refcount _ (conj (Z.lt_le_incl _ _ (proj1 Hrc))
                                                 (proj2 Hrc))) as Hround.
      rewrite (bind_run _ _ _ _ _ (intrusive_ptr_add_ref_run _ _ _ Hwr)).
      set (c := wrap fast16_bits (refcount wr + 1)) in *.
      assert (works (set_work r (with_refcount c wr) s) !! this = Some w) as Hw1
        by (by rewrite set_work_lookup_ne).
      rewrite (put_node_run _ _ _ _ Hw1).
      set (wc := with_kind (NodeOf nd1) w).
      rewrite (Node_disconnect_run n this i _ wc nd1);
        [|apply set_work_lookup|done|done|done|done|].
      * rewrite Hri, Hback.
        rewrite (bind_run _ _ _ _ _ (put_node_run _ _ _ _ (set_work_lookup _ _ _))).
        rewrite set_work_set_work.
        assert (works (set_work this (with_kind (NodeOf nd) wc)
                         (set_work r (with_refcount c wr) s)) !! r
                = Some (with_refcount c wr)) as Hwr1.
        { rewrite set_work_lookup_ne by done. apply set_work_lookup. }
        rewrite (intrusive_ptr_release_run _ _ _ Hwr1);
          simpl; rewrite Hround; [|lia].
        rewrite (set_work_comm r this) by done.
        rewrite set_work_set_work. do 2 f_equal.
        transitivity (set_work this w s); [|by apply set_work_id].
        unfold wc. simpl.
        change (with_kind (NodeOf nd) (with_kind (NodeOf nd1) w))
          with (with_kind (NodeOf nd) w). rewrite Hwk.
        f_equal.
        transitivity (set_work r wr s); [|by apply set_work_id].
        f_equal. by destruct wr.
      * intros r' Hr'. rewrite Hri in Hr'. inversion Hr'; subst r'.
        exists (with_refcount c wr). split.
        -- rewrite set_work_lookup_ne by done. apply set_work_lookup.
        -- simpl. rewrite Hround. lia.
  - unfold mbind, M_bind, mret, M_ret.
    rewrite (put_node_run _ _ _ _ Hw).
    set (wc := with_kind (NodeOf nd1) w).
    rewrite (Node_disconnect_run n this i _ wc nd1);
      [|apply set_work_lookup|done|done|done|done|].
    + rewrite Hri, Hback. unfold mbind, M_bind, mret, M_ret.
      rewrite (put_node_run _ _ _ _ (set_work_lookup _ _ _)).
      rewrite set_work_set_work. do 2 f_equal.
      transitivity (set_work this w s); [|by apply set_work_id].
      f_equal. etrans; [|exact Hwk]. reflexivity.
    + intros r' Hr'. by rewrite Hri in Hr'.
Qed.

(** ** Appending to an Input *)

Lemma store_at_slot_run a (k : nat) (v : V) s w nd c :
  works s !! a = Some w → kind w = NodeOf nd → inputs nd !! k = Some c →
  store_at (InputSlot a k) v s
    = Ok (tt, set_work a
                (with_kind (NodeOf (with_inputs (<[k:={| val := v |}]> (inputs nd))
                                      nd)) w) s).
Proof.
  intros Hw Hk Hc. unfold store_at.
  rewrite (bind_run _ _ _ _ _ (get_node_run _ _ _ _ Hw Hk)). rewrite Hc.
  by rewrite (put_node_run _ _ _ _ Hw).
Qed.

(** X6: Two values appended to the same Input before a pass coalesce: the
    Node is on the intake queue once, with one reference for the queue, and
    its slot holds the value appended last; but for what is left of the
    oracle the store is the one the second append alone gives. *)
Theorem Input_append_coalesces a (k : nat) (v1 v2 : V) s w nd c :
  works s !! a = Some w → kind w = NodeOf nd → inputs nd !! k = Some c →
  pointer_bits (next w) = 0 →
  0 ≤ refcount w → refcount w + 1 < 2 ^ fast16_bits →
  aligned (work_queue (graph s)) → work_queue (graph s) ≠ 0 →
  ∃ s1 s2,
    (Input_append (Node_input a k) v1;; Input_append (Node_input a k) v2) s
      = Ok (tt, s1) ∧
    Input_append (Node_input a k) v2 s = Ok (tt, s2) ∧
    with_spurious [] s1 = with_spurious [] s2 ∧
    work_queue (graph s1) = a ∧
    ∃ w1 nd1,
      works s1 !! a = Some w1 ∧ kind w1 = NodeOf nd1 ∧
      inputs nd1 !! k = Some {| val := v2 |} ∧
      refcount w1 = refcount w + 1 ∧
      pointer_bits (next w1) = work_queue (graph s).
Proof.
  intros Hw Hk Hc Hp Hr0 Hr1 Hal Hh.
  assert (∀ v, ∃ l,
    Input_append (Node_input a k) v s
      = Ok (tt, enqueued a
                  (with_refcount (wrap fast16_bits (refcount w + 1))
                     (with_kind (NodeOf (with_inputs
                                           (<[k:={| val := v |}]> (inputs nd)) nd)) w))
                  (work_queue (graph s)) l
                  (set_work a
                     (with_kind (NodeOf (with_inputs
                                           (<[k:={| val := v |}]> (inputs nd)) nd)) w)
                     s))) as Happend.
  { intros v. unfold Input_append. simpl.
    rewrite (bind_run _ _ _ _ _ (store_at_slot_run _ _ v _ _ _ _ Hw Hk Hc)).
    set (wv := with_kind _ w).
    exact (schedule_enqueue a (set_work a wv s) wv (set_work_lookup _ _ _)
             Hp Hal). }
  destruct (Happend v1) as [l1 H1]. destruct (Happend v2) as [l2 H2].
  clear Happend.
  set (h := work_queue (graph s)) in *.
  set (rc := wrap fast16_bits (refcount w + 1)) in *.
  assert (rc = refcount w + 1) as Hrc by (apply wrap_small; lia).
  pose proof (lookup_lt_Some _ _ _ Hc) as Hlen.
  set (nd1 := with_inputs (<[k:={| val := v1 |}]> (inputs nd)) nd) in *.
  set (e1 := enqueued a (with_refcount rc (with_kind (NodeOf nd1) w)) h l1
               (set_work a (with_kind (NodeOf nd1) w) s)) in *.
  set (we1 := with_next (Z.lor h (lock_bit (next w)))
                (with_refcount rc (with_kind (NodeOf nd1) w))).
  assert (works e1 !! a = Some we1) as Hwe1 by apply lookup_insert_eq.
  assert (inputs nd1 !! k = Some {| val := v1 |}) as Hc1
    by (by apply list_lookup_insert_eq).
  set (nd2 := with_inputs (<[k:={| val := v2 |}]> (inputs nd1)) nd1).
  set (wb := with_kind (NodeOf nd2) we1).
  assert (pointer_bits (next wb) = h) as Hpb
    by apply (pointer_bits_lor _ _ Hal (lock_bit_cases _)).
  assert ((Input_append (Node_input a k) v1;;
           Input_append (Node_input a k) v2) s = Ok (tt, set_work a wb e1))
    as Hboth.
  { rewrite (bind_run _ _ _ _ _ H1). unfold Input_append.
    cbn [Node_input in_ ref].
    rewrite (bind_run _ _ _ _ _
               (store_at_slot_run _ _ v2 _ _ _ _ Hwe1 eq_refl Hc1)).
    apply (schedule_queued a _ wb (set_work_lookup _ _ _)).
    - by rewrite Hpb.
    - simpl. lia. }
  exists (set_work a wb e1). eexists. split; [exact Hboth|].
  split; [exact H2|]. split; [|split; [done|]].
  - unfold with_spurious, set_work, enqueued, with_works. simpl.
    rewrite !insert_insert_eq. do 3 f_equal.
    unfold wb, we1, with_kind, with_next, with_refcount. simpl. do 2 f_equal.
    unfold nd2, nd1, with_inputs. simpl. f_equal.
    apply list_insert_insert_eq.
  - exists wb, nd2. split; [apply set_work_lookup|]. split; [done|].
    split; [|done]. simpl. apply list_lookup_insert_eq.
    by rewrite length_insert.
Qed.

(** ** The counters of a pass *)

Lemma uint16_succ x : uint16 (uint16 x + 1) = uint16 (x + 1).
Proof. unfold uint16, wrap. by rewrite Zplus_mod_idemp_l. Qed.

Lemma uint16_add x y : uint16 (uint16 x + uint16 y) = uint16 (x + y).
Proof. unfold uint16, wrap. by rewrite <- Zplus_mod. Qed.

Lemma incr_queued_tally nq nw nx ng nh :
  incr_queued (Some (tally nq nw nx ng nh)) = Some (tally (nq + 1) nw nx ng nh).
Proof. unfold incr_queued, tally. simpl. by rewrite uint16_succ. Qed.

Lemma incr_worked_tally nq nw nx ng nh :
  incr_worked (Some (tally nq nw nx ng nh)) = Some (tally nq (nw + 1) nx ng nh).
Proof. unfold incr_worked, tally. simpl. by rewrite uint16_succ. Qed.

Lemma incr_duplicates_tally nq nw nx ng nh :
  incr_duplicates (Some (tally nq nw nx ng nh))
    = Some (tally nq nw (nx + 1) ng nh).
Proof. unfold incr_duplicates, tally. simpl. by rewrite uint16_succ. Qed.

Lemma incr_pushed_graph_tally nq nw nx ng nh :
  incr_pushed_graph (Some (tally nq nw nx ng nh))
    = Some (tally nq nw nx (ng + 1) nh).
Proof. unfold incr_pushed_graph, tally. simpl. by rewrite uint16_succ. Qed.

Lemma incr_pushed_heap_tally nq nw nx ng nh :
  incr_pushed_heap (Some (tally nq nw nx ng nh))
    = Some (tally nq nw nx ng (nh + 1)).
Proof. unfold incr_pushed_heap, tally. simpl. by rewrite uint16_succ. Qed.

Lemma iter_incr_duplicates_tally (k : nat) nq nw nx ng nh :
  Nat.iter k incr_duplicates (Some (tally nq nw nx ng nh))
    = Some (tally nq nw (nx + Z.of_nat k) ng nh).
Proof.
  induction k as [|k IH]; simpl.
  - by rewrite Z.add_0_r.
  - rewrite IH, incr_duplicates_tally. do 2 f_equal. lia.
Qed.

Lemma grows_refl ws : grows ws ws [] 0.
Proof.
  split; [done|]. split; [done|]. intros nq nw nx ng nh ->.
  simpl. by rewrite !Z.add_0_r.
Qed.

Lemma grows_trans ws1 ws2 ws3 e1 e2 k1 k2 :
  grows ws1 ws2 e1 k1 → grows ws2 ws3 e2 k2 →
  grows ws1 ws3 (e2 ++ e1) (k1 + k2).
Proof.
  intros (H1 & P1 & S1) (H2 & P2 & S2). split; [lia|]. split.
  - rewrite P2, P1. by rewrite app_assoc.
  - intros nq nw nx ng nh Hst.
    rewrite (S2 _ _ _ _ _ (S1 _ _ _ _ _ Hst)). do 2 f_equal; [lia|].
    rewrite length_app. lia.
Qed.

Lemma add_to_queue_grows a ws s ws' s' :
  add_to_queue a ws s = Ok (ws', s') → ∃ extra kg, grows ws ws' extra kg.
Proof.
  unfold add_to_queue. intros H.
  apply bind_Ok in H as (w & ? & [Hw ->]%get_work_Ok & H).
  destruct (id w <=? current_id ws).
  - apply bind_Ok in H as (? & s1 & _ & [= <- <-]).
    exists [], 1. split; [lia|]. split; [done|].
    intros nq nw nx ng nh Hst. simpl. rewrite Hst, incr_pushed_graph_tally.
    by rewrite Z.add_0_r.
  - apply bind_Ok in H as (? & s1 & _ & [= <- <-]).
    exists [(id w, a)], 0. split; [lia|]. split.
    + simpl. apply pq_push_Permutation.
    + intros nq nw nx ng nh Hst. simpl. rewrite Hst, incr_pushed_heap_tally.
      by rewrite Z.add_0_r.
Qed.

Lemma notify_grows deps (v : V) : ∀ ws s ws' s',
  notify deps v ws s = Ok (ws', s') → ∃ extra kg, grows ws ws' extra kg.
Proof.
  induction deps as [|d deps IH]; intros ws s ws' s' H.
  - inversion H; subst. eauto using grows_refl.
  - simpl in H. apply bind_Ok in H as (? & s1 & _ & H).
    apply bind_Ok in H as (ws2 & s2 & H2 & H).
    assert (∃ extra kg, grows ws ws2 extra kg) as (e1 & k1 & G1).
    { destruct (ref d); [exact (add_to_queue_grows _ _ _ _ _ H2)|].
      inversion H2; subst. eauto using grows_refl. }
    destruct (IH _ _ _ _ H) as (e2 & k2 & G2).
    eauto using grows_trans.
Qed.

Lemma Node_eval_grows a ws s ws' s' :
  Node_eval a ws s = Ok (ws', s') → ∃ extra kg, grows ws ws' extra kg.
Proof.
  unfold Node_eval. intros H.
  apply bind_Ok in H as (acquired & s1 & H1 & H).
  destruct acquired; simpl in H.
  - apply bind_Ok in H as (nd & ? & (w & Hw & Hk & ->)%get_node_Ok & H).
    destruct (Propagate_call (propagate nd) (call_fn nd)) as [fire policy].
    apply bind_Ok in H as (? & s2 & H2 & H).
    apply bind_Ok in H as (ws3 & s3 & H3 & H).
    apply bind_Ok in H as (? & s4 & _ & [= <- <-]).
    destruct fire; [exact (notify_grows _ _ _ _ _ _ H3)|].
    inversion H3; subst. eauto using grows_refl.
  - exact (add_to_queue_grows _ _ _ _ _ H).
Qed.

Lemma Work_eval_grows a ws s ws' s' :
  Work_eval a ws s = Ok (ws', s') → ∃ extra kg, grows ws ws' extra kg.
Proof.
  unfold Work_eval. intros H.
  apply bind_Ok in H as (w & ? & [Hw ->]%get_work_Ok & H).
  destruct (kind w); [done | exact (Node_eval_grows _ _ _ _ _ H)].
Qed.


(** The loop over the heap evaluates, by id, every entry of the heap: an
    entry is popped to be evaluated or dropped as a duplicate of one that
    is.  Every entry popped was pushed. *)
Lemma run_heap_account n : ∀ ws s ws' s' lo hi,
  run_heap n ws s = Ok (ws', s') →
  heap_inv lo hi s (q ws) →
  ∃ evs (ndup kg kh : Z),
    evals s' = evals s ++ evs ∧
    (∀ e, e ∈ q ws → e.1 ∈ evs.*2) ∧
    0 ≤ ndup ∧ 0 ≤ kg ∧ 0 ≤ kh ∧
    Z.of_nat (length evs) + ndup = Z.of_nat (length (q ws)) + kh ∧
    ∀ nq nw nx ng nh,
      stats ws = Some (tally nq nw nx ng nh) →
      stats ws' = Some (tally nq (nw + Z.of_nat (length evs)) (nx + ndup)
                          (ng + kg) (nh + kh)).
Proof.
  induction n as [|n IH]; intros ws s ws' s' lo hi H Hh; [done|].
  simpl in H. destruct (q ws) as [|[k0 a] rest] eqn:Hq.
  { inversion H; subst. exists [], 0, 0, 0. rewrite app_nil_r.
    split; [done|]. split; [by intros e ?%elem_of_nil|].
    do 3 (split; [done|]). split; [done|].
    intros nq nw nx ng nh ->. simpl. by rewrite !Z.add_0_r. }
  apply bind_Ok in H as (work & ? & [Hw ->]%get_work_Ok & H).
  apply bind_Ok in H as ([st rest'] & s1 & H1 & H).
  apply bind_Ok in H as (? & s2 & [= <- <-] & H).
  apply bind_Ok in H as (ws2 & s3 & H3 & H).
  apply bind_Ok in H as (? & s4 & H4 & H).
  destruct (run_heap_step _ _ _ _ _ _ _ _ _ _ _ _ _ _ _ Hh Hw H1 H3 H4)
    as [_ Hh4].
  pose proof (heap_keys _ _ _ _ Hh) as Hk.
  apply Forall_cons in Hk as [[_ Hid] _]. simpl in Hid.
  specialize (Hid _ Hw). subst k0.
  destruct (drop_duplicates_spec _ _ _ _ _ _ _ H1)
    as (dups & -> & Hdups & _ & -> & Q1 & _).
  destruct (Work_eval_grows _ _ _ _ _ H3) as (extra & kg3 & Hkg3 & P3 & S3).
  simpl in P3, S3.
  destruct (IH _ _ _ _ _ _ H Hh4)
    as (evs & ndup & kg & kh & Hev & Hcov & Hnd & Hkg & Hkh & Hlen & Hst).
  simpl in Hcov, Hlen, Hst.
  exists ((a, id work) :: evs), (Z.of_nat (length dups) + ndup),
         (kg3 + kg), (Z.of_nat (length extra) + kh).
  split; [|split; [|split; [lia|split; [lia|split; [lia|split]]]]].
  - pose proof (intrusive_ptr_release_quiet _ _ _ _ H4) as Q4.
    destruct (Work_eval_inv _ _ _ _ _ H3) as (E3 & _ & _).
    rewrite Hev, (evolves_evals _ _ (quiet_evolves _ _ Q4)),
      (evolves_evals _ _ E3).
    simpl. rewrite (evolves_evals _ _ (quiet_evolves _ _ Q1)).
    by rewrite <- app_assoc.
  - intros e He. rewrite fmap_cons. simpl. apply elem_of_cons.
    apply elem_of_cons in He as [->|He]; [by left|].
    apply elem_of_app in He as [He|He].
    + left. rewrite Forall_forall in Hdups. by apply Hdups.
    + right. apply Hcov. rewrite P3. apply elem_of_app. by right.
  - rewrite P3 in Hlen. cbn [length]. rewrite !length_app in *. lia.
  - intros nq nw nx ng nh Hs0.
    rewrite Hs0, iter_incr_duplicates_tally in S3.
    specialize (S3 _ _ _ _ _ eq_refl).
    rewrite S3, incr_worked_tally in Hst.
    rewrite (Hst _ _ _ _ _ eq_refl). simpl. f_equal. f_equal; lia.
Qed.

(** The loop over the intake queue returns exactly when the queue is
    linked up to the Tombstone. *)
Lemma drain_chained n : ∀ h ws s ws' s',
  drain n h ws s = Ok (ws', s') →
  ∃ l, chain s h l ∧ ws' = drained s l ws.
Proof.
  induction n as [|n IH]; intros h ws s ws' s' H; [done|].
  simpl in H. apply bind_Ok in H as (t & ? & [= <- <-] & H).
  destruct (Z.eqb_spec h (tombstone (graph s))) as [->|Hne].
  { inversion H; subst. by exists []. }
  apply bind_Ok in H as (work & ? & [Hw ->]%get_work_Ok & H).
  apply bind_Ok in H as (nxt & s1 & H1 & H).
  unfold readnext in H1.
  rewrite (bind_run _ _ _ _ _ (get_work_run _ _ _ Hw)) in H1.
  inversion H1; subst.
  destruct (IH _ _ _ _ _ H) as (l & Hl & ->).
  exists (h :: l). split.
  - simpl. split; [done|]. split; [done|]. eauto.
  - simpl. by rewrite Hw.
Qed.

Lemma drained_account s : ∀ l h ws,
  chain s h l →
  (∀ e, e ∈ q ws → e ∈ q (drained s l ws)) ∧
  (∀ a w, a ∈ l → works s !! a = Some w → (id w, a) ∈ q (drained s l ws)) ∧
  length (q (drained s l ws)) = (length (q ws) + length l)%nat ∧
  ∀ nq nw nx ng nh,
    stats ws = Some (tally nq nw nx ng nh) →
    stats (drained s l ws)
      = Some (tally (nq + Z.of_nat (length l)) nw nx ng nh).
Proof.
  induction l as [|a l IH]; intros h ws Hc.
  - simpl. split; [done|]. split; [by intros a w ?%elem_of_nil|].
    split; [lia|]. intros nq nw nx ng nh ->. by rewrite Z.add_0_r.
  - destruct Hc as (-> & Hne & w & Hw & Hc). simpl. rewrite Hw.
    destruct (IH _ (with_stats (incr_queued (stats ws))
                      (with_q (pq_push (id w, a) (q ws)) ws)) Hc)
      as (Hold & Hnew & Hlen & Hst).
    simpl in Hold, Hlen, Hst. split; [|split; [|split]].
    + intros e He. apply Hold. rewrite pq_push_Permutation. by right.
    + intros b wb [->|Hb]%elem_of_cons Hwb.
      * assert (wb = w) as -> by congruence.
        apply Hold. rewrite pq_push_Permutation. by left.
      * by apply Hnew.
    + rewrite Hlen, pq_push_Permutation. simpl. lia.
    + intros nq nw nx ng nh Hs0. rewrite Hs0, incr_queued_tally in Hst |- *.
      rewrite (Hst _ _ _ _ _ eq_refl). do 2 f_equal. lia.
Qed.

Lemma chain_unique s : ∀ l l' h, chain s h l → chain s h l' → l = l'.
Proof.
  induction l as [|a l IH]; intros [|a' l'] h H H'; simpl in *.
  - done.
  - destruct H' as (-> & Hne & _). done.
  - destruct H as (-> & Hne & _). done.
  - destruct H as (-> & _ & w & Hw & H), H' as (-> & _ & w' & Hw' & H').
    assert (w' = w) as -> by congruence. f_equal. by eapply IH.
Qed.


Lemma evaluate_account n st s b st' s' :
  evaluate n st s = Ok ((b, st'), s') →
  ∃ l evs (ndup kg kh : Z),
    chain s (work_queue (graph s)) l ∧
    evals s' = evals s ++ evs ∧
    (∀ a w, a ∈ l → works s !! a = Some w → id w ∈ evs.*2) ∧
    0 ≤ ndup ∧ 0 ≤ kg ∧ 0 ≤ kh ∧
    Z.of_nat (length evs) + ndup = Z.of_nat (length l) + kh ∧
    (is_Some st →
     st' = Some (tally (Z.of_nat (length l)) (Z.of_nat (length evs))
                   ndup kg kh)).
Proof.
  unfold evaluate. intros H.
  apply bind_Ok in H as (t & ? & [= <- <-] & H).
  apply bind_Ok in H as (h & ? & [= <- <-] & H).
  apply bind_Ok in H as (? & s0 & [= <- <-] & H).
  destruct (Z.eqb_spec (work_queue (graph s)) (tombstone (graph s))) as [Heq|Hne].
  { inversion H; subst. exists [], [], 0, 0, 0. rewrite app_nil_r.
    split; [done|]. split; [done|].
    split; [by intros a w ?%elem_of_nil|]. do 4 (split; [done|]).
    by intros [t0 ->]. }
  apply bind_Ok in H as (work1 & s1 & H1 & H).
  apply bind_Ok in H as (work2 & s2 & H2 & [= <- <- <-]).
  destruct (drain_inv _ _ _ _ _ _ H1) as (-> & _ & _ & Hh).
  destruct (drain_chained _ _ _ _ _ _ H1) as (l & Hl & ->).
  set (s0 := with_work_queue (tombstone (graph s)) s) in *.
  set (ws0 := {| q := []; stats := (λ _, EmptyStats) <$> st; current_id := 0 |})
    in *.
  destruct (ids_bounded (works s)) as (lo & hi & Hb).
  assert (heap_inv lo hi s0 (q (drained s0 l ws0))) as Hinv.
  { apply Hh; [intros a w Hw; apply Hb in Hw; lia|].
    split; [constructor | constructor |]. intros a w Hw. apply Hb in Hw. lia. }
  destruct (run_heap_account _ _ _ _ _ _ _ H2 Hinv)
    as (evs & ndup & kg & kh & Hev & Hcov & Hnd & Hkg & Hkh & Hlen & Hst).
  destruct (drained_account s0 l _ ws0 Hl) as (_ & Hnew & Hdl & Hds).
  exists l, evs, ndup, kg, kh.
  split; [by apply (chain_frame s0 s)|]. split; [done|].
  split; [|split; [done|split; [done|split; [done|split]]]].
  - intros a w Ha Hw. exact (Hcov _ (Hnew a w Ha Hw)).
  - rewrite Hdl in Hlen. simpl in Hlen. lia.
  - intros [t0 ->]. simpl in Hds.
    specialize (Hds 0 0 0 0 0 eq_refl).
    rewrite (Hst _ _ _ _ _ Hds). by rewrite !Z.add_0_l.
Qed.

(** X7: What a pass reports: [queued] counts the Works it took off the intake
    queue and [worked] the Works it evaluated, as [uint16_t] counters; and
    every entry pushed onto the heap, from the intake queue or by a Node
    for a dependent, was popped to be evaluated or dropped as a duplicate:
    [worked + duplicates] is [queued + pushed_heap] in [uint16_t]. *)
Theorem evaluate_counters n st0 s b st s' :
  evaluate n (Some st0) s = Ok ((b, st), s') →
  ∃ l evs t,
    chain s (work_queue (graph s)) l ∧
    evals s' = evals s ++ evs ∧
    st = Some t ∧
    queued t = uint16 (Z.of_nat (length l)) ∧
    worked t = uint16 (Z.of_nat (length evs)) ∧
    uint16 (worked t + duplicates t) = uint16 (queued t + pushed_heap t).
Proof.
  intros H.
  destruct (evaluate_account _ _ _ _ _ _ H)
    as (l & evs & ndup & kg & kh & Hl & Hev & _ & _ & _ & _ & Hlen & Hst).
  specialize (Hst (ltac:(eauto))).
  exists l, evs, (tally (Z.of_nat (length l)) (Z.of_nat (length evs))
                    ndup kg kh).
  split; [done|]. split; [done|]. split; [done|]. split; [done|].
  split; [done|]. simpl. rewrite !uint16_add. by rewrite Hlen.
Qed.

(** X8: Every Work that is on the intake queue when a pass starts is evaluated
    by the pass: the pass over a well-formed store returns, and the id of
    each Work of the queue is among the ids it evaluated. *)
Theorem evaluate_reaches_the_queue st s l :
  well_formed s l →
  ∃ n0, ∀ n, (n0 ≤ n)%nat →
    ∃ b st' s' evs,
      evaluate n st s = Ok ((b, st'), s') ∧
      evals s' = evals s ++ evs ∧
      ∀ a w, a ∈ l → works s !! a = Some w → id w ∈ evs.*2.
Proof.
  intros Hwf. destruct (evaluate_safe st s l Hwf) as [n0 Hn0].
  exists n0. intros n Hn. destruct (Hn0 n Hn) as (b & st' & s' & H).
  destruct (evaluate_account _ _ _ _ _ _ H)
    as (l' & evs & _ & _ & _ & Hl & Hev & Hcov & _).
  rewrite (chain_unique _ _ _ _ (wf_chain _ _ Hwf) Hl).
  by exists b, st', s', evs.
Qed.

(** ** A pass does not depend on its counters *)

Lemma seen_inv {A B} (g : A → B) (r1 r2 : Result (A * State (V:=V))) :
  seen g r1 = seen g r2 →
  (∃ x1 x2 s', r1 = Ok (x1, s') ∧ r2 = Ok (x2, s') ∧ g x1 = g x2) ∨
  (r1 = Undefined ∧ r2 = Undefined) ∨ (r1 = Timeout ∧ r2 = Timeout).
Proof.
  destruct r1 as [[x1 s1]| |], r2 as [[x2 s2]| |]; simpl; intros H;
    try discriminate; [|by right; left|by right; right].
  inversion H; subst. left. by exists x1, x2, s2.
Qed.

Lemma seen_bind {A B C} (g : B → C) (m : M (V:=V) A) (f1 f2 : A → M B) s :
  (∀ x s1, m s = Ok (x, s1) → seen g (f1 x s1) = seen g (f2 x s1)) →
  seen g ((m ≫= f1) s) = seen g ((m ≫= f2) s).
Proof.
  intros H. unfold mbind, M_bind.
  destruct (m s) as [[x s1]| |]; [by apply H|done..].
Qed.

Lemma seen_bind2 {A A' B C} (g : B → C) (g0 : A → A')
    (m1 m2 : M (V:=V) A) (f1 f2 : A → M B) s :
  seen g0 (m1 s) = seen g0 (m2 s) →
  (∀ x1 x2 s1, g0 x1 = g0 x2 → seen g (f1 x1 s1) = seen g (f2 x2 s1)) →
  seen g ((m1 ≫= f1) s) = seen g ((m2 ≫= f2) s).
Proof.
  intros H Hf. unfold mbind, M_bind.
  apply seen_inv in H as [(x1 & x2 & s' & -> & -> & Hx)|[[-> ->]|[-> ->]]];
    [by apply Hf|done..].
Qed.

Lemma add_to_queue_seen a ws1 ws2 s :
  heap_of ws1 = heap_of ws2 →
  seen heap_of (add_to_queue a ws1 s) = seen heap_of (add_to_queue a ws2 s).
Proof.
  intros [= Hq Hc]. unfold add_to_queue. apply seen_bind. intros w s1 _.
  rewrite Hc. destruct (id w <=? current_id ws2);
    apply seen_bind; intros [] s2 _; simpl; unfold heap_of; simpl;
    by rewrite ?Hq, ?Hc.
Qed.

Lemma notify_seen deps (v : V) : ∀ ws1 ws2 s,
  heap_of ws1 = heap_of ws2 →
  seen heap_of (notify deps v ws1 s) = seen heap_of (notify deps v ws2 s).
Proof.
  induction deps as [|d deps IH]; intros ws1 ws2 s Hws; simpl.
  - by rewrite Hws.
  - apply seen_bind. intros [] s1 _. unfold mbind, M_bind.
    assert (seen heap_of (match ref d with
                          | Some r => add_to_queue r ws1
                          | None => mret ws1
                          end s1)
            = seen heap_of (match ref d with
                            | Some r => add_to_queue r ws2
                            | None => mret ws2
                            end s1)) as H.
    { destruct (ref d); [by apply add_to_queue_seen|]. simpl. by rewrite Hws. }
    apply seen_inv in H as [(x1 & x2 & s' & -> & -> & Hx)|[[-> ->]|[-> ->]]];
      [by apply IH|done..].
Qed.

Lemma Node_eval_seen a ws1 ws2 s :
  heap_of ws1 = heap_of ws2 →
  seen heap_of (Node_eval a ws1 s) = seen heap_of (Node_eval a ws2 s).
Proof.
  intros Hws. unfold Node_eval. apply seen_bind. intros acquired s1 _.
  destruct acquired; simpl; [|by apply add_to_queue_seen].
  apply seen_bind. intros nd s2 _.
  destruct (Propagate_call (propagate nd) (call_fn nd)) as [fire policy].
  apply seen_bind. intros [] s3 _. unfold mbind, M_bind.
  assert (seen heap_of ((if fire then notify (dependents nd) (call_fn nd) ws1
                         else mret ws1) s3)
          = seen heap_of ((if fire then notify (dependents nd) (call_fn nd) ws2
                           else mret ws2) s3)) as H.
  { destruct fire; [by apply notify_seen|]. simpl. by rewrite Hws. }
  apply seen_inv in H as [(x1 & x2 & s' & -> & -> & Hx)|[[-> ->]|[-> ->]]];
    [|done..].
  destruct (release a s') as [[[] s4]| |]; simpl; [|done..]. by rewrite Hx.
Qed.

Lemma Work_eval_seen a ws1 ws2 s :
  heap_of ws1 = heap_of ws2 →
  seen heap_of (Work_eval a ws1 s) = seen heap_of (Work_eval a ws2 s).
Proof.
  intros Hws. unfold Work_eval. apply seen_bind. intros w s1 _.
  destruct (kind w); [done|by apply Node_eval_seen].
Qed.

Lemma drop_duplicates_seen i l : ∀ st1 st2 s,
  seen snd (drop_duplicates i st1 l s) = seen snd (drop_duplicates i st2 l s).
Proof.
  induction l as [|[i' a] l IH]; intros st1 st2 s; simpl; [done|].
  destruct (i' =? i); [|done].
  unfold mbind, M_bind. destruct (intrusive_ptr_release a s) as [[[] s1]| |];
    [apply IH|done..].
Qed.

Lemma drain_seen n : ∀ h ws1 ws2 s,
  heap_of ws1 = heap_of ws2 →
  seen heap_of (drain n h ws1 s) = seen heap_of (drain n h ws2 s).
Proof.
  induction n as [|n IH]; intros h ws1 ws2 s Hws; [done|]. simpl.
  apply seen_bind. intros t s1 _. destruct (h =? t); [simpl; by rewrite Hws|].
  apply seen_bind. intros work s2 _. apply seen_bind. intros nxt s3 _.
  apply IH. injection Hws as Hq Hc. unfold heap_of. simpl. by rewrite Hq, Hc.
Qed.

Lemma run_heap_seen n : ∀ ws1 ws2 s,
  heap_of ws1 = heap_of ws2 →
  seen heap_of (run_heap n ws1 s) = seen heap_of (run_heap n ws2 s).
Proof.
  induction n as [|n IH]; intros ws1 ws2 s Hws; [done|]. simpl.
  injection Hws as Hq Hc. rewrite Hq.
  destruct (q ws2) as [|[k0 a] rest] eqn:Hq2.
  { simpl. unfold heap_of. by rewrite Hq, Hq2, Hc. }
  apply seen_bind. intros work s1 _.
  apply (seen_bind2 _ snd); [apply drop_duplicates_seen|].
  intros [st1 l1] [st2 l2] s2 Hx. simpl in Hx. subst l2.
  apply seen_bind. intros [] s3 _.
  apply (seen_bind2 _ heap_of); [by apply Work_eval_seen|].
  intros x1 x2 s4 Hx.
  apply seen_bind. intros [] s5 _. apply IH.
  injection Hx as Hq' Hc'. unfold heap_of. simpl. by rewrite Hq', Hc'.
Qed.

(** X9: The answer of a pass and the store it leaves do not depend on whether
    the caller asks for the counters, nor on what the caller's [Stats]
    held: the counters are only written. *)
Theorem evaluate_ignores_stats n st1 st2 s :
  seen fst (evaluate n st1 s) = seen fst (evaluate n st2 s).
Proof.
  unfold evaluate. apply seen_bind. intros t s1 _.
  apply seen_bind. intros h s2 _. apply seen_bind. intros [] s3 _.
  destruct (h =? t); [done|].
  apply (seen_bind2 _ heap_of); [by apply drain_seen|].
  intros x1 x2 s4 Hx.
  apply (seen_bind2 _ heap_of); [by apply run_heap_seen|].
  done.
Qed.

(** ** The exclusion flags over a pass *)

Lemma steady_refl s : aligned_store s → steady s s.
Proof.
  intros Hal. split; [apply evolves_refl| |done].
  intros a w w' Hw Hw'. congruence.
Qed.

Lemma steady_trans s1 s2 s3 : steady s1 s2 → steady s2 s3 → steady s1 s3.
Proof.
  intros [E1 F1 _] [E2 F2 A2]. split; [by eapply evolves_trans| |done].
  intros a w w'' Hw Hw''.
  destruct (evolves_works _ _ E2 _ _ Hw'') as (w' & Hw' & _).
  rewrite (F2 _ _ _ Hw' Hw''). by apply (F1 a).
Qed.

Lemma quiet_steady s s' : aligned_store s → quiet s s' → steady s s'.
Proof.
  intros [Hq Hal] Q. split; [apply Q| |split].
  - intros a w w' Hw Hw'. by rewrite (quiet_next _ _ Q _ _ _ Hw Hw').
  - by rewrite (quiet_graph _ _ Q).
  - intros a w' Hw'.
    destruct (evolves_works _ _ (quiet_evolves _ _ Q) _ _ Hw') as (w & Hw & _).
    by eapply Hal.
Qed.

(** [schedule] on a Work that is on the intake queue takes a reference
    and gives it back. *)
Lemma schedule_queued_run a s w :
  works s !! a = Some w → pointer_bits (next w) ≠ 0 →
  schedule a s = (intrusive_ptr_add_ref a;; intrusive_ptr_release a) s.
Proof.
  intros Hw Hp. unfold schedule.
  rewrite !(bind_run _ _ _ _ _ (intrusive_ptr_add_ref_run _ _ _ Hw)).
  unfold mbind at 1, M_bind at 1, gets. simpl.
  rewrite (bind_run _ _ _ _ _ (get_work_run _ _ _ (set_work_lookup _ _ _))).
  simpl. fold (pointer_bits (next w)).
  by destruct (Z.eqb_spec (pointer_bits (next w)) 0) as [|_].
Qed.

Lemma schedule_steady a s u s' :
  aligned_store s → schedule a s = Ok (u, s') → steady s s'.
Proof.
  intros Hal H.
  assert (∃ w, works s !! a = Some w) as [w Hw].
  { unfold schedule in H.
    apply bind_Ok in H as (? & s1 & H1 & _).
    unfold intrusive_ptr_add_ref in H1.
    apply bind_Ok in H1 as (w & ? & [Hw ->]%get_work_Ok & _). eauto. }
  destruct (decide (pointer_bits (next w) = 0)) as [Hp|Hp].
  - destruct (schedule_enqueue _ _ _ Hw Hp (proj1 Hal)) as [l Hl].
    rewrite Hl in H. inversion H; subst s'.
    split; [by eapply schedule_evolves| |split].
    + intros b wb wb' Hb. unfold enqueued. simpl.
      destruct (decide (b = a)) as [->|Hne].
      * rewrite lookup_insert_eq. intros [= <-]. simpl.
        assert (wb = w) as -> by congruence.
        apply lock_bit_lor; [apply Hal | apply lock_bit_cases].
      * rewrite lookup_insert_ne by done. congruence.
    + simpl. by apply (proj2 Hal a w).
    + intros b wb. unfold enqueued. simpl.
      destruct (decide (b = a)) as [->|Hne]; [intros _; by apply (proj2 Hal a w)|].
      rewrite lookup_insert_ne by done. apply (proj2 Hal).
  - rewrite (schedule_queued_run _ _ _ Hw Hp) in H.
    apply bind_Ok in H as (? & s1 & H1 & H2).
    apply quiet_steady; [done|]. eapply quiet_trans.
    + by eapply intrusive_ptr_add_ref_quiet.
    + by eapply intrusive_ptr_release_quiet.
Qed.

Lemma add_to_queue_steady a ws s ws' s' :
  aligned_store s → add_to_queue a ws s = Ok (ws', s') → steady s s'.
Proof.
  unfold add_to_queue. intros Hal H.
  apply bind_Ok in H as (w & ? & [Hw ->]%get_work_Ok & H).
  destruct (id w <=? current_id ws).
  - apply bind_Ok in H as (? & s1 & H1 & [= <- <-]).
    by eapply schedule_steady.
  - apply bind_Ok in H as (? & s1 & H1 & [= <- <-]).
    apply quiet_steady; [done|]. by eapply intrusive_ptr_add_ref_quiet.
Qed.

Lemma notify_steady deps (v : V) : ∀ ws s ws' s',
  aligned_store s → notify deps v ws s = Ok (ws', s') → steady s s'.
Proof.
  induction deps as [|d deps IH]; intros ws s ws' s' Hal H.
  - inversion H; subst. by apply steady_refl.
  - simpl in H. apply bind_Ok in H as (? & s1 & Q1%store_at_quiet & H).
    apply bind_Ok in H as (ws2 & s2 & H2 & H).
    pose proof (quiet_steady _ _ Hal Q1) as S1.
    assert (steady s1 s2) as S2.
    { destruct (ref d);
        [exact (add_to_queue_steady _ _ _ _ _ (steady_aligned _ _ S1) H2)|].
      inversion H2; subst. apply steady_refl, S1. }
    eapply steady_trans; [exact S1|]. eapply steady_trans; [exact S2|].
    eapply IH; [apply S2 | done].
Qed.

Lemma Node_eval_unlocks a ws s ws' s' :
  aligned_store s → unlocked s →
  Node_eval a ws s = Ok (ws', s') →
  evolves s s' ∧ aligned_store s' ∧ unlocked s'.
Proof.
  intros Hal Hun H. pose proof (Node_eval_inv _ _ _ _ _ H) as (E & _).
  split; [done|]. unfold Node_eval in H.
  apply bind_Ok in H as (acquired & s1 & H1 & H).
  assert (∃ w, works s !! a = Some w) as [w Hw].
  { unfold trylock_and_dequeue in H1.
    apply bind_Ok in H1 as (w & ? & [Hw ->]%get_work_Ok & _). eauto. }
  rewrite (trylock_and_dequeue_run _ _ _ Hw) in H1.
  rewrite bool_decide_eq_true_2 in H1 by (by eapply Hun).
  inversion H1; subst acquired s1. simpl in H.
  set (s1 := set_work a (with_next flags.LOCK w) s) in *.
  assert (aligned_store s1) as Hal1.
  { split; [apply Hal|]. intros b wb. unfold s1.
    destruct (decide (a = b)) as [->|Hne].
    - intros _. by apply (proj2 Hal b w).
    - rewrite set_work_lookup_ne by done. apply (proj2 Hal). }
  apply bind_Ok in H as (nd & ? & (w1 & Hw1 & Hk & ->)%get_node_Ok & H).
  destruct (Propagate_call (propagate nd) (call_fn nd)) as [fire policy].
  apply bind_Ok in H as (? & s2 & H2 & H).
  apply (put_node_quiet a nd _ w1) in H2; [|done..].
  pose proof (quiet_steady _ _ Hal1 H2) as S2.
  apply bind_Ok in H as (ws3 & s3 & H3 & H).
  assert (steady s2 s3) as S3.
  { destruct fire;
      [exact (notify_steady _ _ _ _ _ _ (steady_aligned _ _ S2) H3)|].
    inversion H3; subst. apply steady_refl, S2. }
  pose proof (steady_trans _ _ _ S2 S3) as S13.
  apply bind_Ok in H as (? & s4 & H4 & [= <- <-]).
  unfold release in H4.
  apply bind_Ok in H4 as (w3 & ? & [Hw3 ->]%get_work_Ok & H4).
  inversion H4 as [Hs4]. clear H4. subst s4.
  split.
  - split; [apply (steady_aligned _ _ S13)|]. intros b wb. simpl.
    destruct (decide (a = b)) as [->|Hne].
    + intros _. by apply (proj2 Hal b w).
    + rewrite lookup_insert_ne by done. apply (proj2 (steady_aligned _ _ S13)).
  - intros b wb. simpl. destruct (decide (a = b)) as [->|Hne].
    + rewrite lookup_insert_eq. intros [= <-]. simpl.
      apply lock_bit_pointer_bits.
    + rewrite lookup_insert_ne by done. intros Hb.
      destruct (evolves_works _ _ (steady_evolves _ _ S13) _ _ Hb)
        as (wb1 & Hb1 & _).
      rewrite (steady_flags _ _ S13 _ _ _ Hb1 Hb).
      unfold s1 in Hb1. rewrite set_work_lookup_ne in Hb1 by done.
      by eapply Hun.
Qed.

Lemma unlocked_survivors_next s s' :
  survivors s s' →
  (∀ a w w', works s !! a = Some w → works s' !! a = Some w' →
             next w' = next w) →
  unlocked s → unlocked s'.
Proof.
  intros Hs Hn Hun a w' Hw'. destruct (Hs _ _ Hw') as (w & Hw & _).
  rewrite (Hn _ _ _ Hw Hw'). by eapply Hun.
Qed.

Lemma run_heap_unlocks n : ∀ ws s ws' s',
  aligned_store s → unlocked s →
  run_heap n ws s = Ok (ws', s') →
  aligned_store s' ∧ unlocked s'.
Proof.
  induction n as [|n IH]; intros ws s ws' s' Hal Hun H; [done|].
  simpl in H. destruct (q ws) as [|[k0 a] rest] eqn:Hq.
  { by inversion H; subst. }
  apply bind_Ok in H as (work & ? & [Hw ->]%get_work_Ok & H).
  apply bind_Ok in H as ([st rest'] & s1 & H1 & H).
  apply bind_Ok in H as (? & s2 & [= <- <-] & H).
  apply bind_Ok in H as (ws2 & s3 & H3 & H).
  apply bind_Ok in H as (? & s4 & H4 & H).
  destruct (drop_duplicates_spec _ _ _ _ _ _ _ H1)
    as (dups & _ & _ & _ & _ & Q1 & _).
  pose proof (quiet_steady _ _ Hal Q1) as S1.
  pose proof (unlocked_quiet _ _ Q1 Hun) as Hun1.
  unfold Work_eval in H3.
  apply bind_Ok in H3 as (w2 & ? & [Hw2 ->]%get_work_Ok & H3).
  destruct (kind w2); [done|].
  destruct (Node_eval_unlocks a _ (with_evals (evals s1 ++ [(a, id work)]) s1)
              _ _ (steady_aligned _ _ S1) Hun1 H3) as (_ & Hal3 & Hun3).
  pose proof (intrusive_ptr_release_quiet _ _ _ _ H4) as Q4.
  apply (IH _ _ _ _ (steady_aligned _ _ (quiet_steady _ _ Hal3 Q4))
           (unlocked_quiet _ _ Q4 Hun3) H).
Qed.

(** X10: A pass that starts with every exclusion flag free ends with every
    exclusion flag free: each Node it evaluates takes its flag and gives
    it back, and scheduling a Work keeps the flag bit of its [next]
    word. *)
Theorem evaluate_leaves_flags_free n st s b st' s' :
  aligned_store s → aligned (tombstone (graph s)) → unlocked s →
  evaluate n st s = Ok ((b, st'), s') → unlocked s'.
Proof.
  intros Hal Ht Hun H. unfold evaluate in H.
  apply bind_Ok in H as (t & ? & [= <- <-] & H).
  apply bind_Ok in H as (h & ? & [= <- <-] & H).
  apply bind_Ok in H as (? & s0 & [= <- <-] & H).
  destruct (_ =? _); [by inversion H; subst|].
  apply bind_Ok in H as (work1 & s1 & H1 & H).
  apply bind_Ok in H as (work2 & s2 & H2 & [= <- <- <-]).
  destruct (drain_inv _ _ _ _ _ _ H1) as (-> & _).
  assert (aligned_store (with_work_queue (tombstone (graph s)) s)) as Hal0
    by (split; [exact Ht | exact (proj2 Hal)]).
  apply (run_heap_unlocks _ _ _ _ _ Hal0 Hun H2).
Qed.

(** ** Propagation *)

Lemma undisturbed_refl s : undisturbed s s.
Proof. split; [done|]. intros a w' Hw'. eauto. Qed.

Lemma undisturbed_trans s1 s2 s3 :
  undisturbed s1 s2 → undisturbed s2 s3 → undisturbed s1 s3.
Proof.
  intros [C1 W1] [C2 W2]. split; [congruence|].
  intros a w3 Hw3. destruct (W2 _ _ Hw3) as (w2 & Hw2 & K2).
  destruct (W1 _ _ Hw2) as (w1 & Hw1 & K1). exists w1. split; [done|congruence].
Qed.

Lemma undisturbed_set_work a w w' s :
  works s !! a = Some w → kind w' = kind w → undisturbed s (set_work a w' s).
Proof.
  intros Hw Hk. split; [done|]. intros b wb. unfold set_work. simpl.
  destruct (decide (a = b)) as [->|Hne].
  - rewrite lookup_insert_eq. intros [= <-]. eauto.
  - rewrite lookup_insert_ne by done. eauto.
Qed.

Lemma undisturbed_delete a s :
  undisturbed s (with_works (delete a (works s)) s).
Proof.
  split; [done|]. intros b wb. simpl.
  intros [_ Hb]%lookup_delete_Some. eauto.
Qed.

Lemma release_rec_undisturbed n : ∀ a s u s',
  release_rec n a s = Ok (u, s') → undisturbed s s'.
Proof.
  induction n as [|n IH]; intros a s u s' H; [done|].
  simpl in H. apply bind_Ok in H as (w & s1 & [Hw ->]%get_work_Ok & H).
  destruct (_ =? 0).
  - apply bind_Ok in H as (x & s1 & H1 & H2). inversion H1; subst.
    apply undisturbed_trans with (with_works (delete a (works s)) s);
      [apply undisturbed_delete|].
    destruct (kind w).
    + inversion H2; subst. apply undisturbed_refl.
    + eapply (destroy_inputs_inv undisturbed);
        eauto using undisturbed_refl, undisturbed_trans.
  - inversion H; subst. by eapply undisturbed_set_work.
Qed.

Lemma intrusive_ptr_add_ref_undisturbed a s u s' :
  intrusive_ptr_add_ref a s = Ok (u, s') → undisturbed s s'.
Proof.
  unfold intrusive_ptr_add_ref. intros H.
  apply bind_Ok in H as (w & s1 & [Hw ->]%get_work_Ok & H).
  inversion H; subst. by eapply undisturbed_set_work.
Qed.

Lemma schedule_loop_inv (R : State (V:=V) → State (V:=V) → Prop) a :
  (∀ s, R s s) → (∀ s1 s2 s3, R s1 s2 → R s2 s3 → R s1 s3) →
  (∀ s u s', intrusive_ptr_release a s = Ok (u, s') → R s s') →
  (∀ s w n, works s !! a = Some w → R s (set_work a (with_next n w) s)) →
  (∀ s l, R s (with_spurious l s)) →
  (∀ s h, R s (with_work_queue h s)) →
  ∀ n first s u s', schedule_loop n a first s = Ok (u, s') → R s s'.
Proof.
  intros Hrefl Htrans Hrel Hnext Hsp Hq.
  induction n as [|n IH]; intros first s u s' H; [done|].
  simpl in H. apply bind_Ok in H as (w & ? & [Hw ->]%get_work_Ok & H).
  destruct (first && _); [by eapply Hrel|].
  apply bind_Ok in H as (h & ? & [= <- <-] & H).
  apply bind_Ok in H as (swapped & s1 & H1 & H).
  rewrite (next_compare_exchange_weak_run _ _ _ _ Hw) in H1.
  assert (R s s1) as R1.
  { destruct (spurious s) as [|[] l]; inversion H1; subst; eauto. }
  eapply Htrans; [exact R1|].
  destruct swapped; simpl in H; [|by eapply IH].
  apply bind_Ok in H as (pushed & s2 & H2 & H).
  assert (R s1 s2) as R2.
  { unfold work_queue_compare_exchange_weak in H2.
    apply bind_Ok in H2 as (h' & ? & [= <- <-] & H2).
    destruct (_ =? _); [|inversion H2; subst; apply Hrefl].
    apply bind_Ok in H2 as (fails & s3 & H3 & H2).
    assert (R s1 s3) as R3.
    { rewrite spurious_failure_run in H3.
      destruct (spurious s1); inversion H3; subst; eauto. }
    eapply Htrans; [exact R3|].
    destruct fails; [inversion H2; subst; apply Hrefl|].
    apply bind_Ok in H2 as (? & ? & [= <- <-] & [= <- <-]). apply Hq. }
  eapply Htrans; [exact R2|].
  destruct pushed; [inversion H; subst; apply Hrefl | by eapply IH].
Qed.

Lemma schedule_undisturbed a s u s' :
  schedule a s = Ok (u, s') → undisturbed s s'.
Proof.
  unfold schedule. intros H.
  apply bind_Ok in H as (? & s1 & H1%intrusive_ptr_add_ref_undisturbed & H).
  apply bind_Ok in H as (? & ? & [= <- <-] & H).
  eapply undisturbed_trans; [exact H1|].
  revert H. apply schedule_loop_inv.
  - apply undisturbed_refl.
  - apply undisturbed_trans.
  - intros s0 u0 s0'. apply release_rec_undisturbed.
  - intros s0 w n Hw. by eapply undisturbed_set_work.
  - intros s0 l. split; [done|]. intros b wb Hb. eauto.
  - intros s0 h. split; [done|]. intros b wb Hb. eauto.
Qed.

Lemma add_to_queue_undisturbed a ws s ws' s' :
  add_to_queue a ws s = Ok (ws', s') → undisturbed s s'.
Proof.
  unfold add_to_queue. intros H.
  apply bind_Ok in H as (w & ? & [Hw ->]%get_work_Ok & H).
  destruct (id w <=? current_id ws);
    apply bind_Ok in H as (? & s1 & H1 & [= <- <-]).
  - by eapply schedule_undisturbed.
  - by eapply intrusive_ptr_add_ref_undisturbed.
Qed.

Lemma holds_value_undisturbed s s' p (v : V) :
  undisturbed s s' → holds_value s p v → holds_value s' p v.
Proof.
  intros [C W]. destruct p as [b k|c]; simpl.
  - intros H w' Hw'. destruct (W _ _ Hw') as (w & Hw & ->). by apply H.
  - by rewrite C.
Qed.

(** Storing [v] puts [v] where the pointer aims, and what held [v] before
    holds it still. *)
Lemma store_at_holds p (v : V) s u s' :
  store_at p v s = Ok (u, s') →
  holds_value s' p v ∧ ∀ p', holds_value s p' v → holds_value s' p' v.
Proof.
  destruct p as [a n|c]; simpl; intros H.
  - apply bind_Ok in H as (nd & ? & (w & Hw & Hk & ->)%get_node_Ok & H).
    destruct (inputs nd !! n) as [c|] eqn:E; [|done].
    rewrite (put_node_run _ _ _ _ Hw) in H. inversion H; subst s'.
    pose proof (lookup_lt_Some _ _ _ E) as Hlen. split.
    + intros w'. simpl. rewrite lookup_insert_eq. intros [= <-]. simpl.
      eexists. split; [done|]. simpl. by apply list_lookup_insert_eq.
    + intros [b k|c']; simpl; [|done]. intros Hold w'.
      destruct (decide (a = b)) as [->|Hne].
      * simpl. rewrite lookup_insert_eq. intros [= <-]. simpl.
        eexists. split; [done|]. simpl.
        destruct (Hold _ Hw) as (nd0 & Hk0 & Hv).
        assert (nd0 = nd) as -> by congruence.
        destruct (decide (n = k)) as [->|Hnk].
        -- by apply list_lookup_insert_eq.
        -- by rewrite list_lookup_insert_ne.
      * simpl. rewrite lookup_insert_ne by done. apply Hold.
  - destruct (cells s !! c) as [x|] eqn:E; [|done].
    inversion H; subst s'. simpl. split; [apply lookup_insert_eq|].
    intros [b k|c']; simpl; [done|]. intros Hold.
    destruct (decide (c = c')) as [->|Hne].
    + apply lookup_insert_eq.
    + by rewrite lookup_insert_ne.
Qed.

Lemma notify_delivers deps (v : V) : ∀ ws s ws' s',
  notify deps v ws s = Ok (ws', s') →
  (∀ i, i ∈ deps → holds_value s' (in_ i) v) ∧
  (∀ p, holds_value s p v → holds_value s' p v).
Proof.
  induction deps as [|d deps IH]; intros ws s ws' s' H.
  - inversion H; subst. split; [by intros i ?%elem_of_nil|done].
  - simpl in H. apply bind_Ok in H as (? & s1 & [Hd H1]%store_at_holds & H).
    apply bind_Ok in H as (ws2 & s2 & H2 & H).
    assert (undisturbed s1 s2) as U2.
    { destruct (ref d); [by eapply add_to_queue_undisturbed|].
      inversion H2; subst. apply undisturbed_refl. }
    destruct (IH _ _ _ _ H) as [Hall Hkeep]. split.
    + intros i [->|Hi]%elem_of_cons; [|by apply Hall].
      by eapply Hkeep, holds_value_undisturbed.
    + intros p Hp. by eapply Hkeep, holds_value_undisturbed, H1.
Qed.

(** X11: When [Node::eval] finds its flag free and the policy lets the result
    through, every Input of the dependents list has been given the result
    of the function on the inputs as they were when [eval] started: the
    Value it points to holds it when [eval] returns. *)
Theorem Node_eval_delivers a ws s w nd policy ws' s' :
  works s !! a = Some w → kind w = NodeOf nd →
  lock_bit (next w) = 0 →
  Propagate_call (propagate nd) (call_fn nd) = (true, policy) →
  Node_eval a ws s = Ok (ws', s') →
  ∀ i, i ∈ dependents nd → holds_value s' (in_ i) (call_fn nd).
Proof.
  intros Hw Hk Hl Hp H. unfold Node_eval in H.
  rewrite (bind_run _ _ _ _ _ (trylock_and_dequeue_run _ _ _ Hw)) in H.
  rewrite bool_decide_eq_true_2 in H by done. simpl in H.
  rewrite (bind_run _ _ _ _ _
             (get_node_run a _ (with_next flags.LOCK w) nd
                (set_work_lookup _ _ _) Hk)) in H.
  rewrite Hp in H.
  apply bind_Ok in H as (? & s2 & _ & H).
  apply bind_Ok in H as (ws3 & s3 & [Hall _]%notify_delivers & H).
  apply bind_Ok in H as (? & s4 & H4 & [= <- <-]).
  unfold release in H4.
  apply bind_Ok in H4 as (w3 & ? & [Hw3 ->]%get_work_Ok & H4).
  inversion H4 as [Hs4]. intros i Hi.
  apply (holds_value_undisturbed s3); [|by apply Hall].
  by apply (undisturbed_set_work a w3).
Qed.

(** ** Building a Node *)

Lemma grown_refl this s : grown this s s.
Proof. split; [done|]. intros a w' Hw'. exists w'. eauto 10. Qed.

Lemma grown_trans this s1 s2 s3 :
  grown this s1 s2 → grown this s2 s3 → grown this s1 s3.
Proof.
  intros [I1 W1] [I2 W2]. split; [congruence|].
  intros a w3 Hw3. destruct (W2 _ _ Hw3) as (w2 & Hw2 & Hid2 & K2).
  destruct (W1 _ _ Hw2) as (w1 & Hw1 & Hid1 & K1).
  exists w1. split; [done|]. split; [congruence|].
  intros nd3 Hk3. destruct (K2 _ Hk3) as (nd2 & Hk2 & D2).
  destruct (K1 _ Hk2) as (nd1 & Hk1 & D1).
  exists nd1. split; [done|]. intros d Hd.
  destruct (D2 _ Hd) as [Hd2|?]; [by apply D1 | by right].
Qed.

Lemma evolves_grown this s s' :
  evolves s s' → ids (graph s') = ids (graph s) → grown this s s'.
Proof.
  intros E Hi. split; [done|]. intros a w' Hw'.
  destruct (evolves_works _ _ E _ _ Hw') as (w & Hw & Hid & Hshape).
  exists w. split; [done|]. split; [done|]. intros nd' Hk'.
  rewrite Hk' in Hshape. destruct (kind w) as [|nd]; [done|].
  destruct Hshape as (_ & Hd & _). exists nd. split; [done|].
  intros d. rewrite Hd. by left.
Qed.

Lemma quiet_grown this s s' : quiet s s' → grown this s s'.
Proof.
  intros Q. apply evolves_grown; [apply Q|]. by rewrite (quiet_graph _ _ Q).
Qed.

Lemma set_next_grown this a w n s :
  works s !! a = Some w → grown this s (set_work a (with_next n w) s).
Proof.
  intros Hw. apply evolves_grown; [|done].
  eapply evolves_set_work; eauto using static_with_next.
Qed.

Lemma schedule_grown this a s u s' :
  schedule a s = Ok (u, s') → grown this s s'.
Proof.
  unfold schedule. intros H.
  apply bind_Ok in H as (? & s1 & H1%intrusive_ptr_add_ref_quiet & H).
  apply bind_Ok in H as (? & ? & [= <- <-] & H).
  eapply grown_trans; [by apply quiet_grown|].
  revert H. apply schedule_loop_inv.
  - apply grown_refl.
  - apply grown_trans.
  - intros s0 u0 s0' H0. by eapply quiet_grown, intrusive_ptr_release_quiet.
  - intros s0 w n Hw. by apply set_next_grown.
  - intros s0 l. apply evolves_grown; [apply evolves_with_spurious|done].
  - intros s0 h. apply evolves_grown; [apply evolves_with_work_queue|done].
Qed.

Lemma spin_trylock_grown this n a : ∀ s u s',
  spin_trylock n a s = Ok (u, s') → grown this s s'.
Proof.
  induction n as [|n IH]; intros s u s' H; [done|]. simpl in H.
  apply bind_Ok in H as (acquired & s1 & H1 & H).
  unfold trylock in H1.
  apply bind_Ok in H1 as (w & ? & [Hw ->]%get_work_Ok & H1).
  apply bind_Ok in H1 as (? & ? & [= <- <-] & [= <- <-]).
  eapply grown_trans; [by apply set_next_grown|].
  destruct (negb _); [inversion H; subst; apply grown_refl|by eapply IH].
Qed.

Lemma Node_connect_grown this n a (i : Input) s u s' :
  a ≠ this → ref i = Some this →
  Node_connect n a i s = Ok (u, s') → grown this s s'.
Proof.
  intros Hne Hi H. unfold Node_connect in H.
  apply bind_Ok in H as (? & s1 & G1%(spin_trylock_grown this) & H).
  apply bind_Ok in H as (nd & ? & (w & Hw & Hk & ->)%get_node_Ok & H).
  apply bind_Ok in H as (? & s2 & H2 & H).
  assert (quiet s1 s2) as Q2.
  { destruct (ref i); [by eapply intrusive_ptr_add_ref_quiet|].
    inversion H2; subst. apply quiet_refl. }
  apply bind_Ok in H as (? & s3 & H3 & H).
  unfold put_node in H3.
  apply bind_Ok in H3 as (w2 & ? & [Hw2 ->]%get_work_Ok & H3).
  inversion H3 as [Hs3]. clear H3. subst s3.
  unfold release in H.
  apply bind_Ok in H as (w3 & ? & [Hw3 ->]%get_work_Ok & H).
  inversion H as [Hs']. clear H.
  set (s3 := with_works (<[a:=with_kind _ w2]> (works s2)) s2) in *.
  eapply grown_trans; [exact G1|].
  eapply grown_trans; [by apply quiet_grown|].
  apply grown_trans with s3; [|exact (set_next_grown this a w3 _ s3 Hw3)].
  split; [done|]. intros b wb. simpl.
  destruct (decide (a = b)) as [->|Hab].
  - rewrite lookup_insert_eq. intros [= <-]. exists w2.
    split; [done|]. split; [done|]. simpl. intros nd' [= <-].
    destruct (evolves_works _ _ (quiet_evolves _ _ Q2) _ _ Hw2)
      as (w1 & Hw1 & _ & Hshape).
    assert (w1 = w) as -> by congruence. rewrite Hk in Hshape.
    destruct (kind w2) as [|nd2]; [done|]. destruct Hshape as (_ & Hd & _).
    exists nd2. split; [done|]. simpl. intros d [->|Hd']%elem_of_cons.
    + by right.
    + left. by rewrite Hd.
  - rewrite lookup_insert_ne by done. intros Hb. exists wb. eauto 10.
Qed.

Lemma connectall_grown this n : ∀ tos froms s u s',
  Forall (existing this) tos → Forall (λ i, ref i = Some this) froms →
  connectall n tos froms s = Ok (u, s') → grown this s s'.
Proof.
  induction tos as [|to tos IH]; intros froms s u s' Hto Hfrom H.
  - inversion H; subst. apply grown_refl.
  - destruct froms as [|from froms]; [inversion H; subst; apply grown_refl|].
    simpl in H. apply bind_Ok in H as (? & s1 & H1 & H).
    apply Forall_cons in Hto as [Hto Htos].
    apply Forall_cons in Hfrom as [Hfrom Hfroms].
    eapply grown_trans; [|by eapply IH].
    destruct to as [[a|c]|]; simpl in *.
    + by eapply Node_connect_grown.
    + by eapply quiet_grown, store_at_quiet.
    + inversion H1; subst. apply grown_refl.
Qed.

(** What the builder leaves: the Graph holds the next id; the new Node
    carries the id the Graph held and has no dependents; the other Works
    have their ids, and the dependents they had or new ones that point to
    the new Node. *)
Lemma NodeBuilder_connect_grown n this policy f (init : list V) args s p s' :
  Forall (existing this) args →
  NodeBuilder_connect n this policy f init args s = Ok (p, s') →
  p = this ∧ works s !! this = None ∧
  ids (graph s') = uint32 (ids (graph s) + 1) ∧
  (∀ w', works s' !! this = Some w' →
         id w' = ids (graph s) ∧
         ∀ nd', kind w' = NodeOf nd' → dependents nd' = []) ∧
  ∀ a w', a ≠ this → works s' !! a = Some w' →
    ∃ w, works s !! a = Some w ∧ id w' = id w ∧
         ∀ nd', kind w' = NodeOf nd' →
                ∃ nd, kind w = NodeOf nd ∧
                      ∀ d, d ∈ dependents nd' →
                           d ∈ dependents nd ∨ ref d = Some this.
Proof.
  intros Hargs H. unfold NodeBuilder_connect in H.
  apply bind_Ok in H as (fresh & ? & [= <- <-] & H).
  destruct (works s !! this) eqn:Hfresh; [done|].
  apply bind_Ok in H as (i & ? & [= <- <-] & H).
  apply bind_Ok in H as (? & ? & [= <- <-] & H).
  apply bind_Ok in H as (? & ? & [= <- <-] & H).
  set (s0 := with_works _ _) in H.
  apply bind_Ok in H as (? & s1 & H1%intrusive_ptr_add_ref_quiet & H).
  apply bind_Ok in H as (? & s2 & H2 & H).
  apply (connectall_grown this) in H2; [|done|].
  2:{ apply Forall_fmap, Forall_forall. by intros k _. }
  apply bind_Ok in H as (? & s3 & H3%(schedule_grown this) & [= <- <-]).
  assert (grown this s0 s3) as [Hi Hw].
  { eapply grown_trans; [by apply quiet_grown|]. by eapply grown_trans. }
  split; [done|]. split; [done|]. split; [by rewrite Hi|]. split.
  - intros w' Hw'. destruct (Hw _ _ Hw') as (w & Hw0 & Hid & Hk).
    unfold s0 in Hw0. simpl in Hw0. rewrite lookup_insert_eq in Hw0.
    inversion Hw0; subst w. split; [done|]. intros nd' Hk'.
    destruct (Hk _ Hk') as (nd & [= <-] & Hd). simpl in Hd.
    destruct (dependents nd') as [|d l]; [done|].
    destruct (Hd d) as [?%elem_of_nil|[_ ?]]; [by left|done..].
  - intros a w' Hne Hw'. destruct (Hw _ _ Hw') as (w & Hw0 & Hid & Hk).
    unfold s0 in Hw0. simpl in Hw0. rewrite lookup_insert_ne in Hw0 by done.
    exists w. split; [done|]. split; [done|]. intros nd' Hk'.
    destruct (Hk _ Hk') as (nd & Hk0 & Hd). exists nd. split; [done|].
    intros d Hdd. destruct (Hd _ Hdd) as [?|[? _]]; eauto.
Qed.

(** X12: A Node built by [NodeBuilder::connect] from Connectables that exist
    gets an id above every id of the Graph, so that a Graph that was in
    topological order stays so: each Node comes after the Nodes it was
    connected to when it was built.  This holds until the ids wrap. *)
Theorem NodeBuilder_connect_keeps_topological n this policy f (init : list V)
    args s p s' :
  topological s → ids_fresh s →
  0 ≤ ids (graph s) → ids (graph s) + 1 < 2 ^ 32 →
  Forall (existing this) args →
  NodeBuilder_connect n this policy f init args s = Ok (p, s') →
  topological s' ∧ ids_fresh s'.
Proof.
  intros Htopo Hfresh Hi0 Hi1 Hargs H.
  destruct (NodeBuilder_connect_grown _ _ _ _ _ _ _ _ _ Hargs H)
    as (-> & Hnew & Hids & Hthis & Hother).
  assert (ids (graph s') = ids (graph s) + 1) as Hids'
    by (rewrite Hids; apply wrap_small; lia).
  assert (∀ a w', works s' !! a = Some w' →
            (a = this ∧ id w' = ids (graph s)) ∨
            (a ≠ this ∧ id w' < ids (graph s))) as Hid.
  { intros a w' Hw'. destruct (decide (a = this)) as [->|Hne].
    - left. split; [done|]. by apply Hthis.
    - right. split; [done|].
      destruct (Hother _ _ Hne Hw') as (w & Hw & -> & _). by eapply Hfresh. }
  split.
  - intros a w' nd' i r wr' Hw' Hk' Hin Hr Hwr'.
    destruct (decide (a = this)) as [->|Hne].
    { destruct (Hthis _ Hw') as [_ Hd]. rewrite (Hd _ Hk') in Hin.
      by apply elem_of_nil in Hin. }
    destruct (Hother _ _ Hne Hw') as (w & Hw & Hidw & Hk).
    destruct (Hk _ Hk') as (nd & Hk0 & Hd).
    destruct (Hid _ _ Hwr') as [[-> Hidr]|[Hner Hidr]].
    + rewrite Hidr, Hidw. by eapply Hfresh.
    + destruct (Hd _ Hin) as [Hin0|Hr']; [|congruence].
      destruct (Hother _ _ Hner Hwr') as (wr & Hwr & Hidr' & _).
      rewrite Hidw, Hidr'. by eapply Htopo.
  - intros a w' Hw'. rewrite Hids'. destruct (Hid _ _ Hw') as [[_ ->]|[_ ?]]; lia.
Qed.


(** ** What a pass leaves in place *)

(** X14: A pass over a well-formed store returns and destroys nothing: every
    Work and every cell is still there, every Work with its id, its
    function and its dependents; the dependents still point into the
    store, and every Node is still held by somebody. *)
Theorem evaluate_destroys_nothing st s l :
  well_formed s l →
  ∃ n0, ∀ n, (n0 ≤ n)%nat →
    ∃ b st' s',
      evaluate n st s = Ok ((b, st'), s') ∧
      holds s s' ∧ closed s' ∧
      ∀ a w', works s' !! a = Some w' → kind w' ≠ Tombstone →
              0 < refcount w'.
Proof.
  intros Hwf. destruct (evaluate_sound st s l Hwf) as [n0 Hn0].
  exists n0. intros n Hn.
  destruct (Hn0 n Hn) as (b & st' & s' & H & K & Hinv).
  exists b, st', s'. split; [done|]. split; [done|].
  split; [apply Hinv|]. intros a w' Hw' Hk'.
  by apply (safe_refcount_range 0 [] a w' s').
Qed.

(** ** Evaluating repeatedly *)

Lemma evaluate_idle n st s :
  work_queue (graph s) = tombstone (graph s) →
  evaluate n st s = Ok ((false, (λ _, EmptyStats) <$> st), s).
Proof.
  intros Hempty. unfold evaluate, mbind, M_bind, gets, modify.
  rewrite Hempty, Z.eqb_refl. simpl. rewrite <- Hempty at 1.
  by rewrite with_work_queue_id.
Qed.

(** In a graph built upstream first, with no flag held, a pass schedules
    nothing for the next one. *)
Lemma evaluate_calm n st s b st1 s1 :
  topological s → unlocked s →
  evaluate n st s = Ok ((b, st1), s1) →
  work_queue (graph s1) = tombstone (graph s1).
Proof.
  intros Htopo Hun H. unfold evaluate in H.
  apply bind_Ok in H as (t & ? & [= <- <-] & H).
  apply bind_Ok in H as (h & ? & [= <- <-] & H).
  apply bind_Ok in H as (? & s0 & [= <- <-] & H).
  destruct (_ =? _); [by inversion H; subst|].
  apply bind_Ok in H as (work1 & s0' & H1 & H).
  apply bind_Ok in H as (work2 & s2 & H2 & [= <- <- <-]).
  destruct (drain_inv _ _ _ _ _ _ H1) as (-> & _).
  assert (survivors s (with_work_queue (tombstone (graph s)) s)) as Hs.
  { intros a w Hw. eauto using static_refl. }
  rewrite (run_heap_calm _ _ _ _ _ H2); [done | |].
  - by apply (topological_survivors s).
  - intros a w Hw. by apply (Hun a w).
Qed.

Lemma evaluate_until_idle_idle n s :
  work_queue (graph s) = tombstone (graph s) → (0 < n)%nat →
  evaluate_until_idle n s = Ok (tt, s).
Proof.
  intros Hempty Hn. destruct n as [|n]; [lia|]. simpl.
  by rewrite (bind_run _ _ _ _ _ (evaluate_idle n None s Hempty)).
Qed.

Lemma evaluate_repeatedly_round n (stop : nat → bool) s :
  stop O = false →
  evaluate_repeatedly (S n) stop s
    = (evaluate_until_idle n;; evaluate_repeatedly n (λ k, stop (S k))) s.
Proof. intros Hs. simpl. by rewrite Hs. Qed.

Lemma evaluate_repeatedly_idle (j : nat) : ∀ n (stop : nat → bool) s,
  work_queue (graph s) = tombstone (graph s) →
  (∀ i, (i < j)%nat → stop i = false) → stop j = true → (j < n)%nat →
  evaluate_repeatedly n stop s = Ok (tt, s).
Proof.
  induction j as [|j IH]; intros n stop s Hempty Hfalse Htrue Hn;
    (destruct n as [|n]; [lia|]); simpl.
  - by rewrite Htrue.
  - rewrite (Hfalse O) by lia.
    rewrite (bind_run _ _ _ _ _ (evaluate_until_idle_idle n s Hempty ltac:(lia))).
    apply IH; [done| |done|lia]. intros i Hi. apply Hfalse. lia.
Qed.

(** X15: On a well-formed graph built upstream first, with no flag held,
    [evaluate_repeatedly] returns once it sees [stop] set after a round:
    it has done the work of one pass and the intake queue is empty. *)
Theorem evaluate_repeatedly_returns (stop : nat → bool) (j : nat) s l :
  well_formed s l → topological s → unlocked s →
  (∀ i, (i ≤ j)%nat → stop i = false) → stop (S j) = true →
  ∃ n0, ∀ n, (n0 ≤ n)%nat →
    ∃ m b st' s',
      evaluate m None s = Ok ((b, st'), s') ∧
      evaluate_repeatedly n stop s = Ok (tt, s') ∧
      work_queue (graph s') = tombstone (graph s').
Proof.
  intros Hwf Htopo Hun Hfalse Htrue.
  destruct (evaluate_safe None s l Hwf) as [n1 Hn1].
  exists (n1 + j + 4)%nat. intros n Hn.
  destruct n as [|[|n]]; [lia..|].
  destruct (Hn1 n ltac:(lia)) as (b & st' & s1 & H).
  pose proof (evaluate_calm _ _ _ _ _ _ Htopo Hun H) as Hempty.
  exists n, b, st', s1. split; [done|]. split; [|done].
  rewrite evaluate_repeatedly_round by (apply Hfalse; lia).
  assert (evaluate_until_idle (S n) s = Ok (tt, s1)) as Hidle.
  { cbn [evaluate_until_idle]. rewrite (bind_run _ _ _ _ _ H).
    destruct b; [|done]. apply evaluate_until_idle_idle; [done|lia]. }
  rewrite (bind_run _ _ _ _ _ Hidle).
  apply (evaluate_repeatedly_idle j); [done| |done|lia].
  intros i Hi. apply Hfalse. lia.
Qed.

(** ** The queue pointers over a pass *)

Lemma unique_ids_survivors s s' : survivors s s' → unique_ids s → unique_ids s'.
Proof.
  intros Hs Hu a b wa wb Ha Hb Hab.
  destruct (Hs _ _ Ha) as (wa0 & Ha0 & [Hia _]).
  destruct (Hs _ _ Hb) as (wb0 & Hb0 & [Hib _]).
  apply (Hu a b wa0 wb0); [done|done|congruence].
Qed.

(** In a graph built upstream first, the evaluation of a Node takes it
    off the intake queue and leaves the [next] words of the others. *)
Lemma Work_eval_dequeues a ws s ws' s' w :
  works s !! a = Some w → current_id ws = id w →
  topological s → unlocked s →
  Work_eval a ws s = Ok (ws', s') →
  (∀ w', works s' !! a = Some w' → next w' = 0) ∧
  ∀ b wb wb', b ≠ a → works s !! b = Some wb → works s' !! b = Some wb' →
              next wb' = next wb.
Proof.
  intros Hw Hcur Htopo Hun H. unfold Work_eval in H.
  rewrite (bind_run _ _ _ _ _ (get_work_run _ _ _ Hw)) in H.
  destruct (kind w) as [|nd] eqn:Hk; [done|]. unfold Node_eval in H.
  rewrite (bind_run _ _ _ _ _ (trylock_and_dequeue_run _ _ _ Hw)) in H.
  rewrite bool_decide_eq_true_2 in H by eauto. simpl in H.
  set (w1 := with_next flags.LOCK w) in *.
  set (s1 := set_work a w1 s) in *.
  rewrite (bind_run _ _ _ _ _
             (get_node_run a s1 w1 nd (set_work_lookup _ _ _) Hk)) in H.
  destruct (Propagate_call (propagate nd) (call_fn nd)) as [fire policy].
  rewrite (bind_run _ _ _ _ _
             (put_node_run a w1 _ s1 (set_work_lookup _ _ _))) in H.
  set (w2 := with_kind (NodeOf (with_propagate policy nd)) w1) in *.
  set (s2 := set_work a w2 s1) in *.
  assert (∀ b, b ≠ a → works s2 !! b = works s !! b) as Hother.
  { intros b Hb. unfold s2, s1.
    rewrite !set_work_lookup_ne by done. done. }
  assert (works s2 !! a = Some w2) as Hw2 by apply set_work_lookup.
  apply bind_Ok in H as (ws3 & s3 & H3 & H).
  apply bind_Ok in H as (? & s4 & H4 & [= <- <-]).
  assert (quiet s2 s3) as Q.
  { destruct fire; [|inversion H3; subst; apply quiet_refl].
    eapply notify_quiet; [|exact H3]. rewrite Hcur.
    intros i r wr2 Hi Hr Hwr2.
    destruct (decide (r = a)) as [->|Hra].
    - exfalso. assert (id w < id w); [|lia].
      by eapply (Htopo a w nd i a w).
    - rewrite Hother in Hwr2 by done. by eapply (Htopo a w nd i r wr2). }
  unfold release in H4.
  apply bind_Ok in H4 as (w3 & ? & [Hw3 ->]%get_work_Ok & H4).
  inversion H4 as [Hs4]. clear H4. split.
  - intros w'. simpl. rewrite lookup_insert_eq. intros [= <-]. simpl.
    rewrite (quiet_next _ _ Q _ _ _ Hw2 Hw3). reflexivity.
  - intros b wb wb' Hb Hwb. simpl. rewrite lookup_insert_ne by done.
    intros Hwb'. rewrite <- Hother in Hwb by done.
    apply (quiet_next _ _ Q _ _ _ Hwb Hwb').
Qed.

Lemma run_heap_dequeues n : ∀ ws s ws' s' lo hi,
  run_heap n ws s = Ok (ws', s') →
  heap_inv lo hi s (q ws) →
  topological s → unlocked s → unique_ids s →
  (∀ a w, works s !! a = Some w → pointer_bits (next w) ≠ 0 →
          a ∈ (q ws).*2) →
  ∀ a w', works s' !! a = Some w' → next w' = 0.
Proof.
  induction n as [|n IH]; intros ws s ws' s' lo hi H Hh Htopo Hun Huniq Hptr;
    [done|].
  simpl in H. destruct (q ws) as [|[k0 a] rest] eqn:Hq.
  { inversion H; subst. intros b wb Hwb.
    rewrite <- (pointer_bits_lock_free (next wb)) by (by eapply Hun).
    destruct (decide (pointer_bits (next wb) = 0)) as [|Hne]; [done|].
    pose proof (Hptr _ _ Hwb Hne) as Hin. by apply elem_of_nil in Hin. }
  apply bind_Ok in H as (work & ? & [Hw ->]%get_work_Ok & H).
  apply bind_Ok in H as ([st rest'] & s1 & H1 & H).
  apply bind_Ok in H as (? & s2 & [= <- <-] & H).
  apply bind_Ok in H as (ws2 & s3 & H3 & H).
  apply bind_Ok in H as (? & s4 & H4 & H).
  destruct (run_heap_step _ _ _ _ _ _ _ _ _ _ _ _ _ _ _ Hh Hw H1 H3 H4)
    as [_ Hh4].
  pose proof (heap_keys _ _ _ _ Hh) as Hkeys.
  destruct (drop_duplicates_spec _ _ _ _ _ _ _ H1)
    as (dups & -> & Hdups & _ & _ & Q1 & _).
  set (s2 := with_evals (evals s1 ++ [(a, id work)]) s1) in *.
  assert (survivors s s2) as Hs2.
  { intros b wb Hwb. by apply (quiet_survivors _ _ Q1 b wb). }
  assert (topological s2) as Htopo2 by (by apply (topological_survivors s)).
  assert (unlocked s2) as Hun2.
  { intros b wb Hwb. by apply (unlocked_quiet _ _ Q1 Hun b wb). }
  assert (∃ w2, works s2 !! a = Some w2 ∧ id w2 = id work) as (w2 & Hw2 & Hid2).
  { unfold Work_eval in H3.
    apply bind_Ok in H3 as (w2 & ? & [Hw2 ->]%get_work_Ok & _).
    exists w2. split; [done|].
    destruct (quiet_survivors _ _ Q1 _ _ Hw2) as (w0 & Hw0 & [Hid _]).
    congruence. }
  set (ws1 := {| q := rest'; stats := st; current_id := id work |}) in *.
  destruct (Work_eval_calm a ws1 s2 ws2 s3 w2 Hw2 (eq_sym Hid2) Htopo2 Hun2 H3)
    as [_ Hun3].
  destruct (Work_eval_dequeues a ws1 s2 ws2 s3 w2 Hw2 (eq_sym Hid2)
              Htopo2 Hun2 H3) as [Ha3 Hb3].
  destruct (Work_eval_inv _ _ _ _ _ H3) as (E3 & _ & _).
  destruct (Work_eval_grows _ _ _ _ _ H3) as (extra & kg & _ & P3 & _).
  pose proof (intrusive_ptr_release_quiet _ _ _ _ H4) as Q4.
  assert (survivors s s4) as Hs4.
  { apply survivors_trans with s2; [done|].
    apply survivors_trans with s3;
      [by apply evolves_survivors | by apply quiet_survivors]. }
  apply (IH _ _ _ _ _ _ H Hh4).
  - by apply (topological_survivors s).
  - by apply (unlocked_quiet _ _ Q4).
  - by apply (unique_ids_survivors s).
  - intros b wb4 Hwb4 Hne. simpl. rewrite P3, fmap_app.
    apply elem_of_app. right.
    destruct (quiet_survivors _ _ Q4 _ _ Hwb4) as (wb3 & Hwb3 & _).
    rewrite (quiet_next _ _ Q4 _ _ _ Hwb3 Hwb4) in Hne.
    destruct (decide (b = a)) as [->|Hba].
    { rewrite (Ha3 _ Hwb3) in Hne. done. }
    destruct (evolves_survivors _ _ E3 _ _ Hwb3) as (wb2 & Hwb2 & _).
    rewrite (Hb3 _ _ _ Hba Hwb2 Hwb3) in Hne.
    destruct (quiet_survivors _ _ Q1 _ _ Hwb2) as (wb & Hwb & [Hidb _]).
    rewrite (quiet_next _ _ Q1 _ _ _ Hwb Hwb2) in Hne.
    pose proof (Hptr _ _ Hwb Hne) as Hin.
    rewrite fmap_cons, fmap_app in Hin. simpl in Hin.
    apply elem_of_cons in Hin as [?|Hin]; [done|].
    apply elem_of_app in Hin as [Hin|Hin]; [|done]. exfalso.
    apply list_elem_of_fmap in Hin as ([k b'] & Hb' & Hin). simpl in Hb'.
    subst b'. apply Hba.
    apply (Huniq b a wb work); [done|done|].
    apply Forall_cons in Hkeys as [_ Hkeys].
    apply Forall_app in Hkeys as [Hkeys _].
    rewrite Forall_forall in Hkeys, Hdups.
    destruct (Hkeys _ Hin) as [_ Hidk]. simpl in Hidk.
    rewrite (Hidk _ Hwb). by apply (Hdups (k, b)).
Qed.

(** X16: In a graph built upstream first, with unique ids and no flag held,
    where the Works whose queue pointer is set are those of the intake
    queue, a pass leaves every [next] word null: no Work is left marked as
    queued, so that the next [schedule] of any of them takes effect. *)
Theorem evaluate_clears_queue_pointers n st s l b st' s' :
  topological s → unlocked s → unique_ids s →
  chain s (work_queue (graph s)) l →
  (∀ a w, works s !! a = Some w → pointer_bits (next w) ≠ 0 → a ∈ l) →
  evaluate n st s = Ok ((b, st'), s') →
  ∀ a w', works s' !! a = Some w' → next w' = 0.
Proof.
  intros Htopo Hun Huniq Hl Hptr H. unfold evaluate in H.
  apply bind_Ok in H as (t & ? & [= <- <-] & H).
  apply bind_Ok in H as (h & ? & [= <- <-] & H).
  apply bind_Ok in H as (? & s0 & [= <- <-] & H).
  destruct (Z.eqb_spec (work_queue (graph s)) (tombstone (graph s))) as [Heq|Hne].
  { inversion H; subst. simpl. intros a w Hw.
    rewrite <- (pointer_bits_lock_free (next w)) by (by eapply Hun).
    destruct (decide (pointer_bits (next w) = 0)) as [|Hne]; [done|].
    pose proof (Hptr _ _ Hw Hne) as Hin.
    destruct l as [|a0 l]; [by apply elem_of_nil in Hin|].
    destruct Hl as (Hh & Hnt & _). congruence. }
  apply bind_Ok in H as (work1 & s1 & H1 & H).
  apply bind_Ok in H as (work2 & s2 & H2 & [= <- <- <-]).
  destruct (drain_inv _ _ _ _ _ _ H1) as (-> & _ & _ & Hh).
  destruct (drain_chained _ _ _ _ _ _ H1) as (l' & Hl' & ->).
  set (s0 := with_work_queue (tombstone (graph s)) s) in *.
  assert (l' = l) as ->.
  { apply (chain_unique s0 _ _ _ Hl'). by apply (chain_frame s). }
  destruct (ids_bounded (works s)) as (lo & hi & Hb).
  eapply (run_heap_dequeues _ _ _ _ _ lo hi H2).
  - apply Hh; [intros a w Hw; apply Hb in Hw; lia|].
    split; [constructor | constructor |]. intros a w Hw. apply Hb in Hw. lia.
  - intros a w nd i r wr. apply (Htopo a w nd i r wr).
  - intros a w. apply (Hun a w).
  - intros a c wa wc. apply (Huniq a c wa wc).
  - intros a w Hw Hne'. rewrite drained_pointers.
    + rewrite app_nil_r. by apply (Hptr a w).
    + intros c Hc. by eapply chain_live.
Qed.

(** ** Values *)

(** X17: A value stored through a pointer is the value read through it
    afterwards, and the Values other pointers aim at read as before. *)
Theorem store_read_round_trip (p : ValuePtr) (v : V) s u s' :
  store_at p v s = Ok (u, s') →
  read_at p s' = Ok (v, s') ∧
  ∀ p' x, p' ≠ p → read_at p' s = Ok (x, s) → read_at p' s' = Ok (x, s').
Proof.
  destruct p as [a n|c]; simpl; intros H.
  - apply bind_Ok in H as (nd & ? & (w & Hw & Hk & ->)%get_node_Ok & H).
    destruct (inputs nd !! n) as [c|] eqn:E; [|done].
    rewrite (put_node_run _ _ _ _ Hw) in H. inversion H; subst s'.
    pose proof (lookup_lt_Some _ _ _ E) as Hlen.
    set (nd' := with_inputs (<[n:=Value_store v c]> (inputs nd)) nd).
    set (w' := with_kind (NodeOf nd') w).
    assert (works (set_work a w' s) !! a = Some w') as Hw'
      by apply set_work_lookup.
    split.
    + rewrite (bind_run _ _ _ _ _ (get_node_run _ _ _ nd' Hw' eq_refl)).
      simpl. rewrite list_lookup_insert_eq by exact Hlen. reflexivity.
    + intros [b k|c'] x Hne; simpl;
        [|destruct (cells s !! c'); [|done]; by intros [= ->]].
      intros Hx.
      apply bind_Ok in Hx as (ndb & ? & (wb & Hwb & Hkb & ->)%get_node_Ok & Hx).
      destruct (decide (b = a)) as [->|Hba].
      * assert (wb = w) as -> by congruence.
        assert (ndb = nd) as -> by congruence.
        rewrite (bind_run _ _ _ _ _ (get_node_run _ _ _ nd' Hw' eq_refl)).
        simpl. rewrite list_lookup_insert_ne by congruence.
        destruct (inputs nd !! k); [|done]. by inversion Hx.
      * assert (works (set_work a w' s) !! b = Some wb) as Hwb'
          by (by rewrite set_work_lookup_ne).
        rewrite (bind_run _ _ _ _ _ (get_node_run _ _ _ ndb Hwb' Hkb)).
        destruct (inputs ndb !! k); [|done]. by inversion Hx.
  - destruct (cells s !! c) as [x0|] eqn:E; [|done].
    inversion H; subst s'. simpl. rewrite lookup_insert_eq. split; [done|].
    intros [b k|c'] x Hne; simpl; [|].
    + intros Hx.
      apply bind_Ok in Hx as (ndb & ? & (wb & Hwb & Hkb & ->)%get_node_Ok & Hx).
      set (s1 := with_cells _ s).
      assert (works s1 !! b = Some wb) as Hwb' by done.
      rewrite (bind_run _ _ _ _ _ (get_node_run _ _ _ ndb Hwb' Hkb)).
      destruct (inputs ndb !! k); [|done]. by inversion Hx.
    + rewrite lookup_insert_ne by congruence.
      destruct (cells s !! c'); [|done]. intros [= ->]. done.
Qed.

(** ** Connecting *)

(** X18: [Node::connect], called while the flag of the Node is free, puts the
    Input at the front of the dependents, whether or not it is there
    already, counts one more reference to the Work of the Input for the
    copy the list holds, and leaves everything else, the flag included,
    as it was. *)
Theorem Node_connect_pushes_front n (this : Z) (i : Input) s w nd :
  works s !! this = Some w → kind w = NodeOf nd →
  lock_bit (next w) = 0 → (0 < n)%nat →
  (∀ r, ref i = Some r → is_Some (works s !! r)) →
  ∃ s',
    Node_connect n this i s = Ok (tt, s') ∧
    cells s' = cells s ∧ graph s' = graph s ∧
    (∀ b wb, works s !! b = Some wb →
       works s' !! b =
         Some (with_refcount
                 (if decide (ref i = Some b)
                  then wrap fast16_bits (refcount wb + 1) else refcount wb)
                 (if decide (b = this)
                  then with_kind (NodeOf (with_dependents (i :: dependents nd)
                                            nd)) wb
                  else wb))) ∧
    (∀ b, works s !! b = None → works s' !! b = None).
Proof.
  intros Hw Hk Hl Hn Hr.
  rewrite (Node_connect_run _ _ _ _ _ _ Hw Hk Hl Hn).
  set (nd' := with_dependents (i :: dependents nd) nd).
  destruct (ref i) as [r|] eqn:Hri.
  - destruct (Hr r eq_refl) as [wr Hwr].
    rewrite (bind_run _ _ _ _ _ (intrusive_ptr_add_ref_run _ _ _ Hwr)).
    set (wr' := with_refcount (wrap fast16_bits (refcount wr + 1)) wr).
    assert (∃ w1, works (set_work r wr' s) !! this = Some w1 ∧
                  w1 = if decide (r = this) then wr' else w) as (w1 & Hw1 & Hw1').
    { destruct (decide (r = this)) as [->|Hne].
      - exists wr'. split; [apply set_work_lookup|done].
      - exists w. split; [by rewrite set_work_lookup_ne|done]. }
    rewrite (put_node_run _ _ _ _ Hw1).
    eexists. split; [done|]. split; [done|]. split; [done|]. split.
    + intros b wb Hb. simpl.
      destruct (decide (b = this)) as [->|Hbt].
      * rewrite lookup_insert_eq. f_equal.
        assert (wb = w) as -> by congruence.
        destruct (decide (r = this)) as [->|Hne].
        -- assert (wr = w) as <- by congruence.
           rewrite decide_True by done. by subst w1.
        -- rewrite decide_False by congruence. subst w1. by destruct w.
      * rewrite lookup_insert_ne by done.
        destruct (decide (r = b)) as [->|Hrb].
        -- rewrite lookup_insert_eq. rewrite decide_True by done.
           f_equal. assert (wb = wr) as -> by congruence. done.
        -- rewrite lookup_insert_ne by done. rewrite decide_False by congruence.
           rewrite Hb. f_equal. by destruct wb.
    + intros b Hb. simpl.
      rewrite !lookup_insert_ne by congruence. done.
  - unfold mbind, M_bind, mret, M_ret. rewrite (put_node_run _ _ _ _ Hw).
    eexists. split; [done|]. split; [done|]. split; [done|]. split.
    + intros b wb Hb. simpl.
      destruct (decide (b = this)) as [->|Hbt].
      * rewrite lookup_insert_eq. f_equal.
        assert (wb = w) as -> by congruence. by destruct w.
      * rewrite lookup_insert_ne by done. rewrite Hb. f_equal. by destruct wb.
    + intros b Hb. simpl. rewrite lookup_insert_ne by congruence. done.
Qed.

Lemma with_kind_id w nd : kind w = NodeOf nd → with_kind (NodeOf nd) w = w.
Proof. intros Hk. destruct w; simpl in *. by subst. Qed.

Lemma with_inputs_id nd : with_inputs (inputs nd) nd = nd.
Proof. by destruct nd. Qed.

Lemma connectall_constants n (this : Z) : ∀ (args : list (option V))
    (before todo : list Value) s w nd,
  works s !! this = Some w → kind w = NodeOf nd →
  inputs nd = before ++ todo → length todo = length args →
  connectall n (constant_args args)
    (Node_input this <$> seq (length before) (length args)) s
  = Ok (tt, set_work this
              (with_kind
                 (NodeOf (with_inputs
                            (before ++ zip_with (λ x c, {| val := default (val x) c |})
                                         todo args) nd)) w) s).
Proof.
  induction args as [|c args IH]; intros before todo s w nd Hw Hk Hin Hlen.
  - destruct todo; [|done]. simpl. rewrite <- Hin, with_inputs_id.
    rewrite with_kind_id by done. by rewrite set_work_id.
  - destruct todo as [|x todo]; [done|]. simpl in Hlen.
    unfold constant_args. cbn [length seq fmap list_fmap connectall].
    fold (constant_args args).
    set (v' := default (val x) c).
    set (nd1 := with_inputs (before ++ {| val := v' |} :: todo) nd).
    set (w1 := with_kind (NodeOf nd1) w).
    assert (connect n (ConnectConstant <$> c) (Node_input this (length before)) s
            = Ok (tt, set_work this w1 s)) as H1.
    { destruct c as [v|]; simpl.
      - unfold Constant_connect. simpl.
        rewrite (bind_run _ _ _ _ _ (get_node_run _ _ _ _ Hw Hk)).
        rewrite Hin, list_lookup_middle by done.
        rewrite (put_node_run _ _ _ _ Hw). do 3 f_equal.
        unfold nd1. f_equal.
        rewrite insert_app_r_alt by done. by rewrite Nat.sub_diag.
      - unfold mret, M_ret. do 2 f_equal. unfold w1, nd1, v'. simpl.
        destruct x. simpl. rewrite <- Hin, with_inputs_id.
        rewrite with_kind_id by done. by rewrite set_work_id. }
    rewrite (bind_run _ _ _ _ _ H1).
    replace (S (length before)) with (length (before ++ [{| val := v' |}]))
      by (rewrite length_app; simpl; lia).
    rewrite (IH (before ++ [{| val := v' |}]) todo (set_work this w1 s) w1 nd1
               (set_work_lookup _ _ _) eq_refl);
      [|by rewrite <- app_assoc|lia].
    rewrite set_work_set_work. simpl. by rewrite <- app_assoc.
Qed.

(** X19: [NodeBuilder::connect] with constants and unconnected inputs only: the
    new Node carries the id the Graph held and the Graph holds the next
    one; the constants are in the inputs at once; the Node is at the head
    of the intake queue, in front of the Works that were on it, with two
    references, the caller's and the queue's; nothing else changes. *)
Theorem NodeBuilder_connect_constants n (this : Z) policy f (init : list V)
    (args : list (option V)) s :
  works s !! this = None → aligned (work_queue (graph s)) →
  length args = length init →
  ∃ l,
    NodeBuilder_connect n this policy f init (constant_args args) s
    = Ok (this,
          {| works :=
               <[this := {| id := ids (graph s); refcount := 2;
                            next := work_queue (graph s);
                            kind := NodeOf {| fn := f;
                                              inputs := initial_inputs init args;
                                              dependents := [];
                                              propagate := policy |} |}]>
                 (works s);
             cells := cells s;
             graph := {| ids := uint32 (ids (graph s) + 1);
                         work_queue := this;
                         tombstone := tombstone (graph s) |};
             spurious := l;
             evals := evals s |}).
Proof.
  intros Hfresh Hal Hlen. unfold NodeBuilder_connect.
  unfold mbind at 1, M_bind at 1, gets at 1. rewrite Hfresh.
  unfold mbind at 1, M_bind at 1, gets at 1.
  unfold mbind at 1, M_bind at 1, modify at 1.
  unfold mbind at 1, M_bind at 1, put_work at 1, modify at 1.
  set (nd0 := {| fn := f; inputs := (λ v, {| val := v |}) <$> init;
                 dependents := []; propagate := policy |}).
  set (w0 := {| id := ids (graph s); refcount := 0; next := 0;
                kind := NodeOf nd0 |}).
  set (s0 := with_works _ _).
  assert (works s0 !! this = Some w0) as Hw0 by apply lookup_insert_eq.
  rewrite (bind_run _ _ _ _ _ (intrusive_ptr_add_ref_run _ _ _ Hw0)).
  pose proof fast16_bits_ge as Hbits.
  assert (2 ^ 16 ≤ 2 ^ fast16_bits) as Hpow
    by (apply Z.pow_le_mono_r; lia).
  assert (wrap fast16_bits (refcount w0 + 1) = 1) as ->
    by (apply wrap_small; simpl; lia).
  set (w1 := with_refcount 1 w0).
  set (s1 := set_work this w1 s0).
  rewrite <- Hlen.
  change (seq 0 (length args)) with (seq (length ([] : list (Value (V:=V)))) (length args)).
  rewrite (bind_run _ _ _ _ _
             (connectall_constants n this args [] (inputs nd0) s1 w1 nd0
                (set_work_lookup _ _ _) eq_refl eq_refl
                ltac:(simpl; by rewrite length_fmap))).
  unfold s1. rewrite set_work_set_work.
  set (w2 := with_kind _ w1).
  destruct (schedule_enqueue this (set_work this w2 s0) w2
              (set_work_lookup _ _ _) eq_refl Hal) as [l Hl].
  rewrite (bind_run _ _ _ _ _ Hl). exists l.
  unfold mret, M_ret. do 2 f_equal.
  unfold enqueued, set_work, with_works, s0. simpl.
  rewrite !insert_insert_eq. f_equal. f_equal.
  assert (wrap fast16_bits (1 + 1) = 2) as -> by (apply wrap_small; lia).
  unfold with_next, with_refcount. simpl. f_equal.
  - unfold lock_bit. simpl. apply Z.lor_0_r.
  - do 2 f_equal. unfold initial_inputs.
    rewrite zip_with_fmap_l. done.
Qed.

(** ** Consistency after a pass *)

Lemma same_wiring_refl (k : WorkKind (V:=V)) : same_wiring k k.
Proof. by destruct k. Qed.

Lemma same_wiring_trans (k1 k2 k3 : WorkKind (V:=V)) :
  same_wiring k1 k2 → same_wiring k2 k3 → same_wiring k1 k3.
Proof.
  destruct k1, k2, k3; simpl; try done.
  intros (-> & -> & -> & ->) (-> & -> & -> & ->). done.
Qed.

Lemma writes_refl W s : writes W s s.
Proof.
  split; [|done]. intros a w' Hw'. exists w'.
  eauto using same_wiring_refl.
Qed.

Lemma writes_trans W s1 s2 s3 : writes W s1 s2 → writes W s2 s3 → writes W s1 s3.
Proof.
  intros [W1 F1] [W2 F2]. split; [|eauto].
  intros a w3 Hw3. destruct (W2 _ _ Hw3) as (w2 & Hw2 & Hid2 & K2).
  destruct (W1 _ _ Hw2) as (w1 & Hw1 & Hid1 & K1).
  exists w1. split; [done|]. split; [congruence|].
  by eapply same_wiring_trans.
Qed.

Lemma writes_weaken (W W' : ValuePtr → Prop) s s' :
  (∀ p, W p → W' p) → writes W s s' → writes W' s s'.
Proof. intros HW [W1 F1]. split; [done|]. intros p x Hp. apply F1. eauto. Qed.

Lemma undisturbed_writes W s s' :
  survivors s s' → undisturbed s s' → writes W s s'.
Proof.
  intros E U. split.
  - intros a w' Hw'. destruct (undisturbed_works _ _ U _ _ Hw') as (w & Hw & Hk).
    destruct (E _ _ Hw') as (w0 & Hw0 & Hid & _).
    assert (w0 = w) as -> by congruence.
    exists w. split; [done|]. split; [done|]. rewrite Hk. apply same_wiring_refl.
  - intros p x _. by apply holds_value_undisturbed.
Qed.

Lemma set_work_writes W a w w' s :
  works s !! a = Some w → id w' = id w → kind w' = kind w →
  writes W s (set_work a w' s).
Proof.
  intros Hw Hid Hk. apply undisturbed_writes.
  - apply evolves_survivors.
    eapply evolves_set_work; [done|]. split; [done|]. rewrite Hk.
    apply same_shape_refl.
  - by eapply undisturbed_set_work.
Qed.

Lemma store_at_writes p (v : V) s u s' :
  store_at p v s = Ok (u, s') → writes (λ p', p' = p) s s'.
Proof.
  destruct p as [a n|c]; simpl; intros H.
  - apply bind_Ok in H as (nd & ? & (w & Hw & Hk & ->)%get_node_Ok & H).
    destruct (inputs nd !! n) as [c|] eqn:E; [|done].
    rewrite (put_node_run _ _ _ _ Hw) in H. inversion H; subst s'. split.
    + intros b wb. simpl. destruct (decide (a = b)) as [->|Hne].
      * rewrite lookup_insert_eq. intros [= <-]. exists w.
        split; [done|]. split; [done|]. simpl. rewrite Hk. simpl.
        by rewrite length_insert.
      * rewrite lookup_insert_ne by done. intros Hb. exists wb.
        eauto using same_wiring_refl.
    + intros [b k|c'] x Hp; simpl; [|done]. intros Hold wb.
      destruct (decide (a = b)) as [->|Hne].
      * rewrite lookup_insert_eq. intros [= <-]. simpl.
        eexists. split; [done|]. simpl.
        destruct (Hold _ Hw) as (nd0 & Hk0 & Hv).
        assert (nd0 = nd) as -> by congruence.
        rewrite list_lookup_insert_ne; [done|]. intros ->. by apply Hp.
      * rewrite lookup_insert_ne by done. apply Hold.
  - destruct (cells s !! c) as [x0|] eqn:E; [|done].
    inversion H; subst s'. split.
    + intros b wb Hb. exists wb. eauto using same_wiring_refl.
    + intros [b k|c'] x Hp; simpl; [done|]. intros Hold.
      rewrite lookup_insert_ne; [done|]. intros ->. by apply Hp.
Qed.

Lemma add_to_queue_writes W a ws s ws' s' :
  add_to_queue a ws s = Ok (ws', s') → writes W s s'.
Proof.
  intros H. apply undisturbed_writes.
  - apply evolves_survivors. by destruct (add_to_queue_inv _ _ _ _ _ H).
  - by eapply add_to_queue_undisturbed.
Qed.

Lemma notify_writes deps (v : V) : ∀ ws s ws' s',
  notify deps v ws s = Ok (ws', s') →
  writes (λ p, ∃ d, d ∈ deps ∧ in_ d = p) s s'.
Proof.
  induction deps as [|d deps IH]; intros ws s ws' s' H.
  - inversion H; subst. apply writes_refl.
  - simpl in H. apply bind_Ok in H as (? & s1 & H1%store_at_writes & H).
    apply bind_Ok in H as (ws2 & s2 & H2 & H).
    eapply writes_trans.
    { eapply writes_weaken; [|exact H1]. intros p ->. exists d.
      split; [by left|done]. }
    eapply writes_trans.
    { destruct (ref d); [by eapply add_to_queue_writes|].
      inversion H2; subst. apply writes_refl. }
    eapply writes_weaken; [|by eapply IH].
    intros p (d' & Hd' & Hp). exists d'. split; [by right|done].
Qed.


Lemma inputs_unwritten W s s' b w w' nd nd' :
  writes W s s' →
  works s !! b = Some w → kind w = NodeOf nd →
  works s' !! b = Some w' → kind w' = NodeOf nd' →
  (∀ k, ¬ W (InputSlot b k)) → inputs nd' = inputs nd.
Proof.
  intros [Hworks Hframe] Hw Hk Hw' Hk' HW.
  destruct (Hworks _ _ Hw') as (w0 & Hw0 & _ & Hwiring).
  assert (w0 = w) as -> by congruence. rewrite Hk, Hk' in Hwiring.
  destruct Hwiring as (_ & _ & _ & Hlen).
  apply list_eq. intros k. destruct (inputs nd !! k) as [c|] eqn:E.
  - assert (holds_value s (InputSlot b k) (val c)) as Hold.
    { intros w1 Hw1. assert (w1 = w) as -> by congruence.
      exists nd. split; [done|]. rewrite E. by destruct c. }
    destruct (Hframe _ _ (HW k) Hold _ Hw') as (nd1 & Hk1 & Hv).
    assert (nd1 = nd') as -> by congruence. rewrite Hv. by destruct c.
  - apply lookup_ge_None in E. apply lookup_ge_None. lia.
Qed.

Lemma consistent_writes W s s' b :
  writes W s s' →
  (∀ w nd d, works s !! b = Some w → kind w = NodeOf nd →
             d ∈ dependents nd → ¬ W (in_ d)) →
  (∀ w k, works s !! b = Some w → ¬ W (InputSlot b k)) →
  consistent_at s b → consistent_at s' b.
Proof.
  intros HW Hdeps Hin Hc w' nd' Hw' Hk' Hal d Hd.
  destruct (writes_works _ _ _ HW _ _ Hw') as (w & Hw & _ & Hwiring).
  rewrite Hk' in Hwiring. destruct (kind w) as [|nd] eqn:Hk; [done|].
  destruct Hwiring as (Hfn & Hdd & Hpp & _).
  rewrite Hdd in Hd. rewrite Hpp in Hal.
  assert (call_fn nd' = call_fn nd) as ->.
  { unfold call_fn.
    rewrite Hfn, (inputs_unwritten W s s' b w w' nd nd'); eauto. }
  apply (writes_frame _ _ _ HW); [by eapply Hdeps|]. by eapply Hc.
Qed.

Lemma consistent_undisturbed s s' b :
  survivors s s' → undisturbed s s' → consistent_at s b → consistent_at s' b.
Proof.
  intros E U. apply (consistent_writes (λ _, False)).
  - by apply undisturbed_writes.
  - intros w nd d _ _ _ [].
  - intros w k _ [].
Qed.

Lemma proper_survivors s s' : survivors s s' → proper s → proper s'.
Proof.
  intros Hs Hp a w' nd' d b k Hw' Hk' Hd Hin.
  destruct (Hs _ _ Hw') as (w & Hw & _ & Hshape). rewrite Hk' in Hshape.
  destruct (kind w) as [|nd] eqn:Hk; [done|].
  destruct Hshape as (_ & Hdd & _). rewrite Hdd in Hd.
  by eapply (Hp a w nd d b k).
Qed.

Lemma single_writer_survivors s s' :
  survivors s s' → single_writer s → single_writer s'.
Proof.
  intros Hs Hsw a b wa' wb' nda' ndb' i d Ha' Hka' Hb' Hkb' Hi Hd Hin.
  destruct (Hs _ _ Ha') as (wa & Ha & _ & Hsa). rewrite Hka' in Hsa.
  destruct (kind wa) as [|nda] eqn:Hka; [done|].
  destruct (Hs _ _ Hb') as (wb & Hb & _ & Hsb). rewrite Hkb' in Hsb.
  destruct (kind wb) as [|ndb] eqn:Hkb; [done|].
  destruct Hsa as (_ & Hda & _), Hsb as (_ & Hdb & _).
  rewrite Hda in Hi. rewrite Hdb in Hd.
  by eapply (Hsw a b wa wb nda ndb i d).
Qed.

(** The evaluation of a Node leaves its dependents holding its result,
    and does not disturb the Nodes before it in the order of the ids. *)
Lemma Node_eval_consistent a ws s ws' s' w nd :
  works s !! a = Some w → kind w = NodeOf nd → lock_bit (next w) = 0 →
  topological s → proper s → single_writer s →
  Node_eval a ws s = Ok (ws', s') →
  consistent_at s' a ∧
  ∀ b, b ≠ a → (∀ wb, works s !! b = Some wb → id wb ≤ id w) →
       consistent_at s b → consistent_at s' b.
Proof.
  intros Hw Hk Hl Htopo Hproper Hsw H. unfold Node_eval in H.
  rewrite (bind_run _ _ _ _ _ (trylock_and_dequeue_run _ _ _ Hw)) in H.
  rewrite bool_decide_eq_true_2 in H by done. simpl in H.
  set (w1 := with_next flags.LOCK w) in *.
  rewrite (bind_run _ _ _ _ _
             (get_node_run a _ w1 nd (set_work_lookup _ _ _) Hk)) in H.
  destruct (Propagate_call (propagate nd) (call_fn nd)) as [fire policy] eqn:Hpc.
  rewrite (bind_run _ _ _ _ _
             (put_node_run a w1 _ _ (set_work_lookup _ _ _))) in H.
  rewrite set_work_set_work in H.
  set (w2 := with_kind (NodeOf (with_propagate policy nd)) w1) in *.
  set (s2 := set_work a w2 s) in *.
  assert (works s2 !! a = Some w2) as Hw2 by apply set_work_lookup.
  assert (∀ b, b ≠ a → works s2 !! b = works s !! b) as Hother.
  { intros b Hb. unfold s2. by rewrite set_work_lookup_ne. }
  assert (∀ p (x : V), holds_value s p x → holds_value s2 p x) as Hs2.
  { intros [b k|c] x Hold; [|exact Hold]. unfold holds_value in *.
    intros wb Hwb. destruct (decide (b = a)) as [->|Hne].
    - rewrite Hw2 in Hwb. inversion Hwb; subst wb.
      destruct (Hold _ Hw) as (nd0 & Hk0 & Hv).
      assert (nd0 = nd) as -> by congruence. eexists. split; [done|]. done.
    - rewrite Hother in Hwb by done. by apply Hold. }
  apply bind_Ok in H as (ws3 & s3 & H3 & H).
  apply bind_Ok in H as (? & s4 & H4 & [= <- <-]).
  unfold release in H4.
  apply bind_Ok in H4 as (w3 & ? & [Hw3 ->]%get_work_Ok & H4).
  inversion H4 as [Hs4]. clear H4. subst s4.
  set (s4 := with_works _ s3).
  set (W := λ p, fire = true ∧ ∃ d, d ∈ dependents nd ∧ in_ d = p).
  assert (writes W s2 s3) as W23.
  { destruct fire.
    - eapply writes_weaken; [|by eapply notify_writes]. intros p Hp. by split.
    - inversion H3; subst. apply writes_refl. }
  assert (undisturbed s3 s4) as U34 by (by apply (undisturbed_set_work a w3)).
  assert (writes W s3 s4) as W34 by (by apply (set_work_writes W a w3)).
  pose proof (writes_trans _ _ _ _ W23 W34) as W24.
  assert (∀ b wb, works s !! b = Some wb → id wb ≤ id w →
                  ∀ k, ¬ W (InputSlot b k)) as Hslots.
  { intros b wb Hwb Hid k (_ & d & Hd & Hin).
    pose proof (Hproper a w nd d b k Hw Hk Hd Hin) as Href.
    pose proof (Htopo a w nd d b wb Hw Hk Hd Href Hwb). lia. }
  split.
  - intros w4 nd4 Hw4 Hk4 Hal d Hd.
    destruct (writes_works _ _ _ W24 _ _ Hw4) as (w2' & Hw2' & _ & Hwiring).
    assert (w2' = w2) as -> by congruence.
    rewrite Hk4 in Hwiring. simpl in Hwiring.
    destruct Hwiring as (Hfn & Hdd & Hpp & _).
    rewrite Hdd in Hd. rewrite Hpp in Hal. subst policy.
    assert (fire = true) as ->.
    { destruct (propagate nd); simpl in Hpc; [by inversion Hpc|].
      by inversion Hpc. }
    assert (inputs nd4 = inputs nd) as Hin.
    { apply (inputs_unwritten W s2 s4 a w2 w4 (with_propagate Always nd) nd4);
        try done.
      apply (Hslots a w); [done|lia]. }
    assert (call_fn nd4 = call_fn nd) as ->
      by (unfold call_fn; by rewrite Hfn, Hin).
    apply (holds_value_undisturbed s3); [done|].
    destruct (notify_delivers _ _ _ _ _ _ H3) as [Hall _]. by apply Hall.
  - intros b Hb Hid Hc.
    apply (consistent_writes W s2 s4); [done| | |].
    + intros wb ndb d. rewrite Hother by done. intros Hwb Hkb Hd (_ & d' & Hd' & Hin).
      apply Hb. symmetry.
      by apply (Hsw a b w wb nd ndb d' d).
    + intros wb k. rewrite Hother by done. intros Hwb.
      by apply (Hslots b wb Hwb (Hid _ Hwb) k).
    + intros wb ndb. rewrite Hother by done. intros Hwb Hkb Hal d Hd.
      apply Hs2. by eapply Hc.
Qed.


Lemma drop_duplicates_undisturbed i l : ∀ st s st' l' s',
  drop_duplicates i st l s = Ok ((st', l'), s') → undisturbed s s'.
Proof.
  induction l as [|[i' a] l IH]; intros st s st' l' s' H; simpl in H.
  - inversion H; subst. apply undisturbed_refl.
  - destruct (i' =? i); [|inversion H; subst; apply undisturbed_refl].
    apply bind_Ok in H as (? & s1 & H1%release_rec_undisturbed & H).
    eapply undisturbed_trans; [exact H1|]. by eapply IH.
Qed.

Lemma run_heap_consistent n : ∀ ws s ws' s' lo hi (before : list Z),
  run_heap n ws s = Ok (ws', s') →
  heap_inv lo hi s (q ws) →
  topological s → unlocked s → proper s → single_writer s →
  (∀ a w, a ∈ before → works s !! a = Some w → id w ≤ lo) →
  (∀ a, a ∈ before → consistent_at s a) →
  ∃ evs, evals s' = evals s ++ evs ∧
         ∀ a, a ∈ before ++ evs.*1 → consistent_at s' a.
Proof.
  induction n as [|n IH];
    intros ws s ws' s' lo hi before H Hh Htopo Hun Hproper Hsw Hids Hcons;
    [done|].
  simpl in H. destruct (q ws) as [|[k0 a] rest] eqn:Hq.
  { inversion H; subst. exists []. rewrite !app_nil_r. done. }
  apply bind_Ok in H as (work & ? & [Hw ->]%get_work_Ok & H).
  apply bind_Ok in H as ([st rest'] & s1 & H1 & H).
  apply bind_Ok in H as (? & s2 & [= <- <-] & H).
  apply bind_Ok in H as (ws2 & s3 & H3 & H).
  apply bind_Ok in H as (? & s4 & H4 & H).
  destruct (run_heap_step _ _ _ _ _ _ _ _ _ _ _ _ _ _ _ Hh Hw H1 H3 H4)
    as [[Hlo _] Hh4].
  destruct (drop_duplicates_spec _ _ _ _ _ _ _ H1)
    as (dups & _ & _ & _ & _ & Q1 & _).
  pose proof (drop_duplicates_undisturbed _ _ _ _ _ _ _ H1) as U1.
  set (s2 := with_evals (evals s1 ++ [(a, id work)]) s1) in *.
  assert (survivors s s2) as Hs2.
  { intros b wb Hwb. by apply (quiet_survivors _ _ Q1 b wb). }
  assert (undisturbed s s2) as U2.
  { eapply undisturbed_trans; [exact U1|]. split; [done|].
    intros b wb Hwb. eauto. }
  assert (topological s2) as Htopo2 by (by apply (topological_survivors s)).
  assert (unlocked s2) as Hun2.
  { intros b wb Hwb. by apply (unlocked_quiet _ _ Q1 Hun b wb). }
  unfold Work_eval in H3.
  apply bind_Ok in H3 as (w2 & ? & [Hw2 ->]%get_work_Ok & H3).
  assert (id w2 = id work) as Hid2.
  { destruct (Hs2 _ _ Hw2) as (w0 & Hw0 & [Hid _]). congruence. }
  destruct (kind w2) as [|nd2] eqn:Hk2; [done|].
  destruct (Node_eval_consistent a _ s2 ws2 s3 w2 nd2 Hw2 Hk2
              (Hun2 _ _ Hw2) Htopo2 (proper_survivors _ _ Hs2 Hproper)
              (single_writer_survivors _ _ Hs2 Hsw) H3) as [Ha3 Hb3].
  destruct (Node_eval_inv _ _ _ _ _ H3) as (E3 & _ & _).
  pose proof (intrusive_ptr_release_quiet _ _ _ _ H4) as Q4.
  pose proof (release_rec_undisturbed _ _ _ _ _ H4) as U4.
  assert (survivors s s4) as Hs4.
  { apply survivors_trans with s2; [done|].
    apply survivors_trans with s3;
      [by apply evolves_survivors | by apply quiet_survivors]. }
  assert (unlocked s4) as Hun4.
  { apply (unlocked_quiet _ _ Q4).
    assert (Work_eval a {| q := rest'; stats := st; current_id := id work |} s2
            = Ok (ws2, s3)) as H3'.
    { unfold Work_eval. rewrite (bind_run _ _ _ _ _ (get_work_run _ _ _ Hw2)).
      by rewrite Hk2. }
    by destruct (Work_eval_calm a
                   {| q := rest'; stats := st; current_id := id work |}
                   s2 ws2 s3 w2 Hw2 (eq_sym Hid2) Htopo2 Hun2 H3'). }
  destruct (IH _ _ _ _ _ _ (a :: before) H Hh4) as (evs & Hev & Hall).
  - by apply (topological_survivors s).
  - done.
  - by apply (proper_survivors s).
  - by apply (single_writer_survivors s).
  - intros b wb4 [->|Hb]%elem_of_cons Hwb4;
      destruct (Hs4 _ _ Hwb4) as (wb & Hwb & [Hidb _]).
    + assert (wb = work) as -> by congruence. lia.
    + pose proof (Hids _ _ Hb Hwb). lia.
  - intros b Hb. apply (consistent_undisturbed s3);
      [by apply quiet_survivors|done|].
    apply elem_of_cons in Hb as [->|Hb]; [done|].
    apply Hb3.
    + intros ->. pose proof (Hids _ _ Hb Hw). lia.
    + intros wb2 Hwb2. destruct (Hs2 _ _ Hwb2) as (wb & Hwb & [Hidb _]).
      pose proof (Hids _ _ Hb Hwb). lia.
    + apply (consistent_undisturbed s); [done|done|]. by apply Hcons.
  - exists ((a, id work) :: evs). split.
    + rewrite Hev, (evolves_evals _ _ (quiet_evolves _ _ Q4)),
        (evolves_evals _ _ E3).
      simpl. rewrite (evolves_evals _ _ (quiet_evolves _ _ Q1)).
      by rewrite <- app_assoc.
    + intros b Hb. apply Hall. rewrite fmap_cons in Hb. simpl in Hb.
      apply elem_of_app in Hb as [Hb|Hb].
      * apply elem_of_cons. right. apply elem_of_app. by left.
      * apply elem_of_cons in Hb as [->|Hb]; [by left|].
        apply elem_of_cons. right. apply elem_of_app. by right.
Qed.

(** The two loops of a pass, the one over the intake queue and the one
    over the heap, leave the Nodes they evaluated in step with their
    dependents. *)
Lemma loops_in_step n h st s ws1 s1 ws2 s2 :
  topological s → unlocked s → proper s → single_writer s →
  drain n h {| q := []; stats := st; current_id := 0 |} s = Ok (ws1, s1) →
  run_heap n ws1 s1 = Ok (ws2, s2) →
  ∃ evs, evals s2 = evals s ++ evs ∧
         ∀ a, a ∈ evs.*1 → consistent_at s2 a.
Proof.
  intros Htopo Hun Hproper Hsw H1 H2.
  destruct (drain_inv _ _ _ _ _ _ H1) as (-> & _ & _ & Hh).
  destruct (ids_bounded (works s)) as (lo & hi & Hb).
  destruct (run_heap_consistent _ _ _ _ _ lo hi [] H2) as (evs & Hev & Hall).
  - apply Hh; [intros a w Hw; apply Hb in Hw; lia|].
    split; [constructor | constructor |]. intros a w Hw. apply Hb in Hw. lia.
  - done.
  - done.
  - done.
  - done.
  - by intros a w ?%elem_of_nil.
  - by intros a ?%elem_of_nil.
  - by exists evs.
Qed.

(** X20: After a pass over a graph built upstream first, every Node the pass
    evaluated whose policy is [Always] is in step with its dependents: the
    Value each of them points to holds the result of the function of the
    Node on its inputs as they are when the pass ends.  It is assumed that
    no flag is held, that an Input to a slot of a Node holds a reference
    to that Node, and that no Value is fed by two Nodes. *)
Theorem evaluate_consistent n st s b st' s' :
  topological s → unlocked s → proper s → single_writer s →
  evaluate n st s = Ok ((b, st'), s') →
  ∃ evs, evals s' = evals s ++ evs ∧
         ∀ a, a ∈ evs.*1 → consistent_at s' a.
Proof.
  intros Htopo Hun Hproper Hsw H. unfold evaluate in H.
  apply bind_Ok in H as (t & ? & [= <- <-] & H).
  apply bind_Ok in H as (h & ? & [= <- <-] & H).
  apply bind_Ok in H as (? & s0 & [= <- <-] & H).
  destruct (_ =? _).
  { inversion H; subst. exists []. rewrite app_nil_r. split; [done|].
    by intros a ?%elem_of_nil. }
  apply bind_Ok in H as (work1 & s1 & H1 & H).
  apply bind_Ok in H as (work2 & s2 & H2 & [= <- <- <-]).
  set (s0 := with_work_queue (tombstone (graph s)) s) in *.
  eapply (loops_in_step n _ _ s0); [| | | |exact H1|exact H2].
  - intros a w nd i r wr. apply (Htopo a w nd i r wr).
  - intros a w. apply (Hun a w).
  - intros a w nd d c k. apply (Hproper a w nd d c k).
  - intros a c wa wc nda ndc i d. apply (Hsw a c wa wc nda ndc i d).
Qed.

(** ** Checking a store, continued *)

Lemma aligned_store_check s :
  Z.land (work_queue (graph s)) flags.LOCK = 0 →
  check_works aligned_b s = true → aligned_store s.
Proof.
  intros Hq H. split; [done|]. intros a w Hw.
  apply (check_works_sound _ _ H) in Hw. unfold aligned_b in Hw.
  by apply Z.eqb_eq in Hw.
Qed.

Lemma ids_fresh_check s : check_works (ids_fresh_b s) s = true → ids_fresh s.
Proof.
  intros H a w Hw. apply (check_works_sound _ _ H) in Hw.
  unfold ids_fresh_b in Hw. by apply Z.ltb_lt in Hw.
Qed.

Lemma unique_ids_check s :
  check_works (unique_ids_b s) s = true → unique_ids s.
Proof.
  intros H a b wa wb Ha Hb Hab.
  apply (check_works_sound _ _ H) in Ha. unfold unique_ids_b in Ha.
  apply (check_works_sound _ _ Ha) in Hb.
  rewrite Hab, Z.eqb_refl in Hb. simpl in Hb. by apply Z.eqb_eq in Hb.
Qed.

Lemma queued_check s l :
  check_works (queued_b l) s = true →
  ∀ a w, works s !! a = Some w → pointer_bits (next w) ≠ 0 → a ∈ l.
Proof.
  intros H a w Hw Hne. apply (check_works_sound _ _ H) in Hw.
  unfold queued_b in Hw. apply orb_true_iff in Hw as [Hw|Hw].
  - by apply Z.eqb_eq in Hw.
  - by apply bool_decide_eq_true in Hw.
Qed.

Lemma proper_check s : check_works proper_b s = true → proper s.
Proof.
  intros H a w nd d b k Hw Hk Hd Hin.
  apply (check_works_sound _ _ H) in Hw. unfold proper_b in Hw.
  rewrite Hk in Hw. rewrite forallb_forall in Hw.
  apply list_elem_of_In, Hw in Hd. rewrite Hin in Hd.
  by apply bool_decide_eq_true in Hd.
Qed.

Lemma single_writer_check s :
  check_works (single_writer_b s) s = true → single_writer s.
Proof.
  intros H a b wa wb nda ndb i d Ha Hka Hb Hkb Hi Hd Hin.
  apply (check_works_sound _ _ H) in Ha. unfold single_writer_b in Ha.
  apply (check_works_sound _ _ Ha) in Hb. rewrite Hka, Hkb in Hb.
  rewrite forallb_forall in Hb. apply list_elem_of_In, Hb in Hi.
  rewrite forallb_forall in Hi. apply list_elem_of_In, Hi in Hd.
  rewrite bool_decide_eq_true_2 in Hd by done. simpl in Hd.
  by apply Z.eqb_eq in Hd.
Qed.

(** ** The references of a pass *)

Lemma wrap_minus bits x y : wrap bits (wrap bits x - y) = wrap bits (x - y).
Proof. unfold wrap. apply Zminus_mod_idemp_l. Qed.

Lemma settled_same l s s' :
  (∀ a w w', works s !! a = Some w → works s' !! a = Some w' →
             refcount w' = refcount w) →
  settled l l s s'.
Proof. intros H a w w' Hw Hw'. by rewrite (H _ _ _ Hw Hw'). Qed.

Lemma settled_refl l s : settled l l s s.
Proof. apply settled_same. intros a w w' Hw Hw'. congruence. Qed.

Lemma settled_trans l1 l2 l3 s1 s2 s3 :
  survivors s2 s3 →
  settled l1 l2 s1 s2 → settled l2 l3 s2 s3 → settled l1 l3 s1 s3.
Proof.
  intros Hs H12 H23 a w1 w3 Hw1 Hw3.
  destruct (Hs _ _ Hw3) as (w2 & Hw2 & _).
  rewrite (H23 _ _ _ Hw2 Hw3). by apply H12.
Qed.

Lemma settled_cons b l l' s s' :
  settled l l' s s' → settled (b :: l) (b :: l') s s'.
Proof.
  intros H a w w' Hw Hw'. rewrite !occ_cons.
  set (d := if decide (b = a) then 1 else 0).
  replace (refcount w' - (d + occ a l')) with (refcount w' - occ a l' - d)
    by lia.
  replace (refcount w - (d + occ a l)) with (refcount w - occ a l - d) by lia.
  rewrite <- (wrap_minus _ (refcount w' - occ a l')).
  rewrite (H _ _ _ Hw Hw'). apply wrap_minus.
Qed.

Lemma settled_Permutation l1 l1' l2 l2' s s' :
  l1 ≡ₚ l1' → l2 ≡ₚ l2' → settled l1 l2 s s' → settled l1' l2' s s'.
Proof.
  intros H1 H2 H a w w' Hw Hw'.
  rewrite <- (occ_Permutation a _ _ H1), <- (occ_Permutation a _ _ H2).
  by apply H.
Qed.

Lemma settled_set_work l a w w1 s :
  works s !! a = Some w → refcount w1 = refcount w →
  settled l l s (set_work a w1 s).
Proof.
  intros Hw Hr. apply settled_same. intros b wb wb' Hwb.
  destruct (decide (b = a)) as [->|Hb].
  - rewrite set_work_lookup. intros [= <-]. congruence.
  - rewrite set_work_lookup_ne by done. congruence.
Qed.

(** A reference taken counts for one more entry. *)
Lemma intrusive_ptr_add_ref_settled l a s u s' :
  intrusive_ptr_add_ref a s = Ok (u, s') → settled l (a :: l) s s'.
Proof.
  unfold intrusive_ptr_add_ref. intros H.
  apply bind_Ok in H as (w & ? & [Hw ->]%get_work_Ok & H).
  rewrite put_work_run in H. injection H as _ <-. intros b wb wb' Hwb.
  rewrite occ_cons. destruct (decide (b = a)) as [->|Hb].
  - rewrite set_work_lookup. intros [= <-]. simpl.
    rewrite decide_True by done.
    assert (wb = w) as -> by congruence.
    rewrite wrap_minus. f_equal; lia.
  - rewrite set_work_lookup_ne by done. intros Hwb'.
    rewrite decide_False by done.
    assert (wb' = wb) as -> by congruence. f_equal; lia.
Qed.

(** A reference given back by a Work that stays counts for one entry
    less. *)
Lemma release_rec_settled n l a s u s' :
  release_rec n a s = Ok (u, s') → is_Some (works s' !! a) →
  settled (a :: l) l s s'.
Proof.
  destruct n as [|n]; [done|]. simpl. intros H [wa' Ha'].
  apply bind_Ok in H as (w & ? & [Hw ->]%get_work_Ok & H).
  destruct (Z.eqb_spec (wrap fast16_bits (refcount w - 1)) 0) as [Hz|Hnz].
  - exfalso. apply bind_Ok in H as (? & s1 & H1 & H).
    assert (survivors s1 s') as Hs.
    { destruct (kind w) as [|nd].
      - inversion H; subst. intros b wb Hwb. eauto using static_refl.
      - apply quiet_survivors.
        eapply (destroy_inputs_inv quiet (release_rec n));
          [apply quiet_refl | apply quiet_trans | | exact H].
        intros b s2 u2 s3. apply release_rec_quiet. }
    destruct (Hs _ _ Ha') as (w1 & Hw1 & _).
    unfold delete_work, modify in H1. inversion H1; subst s1.
    simpl in Hw1. by rewrite lookup_delete_eq in Hw1.
  - rewrite put_work_run in H. injection H as _ <-. intros b wb wb' Hwb.
    rewrite occ_cons. destruct (decide (b = a)) as [->|Hb].
    + rewrite set_work_lookup. intros [= <-]. simpl.
      rewrite decide_True by done.
      assert (wb = w) as -> by congruence.
      rewrite wrap_minus. f_equal; lia.
    + rewrite set_work_lookup_ne by done. intros Hwb'.
      rewrite decide_False by done.
      assert (wb' = wb) as -> by congruence. f_equal; lia.
Qed.

Lemma intrusive_ptr_release_settled l a s u s' :
  intrusive_ptr_release a s = Ok (u, s') → is_Some (works s' !! a) →
  settled (a :: l) l s s'.
Proof. apply release_rec_settled. Qed.

Lemma store_at_settled l p (v : V) s u s' :
  store_at p v s = Ok (u, s') → settled l l s s'.
Proof.
  destruct p as [a n|c]; simpl; intros H.
  - apply bind_Ok in H as (nd & ? & (w & Hw & Hk & ->)%get_node_Ok & H).
    destruct (inputs nd !! n) as [c|] eqn:E; [|done].
    rewrite (put_node_run _ _ _ _ Hw) in H. injection H as _ <-.
    by apply (settled_set_work l a w).
  - destruct (cells s !! c); [|done]. inversion H; subst s'.
    apply settled_same. intros a w w'. simpl. congruence.
Qed.

(** An entry pushed onto the heap comes with the reference it holds. *)
Lemma add_to_queue_settled a ws s ws' s' w :
  works s !! a = Some w → current_id ws < id w →
  add_to_queue a ws s = Ok (ws', s') →
  settled (q ws).*2 (q ws').*2 s s' ∧ quiet s s' ∧
  current_id ws' = current_id ws.
Proof.
  intros Hw Hlt H. unfold add_to_queue in H.
  rewrite (bind_run _ _ _ _ _ (get_work_run _ _ _ Hw)) in H.
  destruct (Z.leb_spec (id w) (current_id ws)) as [|_]; [lia|].
  apply bind_Ok in H as (? & s1 & H1 & [= <- <-]). simpl.
  split; [|split; [by eapply intrusive_ptr_add_ref_quiet | done]].
  eapply settled_Permutation;
    [done | | exact (intrusive_ptr_add_ref_settled _ _ _ _ _ H1)].
  symmetry. rewrite pq_push_Permutation. done.
Qed.

Lemma notify_settled deps (v : V) : ∀ ws s ws' s',
  (∀ i r wr, i ∈ deps → ref i = Some r → works s !! r = Some wr →
             current_id ws < id wr) →
  notify deps v ws s = Ok (ws', s') →
  settled (q ws).*2 (q ws').*2 s s'.
Proof.
  induction deps as [|d deps IH]; intros ws s ws' s' Hgt H.
  - inversion H; subst. apply settled_refl.
  - simpl in H. apply bind_Ok in H as (? & s1 & H1 & H).
    pose proof (store_at_quiet _ _ _ _ _ H1) as Q1.
    apply bind_Ok in H as (ws2 & s2 & H2 & H).
    assert (settled (q ws).*2 (q ws2).*2 s1 s2 ∧ quiet s1 s2 ∧
            current_id ws2 = current_id ws) as (S2 & Q2 & C2).
    { destruct (ref d) as [r|] eqn:Hr;
        [|inversion H2; subst;
          split; [apply settled_refl | split; [apply quiet_refl | done]]].
      assert (∃ wr1, works s1 !! r = Some wr1) as [wr1 Hwr1].
      { unfold add_to_queue in H2.
        apply bind_Ok in H2 as (wr1 & ? & [Hwr1 ->]%get_work_Ok & _). eauto. }
      destruct (quiet_survivors _ _ Q1 _ _ Hwr1) as (wr & Hwr & [Hid _]).
      apply (add_to_queue_settled r ws s1 ws2 s2 wr1 Hwr1); [|done].
      rewrite Hid. eapply (Hgt d r wr); [by left | done | done]. }
    assert (quiet s s2) as Q12 by (by eapply quiet_trans).
    assert (quiet s2 s') as Q3.
    { eapply notify_quiet; [|exact H]. rewrite C2.
      intros i r wr2 Hi Hr Hwr2.
      destruct (quiet_survivors _ _ Q12 _ _ Hwr2) as (wr & Hwr & [Hid _]).
      rewrite Hid. eapply (Hgt i r wr); [by right | done | done]. }
    apply settled_trans with (q ws2).*2 s2; [by apply quiet_survivors| |].
    + apply settled_trans with (q ws).*2 s1; [by apply quiet_survivors| |done].
      exact (store_at_settled _ _ _ _ _ _ H1).
    + eapply (IH ws2 s2); [|exact H]. rewrite C2.
      intros i r wr2 Hi Hr Hwr2.
      destruct (quiet_survivors _ _ Q12 _ _ Hwr2) as (wr & Hwr & [Hid _]).
      rewrite Hid. eapply (Hgt i r wr); [by right | done | done].
Qed.

(** In a graph built upstream first, the evaluation of a Node takes one
    reference for each entry it pushes onto the heap. *)
Lemma Work_eval_settled a ws s ws' s' w :
  works s !! a = Some w → current_id ws = id w →
  topological s → unlocked s →
  Work_eval a ws s = Ok (ws', s') →
  settled (q ws).*2 (q ws').*2 s s'.
Proof.
  intros Hw Hcur Htopo Hun H. unfold Work_eval in H.
  rewrite (bind_run _ _ _ _ _ (get_work_run _ _ _ Hw)) in H.
  destruct (kind w) as [|nd] eqn:Hk; [done|]. unfold Node_eval in H.
  rewrite (bind_run _ _ _ _ _ (trylock_and_dequeue_run _ _ _ Hw)) in H.
  rewrite bool_decide_eq_true_2 in H by eauto. simpl in H.
  set (w1 := with_next flags.LOCK w) in *.
  set (s1 := set_work a w1 s) in *.
  rewrite (bind_run _ _ _ _ _
             (get_node_run a s1 w1 nd (set_work_lookup _ _ _) Hk)) in H.
  destruct (Propagate_call (propagate nd) (call_fn nd)) as [fire policy].
  rewrite (bind_run _ _ _ _ _
             (put_node_run a w1 _ s1 (set_work_lookup _ _ _))) in H.
  set (w2 := with_kind (NodeOf (with_propagate policy nd)) w1) in *.
  set (s2 := set_work a w2 s1) in *.
  assert (∀ b, b ≠ a → works s2 !! b = works s !! b) as Hother.
  { intros b Hb. unfold s2, s1.
    rewrite !set_work_lookup_ne by done. done. }
  assert (works s2 !! a = Some w2) as Hw2 by apply set_work_lookup.
  apply bind_Ok in H as (ws3 & s3 & H3 & H).
  apply bind_Ok in H as (? & s4 & H4 & [= <- <-]).
  assert (∀ i r wr, i ∈ dependents nd → ref i = Some r →
                    works s2 !! r = Some wr → current_id ws < id wr) as Hgt.
  { rewrite Hcur. intros i r wr2 Hi Hr Hwr2.
    destruct (decide (r = a)) as [->|Hra].
    - exfalso. assert (id w < id w); [|lia].
      by eapply (Htopo a w nd i a w).
    - rewrite Hother in Hwr2 by done. by eapply (Htopo a w nd i r wr2). }
  assert (quiet s2 s3 ∧ settled (q ws).*2 (q ws3).*2 s2 s3) as [Q S3].
  { destruct fire.
    - split; [by eapply notify_quiet | by eapply notify_settled].
    - inversion H3; subst. split; [apply quiet_refl | apply settled_refl]. }
  unfold release in H4.
  apply bind_Ok in H4 as (w3 & ? & [Hw3 ->]%get_work_Ok & H4).
  rewrite put_work_run in H4. injection H4 as _ <-.
  match goal with
  | |- settled _ _ _ ?x => set (s4 := x) in *
  end.
  assert (survivors s3 s4) as Hs34.
  { intros b wb. unfold s4. destruct (decide (b = a)) as [->|Hb].
    - rewrite set_work_lookup. intros [= <-]. exists w3.
      split; [done|]. split; [done | apply same_shape_refl].
    - rewrite set_work_lookup_ne by done. eauto using static_refl. }
  apply settled_trans with (q ws3).*2 s3; [done| |].
  - apply settled_trans with (q ws).*2 s2; [by apply quiet_survivors| |done].
    apply settled_trans with (q ws).*2 s1.
    + intros b wb. unfold s2. destruct (decide (b = a)) as [->|Hb].
      * rewrite set_work_lookup. intros [= <-]. exists w1.
        split; [apply set_work_lookup|]. split; [done|]. simpl. by rewrite Hk.
      * rewrite set_work_lookup_ne by done. eauto using static_refl.
    + by apply (settled_set_work _ a w).
    + apply (settled_set_work _ a w1); [apply set_work_lookup | done].
  - by apply (settled_set_work _ a w3).
Qed.

Lemma drop_duplicates_settled i : ∀ l st s st' l' s',
  drop_duplicates i st l s = Ok ((st', l'), s') →
  (∀ a, is_Some (works s !! a) → is_Some (works s' !! a)) →
  settled l.*2 l'.*2 s s'.
Proof.
  induction l as [|[i' a] l IH]; intros st s st' l' s' H Hall; simpl in H.
  - inversion H; subst. apply settled_refl.
  - destruct (i' =? i); [|inversion H; subst; apply settled_refl].
    apply bind_Ok in H as (? & s1 & H1 & H).
    pose proof (intrusive_ptr_release_quiet _ _ _ _ H1) as Q1.
    destruct (drop_duplicates_spec _ _ _ _ _ _ _ H)
      as (_ & _ & _ & _ & _ & Q2 & _).
    assert (is_Some (works s !! a)) as Ha.
    { unfold intrusive_ptr_release in H1. simpl in H1.
      apply bind_Ok in H1 as (w & ? & [Hw ->]%get_work_Ok & _). eauto. }
    apply settled_trans with l.*2 s1; [by apply quiet_survivors| |].
    + rewrite fmap_cons. simpl.
      apply (intrusive_ptr_release_settled _ _ _ _ _ H1).
      destruct (Hall _ Ha) as [w' Hw'].
      destruct (quiet_survivors _ _ Q2 _ _ Hw') as (w1 & Hw1 & _). eauto.
    + apply (IH _ _ _ _ _ H). intros b [wb Hwb]. apply Hall.
      destruct (quiet_survivors _ _ Q1 _ _ Hwb) as (w0 & Hw0 & _). eauto.
Qed.

(** Over the loop of a pass that destroys nothing, every Work gives back
    the references the heap held. *)
Lemma run_heap_settled n : ∀ ws s ws' s' lo hi,
  run_heap n ws s = Ok (ws', s') →
  heap_inv lo hi s (q ws) →
  topological s → unlocked s →
  (∀ a, is_Some (works s !! a) → is_Some (works s' !! a)) →
  settled (q ws).*2 [] s s'.
Proof.
  induction n as [|n IH]; intros ws s ws' s' lo hi H Hh Htopo Hun Hall;
    [done|].
  simpl in H. destruct (q ws) as [|[k0 a] rest] eqn:Hq.
  { inversion H; subst. apply settled_refl. }
  apply bind_Ok in H as (work & ? & [Hw ->]%get_work_Ok & H).
  apply bind_Ok in H as ([st rest'] & s1 & H1 & H).
  apply bind_Ok in H as (? & s2 & [= <- <-] & H).
  apply bind_Ok in H as (ws2 & s3 & H3 & H).
  apply bind_Ok in H as (? & s4 & H4 & H).
  destruct (run_heap_step _ _ _ _ _ _ _ _ _ _ _ _ _ _ _ Hh Hw H1 H3 H4)
    as [_ Hh4].
  destruct (drop_duplicates_spec _ _ _ _ _ _ _ H1)
    as (dups & Hrest & _ & _ & _ & Q1 & _).
  set (s2 := with_evals (evals s1 ++ [(a, id work)]) s1) in *.
  assert (survivors s s2) as Hs2.
  { intros b wb Hwb. by apply (quiet_survivors _ _ Q1 b wb). }
  assert (survivors s1 s2) as Hs12.
  { intros b wb Hwb. eauto using static_refl. }
  assert (topological s2) as Htopo2 by (by apply (topological_survivors s)).
  assert (unlocked s2) as Hun2.
  { intros b wb Hwb. by apply (unlocked_quiet _ _ Q1 Hun b wb). }
  assert (∃ w2, works s2 !! a = Some w2 ∧ id w2 = id work) as (w2 & Hw2 & Hid2).
  { unfold Work_eval in H3.
    apply bind_Ok in H3 as (w2 & ? & [Hw2 ->]%get_work_Ok & _).
    exists w2. split; [done|].
    destruct (quiet_survivors _ _ Q1 _ _ Hw2) as (w0 & Hw0 & [Hid _]).
    congruence. }
  set (ws1 := {| q := rest'; stats := st; current_id := id work |}) in *.
  destruct (Work_eval_calm a ws1 s2 ws2 s3 w2 Hw2 (eq_sym Hid2) Htopo2 Hun2 H3)
    as [_ Hun3].
  destruct (Work_eval_inv _ _ _ _ _ H3) as (E3 & _ & _).
  pose proof (intrusive_ptr_release_quiet _ _ _ _ H4) as Q4.
  assert (survivors s s4) as Hs4.
  { apply survivors_trans with s2; [done|].
    apply survivors_trans with s3;
      [by apply evolves_survivors | by apply quiet_survivors]. }
  destruct (run_heap_evals _ _ _ _ _ _ _ H Hh4)
    as (evs & _ & _ & _ & _ & Hs' & _).
  assert (∀ b, is_Some (works s4 !! b) → is_Some (works s' !! b)) as Hall4.
  { intros b [wb Hwb]. apply Hall.
    destruct (Hs4 _ _ Hwb) as (w0 & Hw0 & _). eauto. }
  assert (∀ b, is_Some (works s !! b) → is_Some (works s1 !! b)) as Hall1.
  { intros b Hb. destruct (Hall _ Hb) as [wb' Hwb'].
    destruct (Hs' _ _ Hwb') as (wb4 & Hwb4 & _).
    destruct (quiet_survivors _ _ Q4 _ _ Hwb4) as (wb3 & Hwb3 & _).
    destruct (evolves_survivors _ _ E3 _ _ Hwb3) as (wb2 & Hwb2 & _).
    eauto. }
  assert (is_Some (works s4 !! a)) as Ha4.
  { destruct (Hall a) as [wa' Hwa']; [eauto|].
    destruct (Hs' _ _ Hwa') as (wa4 & Hwa4 & _). eauto. }
  rewrite fmap_cons. simpl.
  apply settled_trans with (q ws2).*2 s4; [done| |].
  2: { apply (IH (with_stats (incr_worked (stats ws2)) ws2) s4 ws' s'
                (id work) hi H Hh4);
         [by apply (topological_survivors s)
         | by apply (unlocked_quiet _ _ Q4) | done]. }
  apply settled_trans with (a :: (q ws2).*2) s3; [by apply quiet_survivors| |
    exact (intrusive_ptr_release_settled _ _ _ _ _ H4 Ha4)].
  apply settled_cons.
  apply settled_trans with rest'.*2 s2; [by apply evolves_survivors| |
    exact (Work_eval_settled a ws1 s2 ws2 s3 w2 Hw2 (eq_sym Hid2)
             Htopo2 Hun2 H3)].
  apply settled_trans with rest'.*2 s1; [done| |].
  - by apply (drop_duplicates_settled _ _ _ _ _ _ _ H1).
  - apply settled_same. intros b wb wb'. unfold s2. simpl. congruence.
Qed.

(** ** Fuel *)

(** The loops of a pass that return with some fuel return the same with
    more. *)
Lemma drain_fuel n : ∀ m h ws s r,
  drain n h ws s = Ok r → (n ≤ m)%nat → drain m h ws s = Ok r.
Proof.
  induction n as [|n IH]; intros m h ws s r H Hm; [done|].
  destruct m as [|m]; [lia|]. simpl in *.
  apply bind_Ok in H as (t & ? & [= <- <-] & H).
  unfold mbind at 1, M_bind at 1, gets at 1.
  destruct (h =? tombstone (graph s)); [done|].
  apply bind_Ok in H as (work & ? & [Hw ->]%get_work_Ok & H).
  rewrite (bind_run _ _ _ _ _ (get_work_run _ _ _ Hw)).
  apply bind_Ok in H as (nxt & s1 & H1 & H).
  rewrite (bind_run _ _ _ _ _ H1). apply (IH m); [done | lia].
Qed.

Lemma run_heap_fuel n : ∀ m ws s r,
  run_heap n ws s = Ok r → (n ≤ m)%nat → run_heap m ws s = Ok r.
Proof.
  induction n as [|n IH]; intros m ws s r H Hm; [done|].
  destruct m as [|m]; [lia|]. simpl in *.
  destruct (q ws) as [|[k0 a] rest]; [done|].
  apply bind_Ok in H as (work & ? & [Hw ->]%get_work_Ok & H).
  rewrite (bind_run _ _ _ _ _ (get_work_run _ _ _ Hw)).
  apply bind_Ok in H as ([st rest'] & s1 & H1 & H).
  rewrite (bind_run _ _ _ _ _ H1).
  apply bind_Ok in H as (? & s2 & H2 & H).
  rewrite (bind_run _ _ _ _ _ H2).
  apply bind_Ok in H as (ws2 & s3 & H3 & H).
  rewrite (bind_run _ _ _ _ _ H3).
  apply bind_Ok in H as (? & s4 & H4 & H).
  rewrite (bind_run _ _ _ _ _ H4). apply (IH m); [done | lia].
Qed.

Lemma evaluate_fuel n m st s r :
  evaluate n st s = Ok r → (n ≤ m)%nat → evaluate m st s = Ok r.
Proof.
  unfold evaluate. intros H Hm.
  apply bind_Ok in H as (t & ? & [= <- <-] & H).
  apply bind_Ok in H as (h & ? & [= <- <-] & H).
  apply bind_Ok in H as (? & s0 & [= <- <-] & H).
  unfold mbind at 1, M_bind at 1, gets at 1.
  unfold mbind at 1, M_bind at 1, gets at 1.
  unfold mbind at 1, M_bind at 1, modify at 1.
  destruct (_ =? _); [done|].
  apply bind_Ok in H as (work1 & s1 & H1 & H).
  rewrite (bind_run _ _ _ _ _ (drain_fuel _ m _ _ _ _ H1 Hm)).
  apply bind_Ok in H as (work2 & s2 & H2 & H).
  by rewrite (bind_run _ _ _ _ _ (run_heap_fuel _ m _ _ _ H2 Hm)).
Qed.

(** A pass that returns over a well-formed graph built upstream first, with
    no flag held, leaves every Node with the references it had, less one
    for each time the Node was on the intake queue. *)
Lemma evaluate_gives_back n st s l b st' s' :
  well_formed s l → topological s → unlocked s →
  evaluate n st s = Ok ((b, st'), s') →
  ∀ a w, works s !! a = Some w → kind w ≠ Tombstone →
         ∃ w', works s' !! a = Some w' ∧
               refcount w' = refcount w - occ a l.
Proof.
  intros Hwf Htopo Hun H.
  assert (holds s s' ∧ safe_inv 0 [] s') as [Hh Hsafe].
  { destruct (evaluate_sound st s l Hwf) as [n0 Hn0].
    destruct (Hn0 (n `max` n0)%nat ltac:(lia)) as (b1 & st1 & s1 & H1 & Hh1).
    rewrite (evaluate_fuel n (n `max` n0)%nat _ _ _ H ltac:(lia)) in H1.
    by injection H1 as <- <- <-. }
  assert (settled l [] s s') as Hset.
  { unfold evaluate in H.
    apply bind_Ok in H as (t & ? & [= <- <-] & H).
    apply bind_Ok in H as (h & ? & [= <- <-] & H).
    apply bind_Ok in H as (? & s0 & [= <- <-] & H).
    destruct (Z.eqb_spec (work_queue (graph s)) (tombstone (graph s)))
      as [Heq|Hne].
    { inversion H; subst.
      destruct l as [|a0 l].
      - apply settled_same. intros a w w'. simpl. congruence.
      - destruct (wf_chain _ _ Hwf) as (Hhd & Hnt & _). congruence. }
    apply bind_Ok in H as (work1 & s1 & H1 & H).
    apply bind_Ok in H as (work2 & s2 & H2 & [= <- <- <-]).
    destruct (drain_inv _ _ _ _ _ _ H1) as (-> & _ & _ & Hheap).
    destruct (drain_chained _ _ _ _ _ _ H1) as (l' & Hl' & ->).
    set (s0 := with_work_queue (tombstone (graph s)) s) in *.
    assert (l' = l) as ->.
    { apply (chain_unique s0 _ _ _ Hl').
      by apply (chain_frame s); [| |apply (wf_chain _ _ Hwf)]. }
    destruct (ids_bounded (works s)) as (lo & hi & Hb).
    assert (settled (q (drained s0 l {| q := []; stats := (λ _, EmptyStats) <$> st;
                                        current_id := 0 |})).*2 [] s0 s2)
      as Hrun.
    { eapply (run_heap_settled _ _ _ _ _ lo hi H2).
      - apply Hheap; [intros a w Hw; apply Hb in Hw; lia|].
        split; [constructor | constructor |]. intros a w Hw. apply Hb in Hw. lia.
      - intros a w nd i r wr. apply (Htopo a w nd i r wr).
      - intros a w. apply (Hun a w).
      - intros a [w Hw]. destruct (holds_works _ _ Hh a w Hw) as (w' & Hw' & _).
        eauto. }
    intros a w w' Hw Hw'. rewrite (Hrun a w w' Hw Hw'). f_equal. f_equal.
    apply occ_Permutation. rewrite drained_pointers.
    - by rewrite app_nil_r.
    - intros c Hc. by eapply chain_live. }
  intros a w Hw Hk.
  destruct (holds_works _ _ Hh a w Hw) as (w' & Hw' & [_ Hshape]).
  exists w'. split; [done|].
  pose proof (Hset a w w' Hw Hw') as Heq. rewrite occ_nil, Z.sub_0_r in Heq.
  assert (kind w' ≠ Tombstone) as Hk'.
  { destruct (kind w), (kind w'); done. }
  destruct (safe_counted _ _ _ Hsafe a w' Hw' Hk') as [Hlo' Hhi'].
  destruct (wf_refcount _ _ Hwf a w Hw Hk) as [Hlo Hhi].
  pose proof (total_budget_nonneg s). pose proof (occ_nonneg a l).
  rewrite occ_nil in Hlo'.
  rewrite wrap_small in Heq by lia. rewrite wrap_small in Heq by lia. done.
Qed.

(** X21: A pass over a well-formed graph built upstream first, with no flag
    held, gives back every reference it took and those the intake queue
    held: the reference count of a Node ends as it began, less one for
    each time the Node was on the queue. *)
Theorem evaluate_returns_references st s l :
  well_formed s l → topological s → unlocked s →
  ∃ n0, ∀ n, (n0 ≤ n)%nat →
    ∃ b st' s',
      evaluate n st s = Ok ((b, st'), s') ∧
      ∀ a w, works s !! a = Some w → kind w ≠ Tombstone →
             ∃ w', works s' !! a = Some w' ∧
                   refcount w' = refcount w - occ a l.
Proof.
  intros Hwf Htopo Hun.
  destruct (evaluate_sound st s l Hwf) as [n0 Hn0].
  exists n0. intros n Hn.
  destruct (Hn0 n Hn) as (b & st' & s' & H & _).
  exists b, st', s'. split; [done|].
  by apply (evaluate_gives_back n st s l b st').
Qed.

(** ** What a pass brings about *)

(** X22: A pass over a well-formed graph built upstream first, with unique
    ids, no flag held, Inputs that hold their Nodes and no Value fed
    twice, returns, and every Node that was on the intake queue is then in
    step with its dependents: under the policy [Always] each of them holds
    the result of the Node on its inputs as they are when the pass
    ends. *)
Theorem evaluate_updates_the_queued st s l :
  well_formed s l → topological s → unlocked s →
  proper s → single_writer s → unique_ids s →
  ∃ n0, ∀ n, (n0 ≤ n)%nat →
    ∃ b st' s',
      evaluate n st s = Ok ((b, st'), s') ∧
      ∀ a, a ∈ l → consistent_at s' a.
Proof.
  intros Hwf Htopo Hun Hproper Hsw Huniq.
  destruct (evaluate_safe st s l Hwf) as [n0 Hn0].
  exists n0. intros n Hn. destruct (Hn0 n Hn) as (b & st' & s' & H).
  exists b, st', s'. split; [done|]. intros a Ha.
  destruct (evaluate_account _ _ _ _ _ _ H)
    as (l' & evs & _ & _ & _ & Hl & Hev & Hcov & _).
  rewrite <- (chain_unique _ _ _ _ (wf_chain _ _ Hwf) Hl) in Hcov.
  destruct (evaluate_evals _ _ _ _ _ _ H) as (evs1 & Hev1 & _ & Hin & _).
  assert (∃ evs2, evals s' = evals s ++ evs2 ∧
                  ∀ c, c ∈ evs2.*1 → consistent_at s' c)
    as (evs2 & Hev2 & Hall).
  { pose proof H as H0. unfold evaluate in H0.
    apply bind_Ok in H0 as (t & ? & [= <- <-] & H0).
    apply bind_Ok in H0 as (h & ? & [= <- <-] & H0).
    apply bind_Ok in H0 as (? & s0 & [= <- <-] & H0).
    destruct (_ =? _).
    { inversion H0; subst. exists []. rewrite app_nil_r. split; [done|].
      by intros c ?%elem_of_nil. }
    apply bind_Ok in H0 as (work1 & s1 & H1 & H0).
    apply bind_Ok in H0 as (work2 & s2 & H2 & [= <- <- <-]).
    set (s0 := with_work_queue (tombstone (graph s)) s) in *.
    eapply (loops_in_step n _ _ s0); [| | | |exact H1|exact H2].
    - intros c w nd i r wr. apply (Htopo c w nd i r wr).
    - intros c w. apply (Hun c w).
    - intros c w nd d e k. apply (Hproper c w nd d e k).
    - intros c e wa wc nda ndc i d. apply (Hsw c e wa wc nda ndc i d). }
  assert (evs1 = evs) as -> by (apply (app_inv_head (evals s)); congruence).
  assert (evs2 = evs) as -> by (apply (app_inv_head (evals s)); congruence).
  apply Hall.
  destruct (chain_live _ _ _ _ (wf_chain _ _ Hwf) Ha) as [w Hw].
  pose proof (Hcov a w Ha Hw) as Hid.
  apply list_elem_of_fmap in Hid as ([c i] & Hi & He). simpl in Hi.
  rewrite Forall_forall in Hin.
  destruct (Hin _ He) as (wc & Hwc & Hidc). simpl in Hwc, Hidc.
  assert (a = c) as -> by (apply (Huniq a c w wc); [done|done|congruence]).
  apply list_elem_of_fmap. by exists (c, i).
Qed.

(** ** The admission rule *)

(** [q.push] puts the entry behind the entries whose id is not greater and
    in front of the first one whose id is. *)
Lemma pq_push_split e l :
  ∃ l1 l2,
    l = l1 ++ l2 ∧ pq_push e l = l1 ++ e :: l2 ∧
    Forall (λ e', e'.1 ≤ e.1) l1 ∧
    match l2 with e' :: _ => e.1 < e'.1 | [] => True end.
Proof.
  induction l as [|e' l IH]; simpl.
  - by exists [], [].
  - destruct (Z.ltb_spec e.1 e'.1) as [Hlt|Hge].
    + by exists [], (e' :: l).
    + destruct IH as (l1 & l2 & -> & -> & Hall & Hhd).
      exists (e' :: l1), l2. split; [done|]. split; [done|].
      split; [|done]. constructor; [lia | done].
Qed.

(** C1: [WorkState::add_to_queue] on the Work [w] at [a].  The call
    returns and leaves [current_id] alone.  When [w.id <= current_id] the
    Work is scheduled; with [l] the Works linked on the intake queue, a
    Work marked as queued being one of them and held by somebody:
    afterwards the intake queue lists [a], in front of the Works it listed
    when [a] was not among them, and as before when it was; a Work newly
    linked has one reference more, for the queue; the other Works and the
    heap are as they were, and [pushed_graph] is one more.  Otherwise the
    store differs in the reference count of [w] only, which is one more;
    the heap has gained the entry [(w.id, a)], behind the entries whose id
    is not greater and in front of the first whose id is; and
    [pushed_heap] is one more.  The counters are [uint16_t], and absent
    with a null [stats]. *)
Theorem add_to_queue_admission a ws s w l :
  works s !! a = Some w →
  (id w ≤ current_id ws →
   chain s (work_queue (graph s)) l ∧
   (pointer_bits (next w) ≠ 0 →
    a ∈ l ∧ 0 < refcount w < 2 ^ fast16_bits) ∧
   tombstone (graph s) ≠ 0 ∧ works s !! 0 = None ∧
   a ≠ tombstone (graph s) ∧ aligned (work_queue (graph s))) →
  ∃ ws' s',
    add_to_queue a ws s = Ok (ws', s') ∧
    current_id ws' = current_id ws ∧
    if id w <=? current_id ws then
      chain s' (work_queue (graph s')) (if decide (a ∈ l) then l else a :: l) ∧
      (∃ w', works s' !! a = Some w' ∧
             refcount w' = if decide (a ∈ l) then refcount w
                           else wrap fast16_bits (refcount w + 1)) ∧
      (∀ b, b ≠ a → works s' !! b = works s !! b) ∧
      cells s' = cells s ∧
      q ws' = q ws ∧
      stats ws' =
        (λ t, {| queued := queued t; worked := worked t;
                 duplicates := duplicates t;
                 pushed_graph := uint16 (pushed_graph t + 1);
                 pushed_heap := pushed_heap t |}) <$> stats ws
    else
      works s' = <[a := {| id := id w;
                           refcount := wrap fast16_bits (refcount w + 1);
                           next := next w; kind := kind w |}]> (works s) ∧
      graph s' = graph s ∧ cells s' = cells s ∧
      (∃ l1 l2,
         q ws = l1 ++ l2 ∧ q ws' = l1 ++ (id w, a) :: l2 ∧
         Forall (λ e, e.1 ≤ id w) l1 ∧
         match l2 with e :: _ => id w < e.1 | [] => True end) ∧
      stats ws' =
        (λ t, {| queued := queued t; worked := worked t;
                 duplicates := duplicates t;
                 pushed_graph := pushed_graph t;
                 pushed_heap := uint16 (pushed_heap t + 1) |}) <$> stats ws.
Proof.
  intros Hw Hthen. unfold add_to_queue.
  rewrite (bind_run _ _ _ _ _ (get_work_run _ _ _ Hw)).
  destruct (Z.leb_spec (id w) (current_id ws)) as [Hle|_].
  - destruct (Hthen Hle) as (Hl & Hq & Ht & H0 & Hat & Hal).
    destruct (decide (pointer_bits (next w) = 0)) as [Hp|Hp].
    + assert (a ∉ l) as Hnin by (by eapply chain_not_queued).
      destruct (schedule_enqueue _ _ _ Hw Hp Hal) as [o Ho].
      rewrite (bind_run _ _ _ _ _ Ho). eexists _, _. split; [reflexivity|].
      split; [reflexivity|]. rewrite !decide_False by done.
      split; [|split; [|split; [|done]]].
      * simpl. split; [done|]. split; [done|]. eexists.
        split; [apply lookup_insert_eq|]. simpl.
        rewrite pointer_bits_lor; [| done | apply lock_bit_cases].
        apply (chain_frame s); [|done|done].
        intros b Hb. simpl. apply lookup_insert_ne. by intros ->.
      * eexists. split; [apply lookup_insert_eq | done].
      * intros b Hb. simpl. by apply lookup_insert_ne.
    + destruct (Hq Hp) as [Hin Hr1].
      rewrite (bind_run _ _ _ _ _ (schedule_queued _ _ w Hw Hp Hr1)).
      eexists _, _. split; [reflexivity|]. split; [done|].
      rewrite !decide_True by done. split; [done|]. split; [eauto|]. done.
  - rewrite (bind_run _ _ _ _ _ (intrusive_ptr_add_ref_run _ _ _ Hw)).
    eexists _, _. split; [reflexivity|]. split; [done|].
    split; [done|]. split; [done|]. split; [done|]. split; [|done].
    simpl. destruct (pq_push_split (id w, a) (q ws))
      as (l1 & l2 & E1 & E2 & Hall & Hhd).
    by exists l1, l2.
Qed.

(** ** Once per id *)

Lemma uint16_balance (nl kh ne : Z) :
  uint16 (nl + kh - ne) = uint16 (nl + uint16 kh - ne).
Proof.
  unfold uint16, wrap.
  replace (nl + kh - ne) with (kh + (nl - ne)) by lia.
  replace (nl + kh mod 2 ^ 16 - ne) with (kh mod 2 ^ 16 + (nl - ne)) by lia.
  by rewrite Zplus_mod_idemp_l.
Qed.

(** C4: within one call of [Graph::operator()] that returns, [eval] is
    invoked once per id: the ids the pass evaluated are pairwise distinct,
    and the id of every Work that was on the intake queue is among them.
    The entries of the heap that were not evaluated are the duplicates, and
    each was counted: with [l] the Works of the intake queue, all of which
    went onto the heap, and [pushed_heap] the entries pushed besides,
    [duplicates] is their number less the number of Works evaluated, as a
    [uint16_t].  And each was released: over a well-formed graph built
    upstream first, with no flag held, every Node ends with the references
    it had, less one for each time it was on the intake queue, so that no
    reference taken for an entry of the heap is left. *)
Theorem evaluate_once_per_id n st s b st' s' :
  evaluate n st s = Ok ((b, st'), s') →
  ∃ l evs,
    chain s (work_queue (graph s)) l ∧
    evals s' = evals s ++ evs ∧
    NoDup evs.*2 ∧
    (∀ a w, a ∈ l → works s !! a = Some w → id w ∈ evs.*2) ∧
    (is_Some st →
     ∃ t, st' = Some t ∧
          duplicates t
          = uint16 (Z.of_nat (length l) + pushed_heap t
                    - Z.of_nat (length evs))) ∧
    (well_formed s l → topological s → unlocked s →
     ∀ a w, works s !! a = Some w → kind w ≠ Tombstone →
            ∃ w', works s' !! a = Some w' ∧
                  refcount w' = refcount w - occ a l).
Proof.
  intros H.
  destruct (evaluate_account _ _ _ _ _ _ H)
    as (l & evs & ndup & kg & kh & Hl & Hev & Hcov & _ & _ & _ & Hbal & Hst).
  destruct (evaluate_evals _ _ _ _ _ _ H) as (evs1 & Hev1 & Hsorted & _).
  assert (evs1 = evs) as -> by (apply (app_inv_head (evals s)); congruence).
  exists l, evs. split; [done|]. split; [done|].
  split; [by apply sorted_lt_NoDup|]. split; [done|]. split.
  - intros Hsome. rewrite (Hst Hsome). eexists. split; [done|]. simpl.
    rewrite <- uint16_balance. f_equal. lia.
  - intros Hwf Htopo Hun. by apply (evaluate_gives_back n st s l b st').
Qed.

End Library.

(** * The properties on the graphs of the test suite *)

Section Witnesses.
Import Examples.

(** Closed goals over the example graphs are settled by evaluation. *)
Ltac evaluated :=
  vm_compute;
  first [ reflexivity
        | discriminate
        | intros H; discriminate H
        | split; [intros H; discriminate H | reflexivity] ].

Lemma evaluate_ids_strictly_increase_witness :
  ∃ evs,
    evals update_policy_evaluated = evals update_policy ++ evs ∧
    Forall (λ e, ∃ w, works update_policy !! e.1 = Some w ∧ id w = e.2) evs ∧
    ∀ i j e e', (i < j)%nat → evs !! i = Some e → evs !! j = Some e' →
                e.2 < e'.2.
Proof.
  apply (evaluate_ids_strictly_increase 9 None update_policy true None).
  evaluated.
Defined.

Lemma add_to_queue_admission_witness :
  let ws := {| q := [(5, 96)]; stats := Some EmptyStats; current_id := 4 |} in
  ∃ ws' s',
    add_to_queue 48 ws update_policy_evaluated = Ok (ws', s') ∧
    current_id ws' = current_id ws ∧
    if id (work_at update_policy_evaluated 48) <=? current_id ws then
      chain s' (work_queue (graph s'))
        (if decide (48 ∈ []) then [] else [48]) ∧
      (∃ w', works s' !! 48 = Some w' ∧
             refcount w'
             = if decide (48 ∈ [])
               then refcount (work_at update_policy_evaluated 48)
               else wrap fast16_bits
                      (refcount (work_at update_policy_evaluated 48) + 1)) ∧
      (∀ b, b ≠ 48 → works s' !! b = works update_policy_evaluated !! b) ∧
      cells s' = cells update_policy_evaluated ∧
      q ws' = q ws ∧
      stats ws' =
        (λ t, {| queued := queued t; worked := worked t;
                 duplicates := duplicates t;
                 pushed_graph := uint16 (pushed_graph t + 1);
                 pushed_heap := pushed_heap t |}) <$> stats ws
    else
      works s' = <[48 := {| id := id (work_at update_policy_evaluated 48);
                            refcount :=
                              wrap fast16_bits
                                (refcount (work_at update_policy_evaluated 48)
                                 + 1);
                            next := next (work_at update_policy_evaluated 48);
                            kind := kind (work_at update_policy_evaluated 48)
                         |}]> (works update_policy_evaluated) ∧
      graph s' = graph update_policy_evaluated ∧
      cells s' = cells update_policy_evaluated ∧
      (∃ l1 l2,
         q ws = l1 ++ l2 ∧
         q ws' = l1 ++ (id (work_at update_policy_evaluated 48), 48) :: l2 ∧
         Forall (λ e, e.1 ≤ id (work_at update_policy_evaluated 48)) l1 ∧
         match l2 with
         | e :: _ => id (work_at update_policy_evaluated 48) < e.1
         | [] => True
         end) ∧
      stats ws' =
        (λ t, {| queued := queued t; worked := worked t;
                 duplicates := duplicates t;
                 pushed_graph := pushed_graph t;
                 pushed_heap := uint16 (pushed_heap t + 1) |}) <$> stats ws.
Proof.
  intros ws.
  apply (add_to_queue_admission 48 ws update_policy_evaluated
           (work_at update_policy_evaluated 48) []).
  - evaluated.
  - intros _. split; [evaluated|]. split.
    { intros H. exfalso. apply H. evaluated. }
    split; [evaluated|]. split; [evaluated|]. split; evaluated.
Defined.

Lemma evaluate_true_iff_work_witness :
  ∃ n0, ∀ n, (n0 ≤ n)%nat →
    ∃ b st' s' evs,
      evaluate n (Some EmptyStats) update_policy = Ok ((b, st'), s') ∧
      evals s' = evals update_policy ++ evs ∧
      (b = false ↔ work_queue (graph update_policy)
                     = tombstone (graph update_policy)) ∧
      (b = false → evs = [] ∧ s' = update_policy) ∧
      (b = true → evs ≠ []).
Proof.
  apply (evaluate_true_iff_work (Some EmptyStats) update_policy
           [96; 80; 64; 48; 32]).
  apply well_formed_check; [|evaluated].
  repeat (split; [evaluated |
          split; [evaluated |
          eexists; split; [evaluated|]]]).
  evaluated.
Defined.

Lemma evaluate_once_per_id_witness :
  ∃ l evs,
    chain update_policy (work_queue (graph update_policy)) l ∧
    evals (exec (evaluate 9 (Some EmptyStats)) update_policy)
      = evals update_policy ++ evs ∧
    NoDup evs.*2 ∧
    (∀ a w, a ∈ l → works update_policy !! a = Some w → id w ∈ evs.*2) ∧
    (is_Some (Some EmptyStats) →
     ∃ t, Some (tally 5 5 4 0 4) = Some t ∧
          duplicates t
          = uint16 (Z.of_nat (length l) + pushed_heap t
                    - Z.of_nat (length evs))) ∧
    (well_formed update_policy l → topological update_policy →
     unlocked update_policy →
     ∀ a w, works update_policy !! a = Some w → kind w ≠ Tombstone →
            ∃ w', works (exec (evaluate 9 (Some EmptyStats)) update_policy)
                    !! a = Some w' ∧
                  refcount w' = refcount w - occ a l).
Proof.
  apply (evaluate_once_per_id 9 (Some EmptyStats) update_policy true).
  evaluated.
Defined.

Lemma schedule_idempotent_witness :
  schedule 32 single_node = Ok (tt, single_node) ∧
  ∃ s1,
    schedule 32 single_node_evaluated = Ok (tt, s1) ∧
    (schedule 32;; schedule 32) single_node_evaluated = Ok (tt, s1) ∧
    chain s1 (work_queue (graph s1)) [32] ∧
    (32 ∉ ([] : list Z)) ∧
    (∀ ws, ∃ ws',
       drain 2 (work_queue (graph s1)) ws s1 = Ok (ws', s1) ∧
       (q ws').*2 ≡ₚ 32 :: ([] ++ (q ws).*2)).
Proof.
  split.
  - apply (schedule_idempotent 32 single_node (work_at single_node 32) [32]).
    + evaluated.
    + evaluated.
    + evaluated.
    + evaluated.
    + evaluated.
    + evaluated.
    + split; [evaluated|]. split; [evaluated|].
      eexists. split; [evaluated|]. evaluated.
    + evaluated.
    + evaluated.
  - apply (schedule_idempotent 32 single_node_evaluated
             (work_at single_node_evaluated 32) []).
    + evaluated.
    + evaluated.
    + evaluated.
    + evaluated.
    + evaluated.
    + evaluated.
    + evaluated.
    + evaluated.
    + evaluated.
Defined.



Lemma suppressed_propagation_changes_nothing_witness :
  (∃ s', Node_eval 80 {| q := []; stats := None; current_id := 4 |}
           update_policy_evaluated
         = Ok ({| q := []; stats := None; current_id := 4 |}, s') ∧
         cells s' = cells update_policy_evaluated ∧
         graph s' = graph update_policy_evaluated ∧
         (∀ b, b ≠ 80 → works s' !! b = works update_policy_evaluated !! b) ∧
         ∃ w' nd', works s' !! 80 = Some w' ∧ kind w' = NodeOf nd' ∧
                   inputs nd' = inputs (node_at update_policy_evaluated 80) ∧
                   dependents nd'
                     = dependents (node_at update_policy_evaluated 80) ∧
                   refcount w' = refcount (work_at update_policy_evaluated 80)) ∧
  (∃ o,
     (Input_append (Node_input 80 0) 1;; evaluate 2 (Some EmptyStats))
       update_policy_evaluated
     = Ok ((true, incr_worked (incr_queued
                     ((λ _, EmptyStats) <$> Some EmptyStats))),
           with_spurious o
             (with_evals (evals update_policy_evaluated
                            ++ [(80, id (work_at update_policy_evaluated 80))])
                update_policy_evaluated))).
Proof.
  split.
  - apply (proj1 suppressed_propagation_changes_nothing 80 _
             update_policy_evaluated (work_at update_policy_evaluated 80)
             (node_at update_policy_evaluated 80) (OnChange {| val := 1 |})).
    + evaluated.
    + evaluated.
    + evaluated.
    + evaluated.
  - apply (proj2 suppressed_propagation_changes_nothing 2%nat (Some EmptyStats)
             80 0%nat 1 update_policy_evaluated
             (work_at update_policy_evaluated 80)
             (node_at update_policy_evaluated 80) {| val := 1 |} {| val := 1 |}).
    + evaluated.
    + evaluated.
    + evaluated.
    + evaluated.
    + evaluated.
    + evaluated.
    + evaluated.
    + evaluated.
    + evaluated.
    + evaluated.
    + evaluated.
    + evaluated.
    + evaluated.
    + lia.
Defined.

(** The same value written to the input of an [OnChange] Node whose last
    propagated value is not the result for its inputs: the Node downstream
    is evaluated and its input and the cell behind it change. *)
Lemma suppressed_propagation_same_value_counterexample :
  work_queue (graph update_policy_constant)
    = tombstone (graph update_policy_constant) ∧
  inputs (node_at update_policy_constant 80) = [{| val := 7 |}] ∧
  propagate (node_at update_policy_constant 80) = OnChange {| val := 1 |} ∧
  inputs (node_at update_policy_constant 96) = [{| val := 1 |}] ∧
  ∃ st s',
    (Input_append (Node_input 80 0) 7;; evaluate 9 None) update_policy_constant
      = Ok ((true, st), s') ∧
    evals s' = evals update_policy_constant ++ [(80, 4); (96, 5)] ∧
    inputs (node_at s' 96) = [{| val := 7 |}] ∧
    cells s' !! 24 = Some {| val := 7 |}.
Proof.
  split; [evaluated|]. split; [evaluated|]. split; [evaluated|].
  split; [evaluated|]. eexists _, _. split; [evaluated|].
  split; [evaluated|]. split; evaluated.
Defined.

Lemma trylock_and_dequeue_failure_witness :
  let ws := {| q := []; stats := Some EmptyStats; current_id := 1 |} in
  let s1 := set_work 32 (with_next flags.LOCK (work_at single_node_locked 32))
              single_node_locked in
  trylock_and_dequeue 32 single_node_locked = Ok (false, s1) ∧
  (∃ w1, works s1 !! 32 = Some w1 ∧
         pointer_bits (next w1) = 0 ∧ lock_bit (next w1) = 1) ∧
  Node_eval 32 ws single_node_locked = add_to_queue 32 ws s1 ∧
  ∃ s2 w2,
    Node_eval 32 ws single_node_locked
      = Ok (with_stats (incr_pushed_graph (stats ws)) ws, s2) ∧
    work_queue (graph s2) = 32 ∧
    works s2 !! 32 = Some w2 ∧
    pointer_bits (next w2) = work_queue (graph single_node_locked) ∧
    lock_bit (next w2) = 1.
Proof.
  intros ws.
  apply (trylock_and_dequeue_failure 32 ws single_node_locked
           (work_at single_node_locked 32)).
  - evaluated.
  - evaluated.
  - evaluated.
  - evaluated.
Defined.

(** The second pass over the self-loop of [testCircular] is not empty. *)
Lemma second_pass_empty_counterexample :
  ∃ st1 s1 st2 s2,
    evaluate 5 (Some EmptyStats) circular = Ok ((true, st1), s1) ∧
    evaluate 5 (Some EmptyStats) s1 = Ok ((true, Some st2), s2) ∧
    queued st2 = 1 ∧ worked st2 = 1.
Proof.
  eexists _, _, _, _. split; [evaluated|].
  split; [evaluated|]. split; evaluated.
Defined.

Lemma second_pass_empty_witness :
  ∃ st2,
    evaluate 1 (Some EmptyStats) update_policy_evaluated
      = Ok ((false, Some st2), update_policy_evaluated) ∧
    queued st2 = 0 ∧ worked st2 = 0.
Proof.
  apply (second_pass_empty 9 1 None EmptyStats update_policy true None
           update_policy_evaluated).
  - apply topological_check. evaluated.
  - apply unlocked_check. evaluated.
  - evaluated.
Defined.

Ltac well_formed_evaluated :=
  apply well_formed_check; [|evaluated];
  repeat (split; [evaluated |
          split; [evaluated |
          eexists; split; [evaluated|]]]);
  evaluated.

Lemma trylock_release_round_trip_witness :
  ∃ s1,
    trylock 32 single_node_evaluated = Ok (true, s1) ∧
    readnext 32 single_node_evaluated
      = Ok (pointer_bits (next (work_at single_node_evaluated 32)),
            single_node_evaluated) ∧
    readnext 32 s1
      = Ok (pointer_bits (next (work_at single_node_evaluated 32)), s1) ∧
    trylock 32 s1 = Ok (false, s1) ∧
    release 32 s1 = Ok (tt, single_node_evaluated).
Proof.
  apply (trylock_release_round_trip 32 single_node_evaluated
           (work_at single_node_evaluated 32)); evaluated.
Defined.

Lemma connect_spins_on_held_flag_witness :
  Node_connect 5 32 (sink 8) single_node_locked = Timeout ∧
  Node_disconnect 5 32 (sink 8) single_node_locked = Timeout.
Proof.
  apply (connect_spins_on_held_flag 5 32 (sink 8) single_node_locked
           (work_at single_node_locked 32)); evaluated.
Defined.

Lemma add_ref_release_round_trip_witness :
  (intrusive_ptr_add_ref 32;; intrusive_ptr_release 32) single_node
    = Ok (tt, single_node).
Proof.
  apply (add_ref_release_round_trip 32 single_node (work_at single_node 32)).
  - evaluated.
  - split; evaluated.
Defined.

Lemma release_last_reference_witness :
  ∃ s',
    intrusive_ptr_release 32 chain_graph_evaluated = Ok (tt, s') ∧
    works s' !! 32 = None ∧
    (∀ b, b ≠ 32 →
          works s' !! b
          = (λ wb, {| id := id wb;
                      refcount :=
                        refcount wb
                        - occ b (held (dependents
                                         (node_at chain_graph_evaluated 32)));
                      next := next wb; kind := kind wb |})
              <$> works chain_graph_evaluated !! b) ∧
    cells s' = cells chain_graph_evaluated ∧
    graph s' = graph chain_graph_evaluated ∧
    spurious s' = spurious chain_graph_evaluated ∧
    evals s' = evals chain_graph_evaluated.
Proof.
  apply (release_last_reference 32 chain_graph_evaluated
           (work_at chain_graph_evaluated 32)
           (node_at chain_graph_evaluated 32)).
  - evaluated.
  - evaluated.
  - evaluated.
  - intros r Hr. vm_compute in Hr.
    apply elem_of_cons in Hr as [->|Hr]; [|by apply elem_of_nil in Hr].
    split; [discriminate|]. eexists. split; [evaluated|].
    vm_compute. split; reflexivity.
Defined.

Lemma connect_disconnect_round_trip_witness :
  (Node_connect 1 32 (Node_input 64 1);; Node_disconnect 1 32 (Node_input 64 1))
     chain_graph_evaluated
    = Ok (tt, chain_graph_evaluated).
Proof.
  apply (connect_disconnect_round_trip 1 32 (Node_input 64 1)
           chain_graph_evaluated (work_at chain_graph_evaluated 32)
           (node_at chain_graph_evaluated 32)).
  - evaluated.
  - evaluated.
  - evaluated.
  - lia.
  - repeat constructor. evaluated.
  - intros r [= <-]. exists (work_at chain_graph_evaluated 64).
    split; [evaluated|]. split; evaluated.
Defined.

Lemma Input_append_coalesces_witness :
  ∃ s1 s2,
    (Input_append (Node_input 32 0) 5;; Input_append (Node_input 32 0) 7)
       single_node_evaluated = Ok (tt, s1) ∧
    Input_append (Node_input 32 0) 7 single_node_evaluated = Ok (tt, s2) ∧
    with_spurious [] s1 = with_spurious [] s2 ∧
    work_queue (graph s1) = 32 ∧
    ∃ w1 nd1,
      works s1 !! 32 = Some w1 ∧ kind w1 = NodeOf nd1 ∧
      inputs nd1 !! 0%nat = Some {| val := 7 |} ∧
      refcount w1 = refcount (work_at single_node_evaluated 32) + 1 ∧
      pointer_bits (next w1) = work_queue (graph single_node_evaluated).
Proof.
  apply (Input_append_coalesces 32 0 5 7 single_node_evaluated
           (work_at single_node_evaluated 32)
           (node_at single_node_evaluated 32) {| val := 1 |}); evaluated.
Defined.

Lemma evaluate_counters_witness :
  ∃ l evs t,
    chain update_policy (work_queue (graph update_policy)) l ∧
    evals update_policy_evaluated = evals update_policy ++ evs ∧
    Some (tally 5 5 4 0 4) = Some t ∧
    queued t = uint16 (Z.of_nat (length l)) ∧
    worked t = uint16 (Z.of_nat (length evs)) ∧
    uint16 (worked t + duplicates t) = uint16 (queued t + pushed_heap t).
Proof.
  apply (evaluate_counters 9 EmptyStats update_policy true).
  evaluated.
Defined.

Lemma evaluate_reaches_the_queue_witness :
  ∃ n0, ∀ n, (n0 ≤ n)%nat →
    ∃ b st' s' evs,
      evaluate n None update_policy = Ok ((b, st'), s') ∧
      evals s' = evals update_policy ++ evs ∧
      ∀ a w, a ∈ [96; 80; 64; 48; 32] → works update_policy !! a = Some w →
             id w ∈ evs.*2.
Proof.
  apply (evaluate_reaches_the_queue None update_policy [96; 80; 64; 48; 32]).
  well_formed_evaluated.
Defined.

Lemma evaluate_leaves_flags_free_witness : unlocked update_policy_evaluated.
Proof.
  apply (evaluate_leaves_flags_free 9 None update_policy true None).
  - apply aligned_store_check; evaluated.
  - evaluated.
  - apply unlocked_check. evaluated.
  - evaluated.
Defined.

Lemma Node_eval_delivers_witness :
  let ws := {| q := []; stats := None; current_id := 1 |} in
  lock_bit (next (work_at single_node 32)) = 0 ∧
  ∀ i, i ∈ dependents (node_at single_node 32) →
       holds_value (exec (Node_eval 32 ws) single_node) (in_ i) 3.
Proof.
  intros ws. split; [evaluated|].
  apply (Node_eval_delivers 32 ws single_node (work_at single_node 32)
           (node_at single_node 32) Always ws); evaluated.
Defined.

Lemma NodeBuilder_connect_keeps_topological_witness :
  topological three_nodes ∧ ids_fresh three_nodes.
Proof.
  apply (NodeBuilder_connect_keeps_topological 1 64 Always less [0; 0]
           [Some (ConnectNode 32); Some (ConnectNode 48)] two_nodes 64).
  - apply topological_check. evaluated.
  - apply ids_fresh_check. evaluated.
  - evaluated.
  - evaluated.
  - repeat constructor; evaluated.
  - evaluated.
Defined.


Lemma evaluate_destroys_nothing_witness :
  ∃ n0, ∀ n, (n0 ≤ n)%nat →
    ∃ b st' s',
      evaluate n None update_policy = Ok ((b, st'), s') ∧
      holds update_policy s' ∧ closed s' ∧
      ∀ a w', works s' !! a = Some w' → kind w' ≠ Tombstone →
              0 < refcount w'.
Proof.
  apply (evaluate_destroys_nothing None update_policy [96; 80; 64; 48; 32]).
  well_formed_evaluated.
Defined.

Lemma evaluate_repeatedly_returns_witness :
  ∃ n0, ∀ n, (n0 ≤ n)%nat →
    ∃ m b st' s',
      evaluate m None update_policy = Ok ((b, st'), s') ∧
      evaluate_repeatedly n stop_after_two update_policy = Ok (tt, s') ∧
      work_queue (graph s') = tombstone (graph s').
Proof.
  apply (evaluate_repeatedly_returns stop_after_two 1 update_policy
           [96; 80; 64; 48; 32]).
  - well_formed_evaluated.
  - apply topological_check. evaluated.
  - apply unlocked_check. evaluated.
  - intros [|[|i]] Hi; [reflexivity | reflexivity | lia].
  - reflexivity.
Defined.

Lemma evaluate_clears_queue_pointers_witness :
  unique_ids update_policy ∧
  ∀ a w', works update_policy_evaluated !! a = Some w' → next w' = 0.
Proof.
  split; [apply unique_ids_check; evaluated|].
  apply (evaluate_clears_queue_pointers 9 None update_policy
           [96; 80; 64; 48; 32] true None).
  - apply topological_check. evaluated.
  - apply unlocked_check. evaluated.
  - apply unique_ids_check. evaluated.
  - repeat (split; [evaluated |
            split; [evaluated |
            eexists; split; [evaluated|]]]).
    evaluated.
  - apply queued_check. evaluated.
  - evaluated.
Defined.

Lemma store_read_round_trip_witness :
  read_at (Cell 8) (exec (store_at (Cell 8) 5) single_node)
    = Ok (5, exec (store_at (Cell 8) 5) single_node) ∧
  ∀ p' x, p' ≠ Cell 8 → read_at p' single_node = Ok (x, single_node) →
          read_at p' (exec (store_at (Cell 8) 5) single_node)
            = Ok (x, exec (store_at (Cell 8) 5) single_node).
Proof.
  apply (store_read_round_trip (Cell 8) 5 single_node tt). evaluated.
Defined.

Lemma Node_connect_pushes_front_witness :
  ∃ s',
    Node_connect 1 32 (Node_input 64 1) chain_graph_evaluated = Ok (tt, s') ∧
    cells s' = cells chain_graph_evaluated ∧
    graph s' = graph chain_graph_evaluated ∧
    (∀ b wb, works chain_graph_evaluated !! b = Some wb →
       works s' !! b =
         Some (with_refcount
                 (if decide (ref (Node_input 64 1) = Some b)
                  then wrap fast16_bits (refcount wb + 1) else refcount wb)
                 (if decide (b = 32)
                  then with_kind
                         (NodeOf (with_dependents
                                    (Node_input 64 1
                                       :: dependents (node_at chain_graph_evaluated 32))
                                    (node_at chain_graph_evaluated 32))) wb
                  else wb))) ∧
    (∀ b, works chain_graph_evaluated !! b = None → works s' !! b = None).
Proof.
  apply (Node_connect_pushes_front 1 32 (Node_input 64 1)
           chain_graph_evaluated (work_at chain_graph_evaluated 32)
           (node_at chain_graph_evaluated 32)).
  - evaluated.
  - evaluated.
  - evaluated.
  - lia.
  - intros r [= <-]. eexists. evaluated.
Defined.

Lemma NodeBuilder_connect_constants_witness :
  ∃ l,
    NodeBuilder_connect 1 32 Always plus [0; 0]
      (constant_args [Some 4; None]) (new_graph [8])
    = Ok (32,
          {| works :=
               <[32 := {| id := ids (graph (new_graph [8])); refcount := 2;
                          next := work_queue (graph (new_graph [8]));
                          kind := NodeOf {| fn := plus;
                                            inputs := initial_inputs [0; 0]
                                                        [Some 4; None];
                                            dependents := [];
                                            propagate := Always |} |}]>
                 (works (new_graph [8]));
             cells := cells (new_graph [8]);
             graph := {| ids := uint32 (ids (graph (new_graph [8])) + 1);
                         work_queue := 32;
                         tombstone := tombstone (graph (new_graph [8])) |};
             spurious := l;
             evals := evals (new_graph [8]) |}).
Proof.
  apply (NodeBuilder_connect_constants 1 32 Always plus [0; 0] [Some 4; None]
           (new_graph [8])); evaluated.
Defined.

Lemma evaluate_consistent_witness :
  ∃ evs, evals update_policy_evaluated = evals update_policy ++ evs ∧
         ∀ a, a ∈ evs.*1 → consistent_at update_policy_evaluated a.
Proof.
  apply (evaluate_consistent 9 None update_policy true None).
  - apply topological_check. evaluated.
  - apply unlocked_check. evaluated.
  - apply proper_check. evaluated.
  - apply single_writer_check. evaluated.
  - evaluated.
Defined.

Lemma evaluate_returns_references_witness :
  ∃ n0, ∀ n, (n0 ≤ n)%nat →
    ∃ b st' s',
      evaluate n None chain_graph = Ok ((b, st'), s') ∧
      ∀ a w, works chain_graph !! a = Some w → kind w ≠ Tombstone →
             ∃ w', works s' !! a = Some w' ∧
                   refcount w' = refcount w - occ a [64; 48; 32].
Proof.
  apply (evaluate_returns_references None chain_graph [64; 48; 32]).
  - well_formed_evaluated.
  - apply topological_check. evaluated.
  - apply unlocked_check. evaluated.
Defined.

Lemma evaluate_updates_the_queued_witness :
  ∃ n0, ∀ n, (n0 ≤ n)%nat →
    ∃ b st' s',
      evaluate n None chain_graph = Ok ((b, st'), s') ∧
      ∀ a, a ∈ [64; 48; 32] → consistent_at s' a.
Proof.
  apply (evaluate_updates_the_queued None chain_graph [64; 48; 32]).
  - well_formed_evaluated.
  - apply topological_check. evaluated.
  - apply unlocked_check. evaluated.
  - apply proper_check. evaluated.
  - apply single_writer_check. evaluated.
  - apply unique_ids_check. evaluated.
Defined.

End Witnesses.
